(** * expression_parser.js: lexer and precedence-climbing parser

    A shallow embedding of [src/expression_parser.js].

    - JavaScript strings are lists of characters, each [ascii] standing for
      one code unit below 256; [undefined] is [None].
    - A [throw] is the [Throw] outcome of [result]; the four [throw]
      statements of the program are the four constructors of [Error].
    - The two mutable objects, the [Lexer] and the [Parser] that holds it,
      are records threaded through the calls that mutate them.
    - The loops of the lexer run on a bound computed from the input; the
      recursion of [parse] runs on fuel, and [parseString_terminates] and
      [more_fuel] show that the fuel given is enough and that more of it
      changes nothing.
    - [+literal], [isNaN] and [parseFloat] follow the grammar of numeric
      strings of the language ([JSNumber]); a number is kept as the numeral
      it was read from, without rounding to a float.

    The two earlier parsers of the repository, [src/recursive_descent.js]
    and [src/unnamed/part_000], are embedded after it, in the modules
    [RecursiveDescent] and [PrecedenceSketch]. *)

From Stdlib Require Import Ascii String List ZArith Bool Arith Lia.
Import ListNotations.

Local Open Scope char_scope.
Local Open Scope list_scope.

(** ** JavaScript strings and the built-ins the program calls *)

Definition jsstring := list ascii.

(** A string literal of the source file, as a [jsstring]. *)
Definition str (s : string) : jsstring := list_ascii_of_string s.

Definition jsstring_eqb (a b : jsstring) : bool :=
  if list_eq_dec ascii_dec a b then true else false.

Definition code (c : ascii) : N := N_of_ascii c.

(** [String.prototype.substring(start, end)]: both indices are clamped to the
    length and swapped when [start > end]. *)
Definition substring (s : jsstring) (i j : nat) : jsstring :=
  let a := Nat.min i j in
  let b := Nat.max i j in
  firstn (b - a) (skipn a s).

Module JSNumber.

(** White space and line terminators that [ToNumber] and [parseFloat] trim
    (those with a code unit below 256): TAB, LF, VT, FF, CR, SP, NBSP. *)
Definition isStrWhiteSpaceChar (c : ascii) : bool :=
  let n := code c in
  ((9 <=? n) && (n <=? 13) || (n =? 32) || (n =? 160))%N.

Definition isDecimalDigit (c : ascii) : bool :=
  ((48 <=? code c) && (code c <=? 57))%N.

Definition isHexDigit (c : ascii) : bool :=
  let n := code c in
  (isDecimalDigit c || (65 <=? n) && (n <=? 70) || (97 <=? n) && (n <=? 102))%N.

Definition isOctalDigit (c : ascii) : bool :=
  ((48 <=? code c) && (code c <=? 55))%N.

Definition isBinaryDigit (c : ascii) : bool :=
  ((48 <=? code c) && (code c <=? 49))%N.

Fixpoint dropWhile (f : ascii -> bool) (s : jsstring) : jsstring :=
  match s with
  | c :: s' => if f c then dropWhile f s' else s
  | [] => []
  end.

Fixpoint takeWhile (f : ascii -> bool) (s : jsstring) : jsstring :=
  match s with
  | c :: s' => if f c then c :: takeWhile f s' else []
  | [] => []
  end.

Definition trimStart (s : jsstring) : jsstring :=
  dropWhile isStrWhiteSpaceChar s.

Definition trim (s : jsstring) : jsstring :=
  rev (trimStart (rev (trimStart s))).

Definition nonEmpty (s : jsstring) : bool :=
  match s with [] => false | _ => true end.

(** ExponentPart, when present, is [e] or [E], an optional sign and at
    least one digit. *)
Definition isExponentPart (s : jsstring) : bool :=
  match s with
  | ("e" | "E") :: ("+" | "-") :: ds => nonEmpty ds && forallb isDecimalDigit ds
  | ("e" | "E") :: ds => nonEmpty ds && forallb isDecimalDigit ds
  | _ => false
  end.

Definition isOptExponentPart (s : jsstring) : bool :=
  match s with [] => true | _ => isExponentPart s end.

(** StrUnsignedDecimalLiteral:
    Infinity | Digits . Digits? Exp? | . Digits Exp? | Digits Exp? *)
Definition isStrUnsignedDecimalLiteral (s : jsstring) : bool :=
  jsstring_eqb s (str "Infinity") ||
  let int := takeWhile isDecimalDigit s in
  match dropWhile isDecimalDigit s with
  | "." :: r =>
      let frac := takeWhile isDecimalDigit r in
      (nonEmpty int || nonEmpty frac) &&
      isOptExponentPart (dropWhile isDecimalDigit r)
  | r => nonEmpty int && isOptExponentPart r
  end.

Definition isStrDecimalLiteral (s : jsstring) : bool :=
  match s with
  | ("+" | "-") :: s' => isStrUnsignedDecimalLiteral s'
  | _ => isStrUnsignedDecimalLiteral s
  end.

(** NonDecimalIntegerLiteral: 0b, 0o or 0x (either case) and digits. *)
Definition isNonDecimalIntegerLiteral (s : jsstring) : bool :=
  match s with
  | "0" :: ("b" | "B") :: ds => nonEmpty ds && forallb isBinaryDigit ds
  | "0" :: ("o" | "O") :: ds => nonEmpty ds && forallb isOctalDigit ds
  | "0" :: ("x" | "X") :: ds => nonEmpty ds && forallb isHexDigit ds
  | _ => false
  end.

(** [isNaN(+s)] for a string [s]: unary plus is [ToNumber], which gives
    [NaN] exactly when the trimmed string is neither empty nor a
    StrNumericLiteral (the empty string converts to 0). *)
Definition isNaN_ToNumber (s : jsstring) : bool :=
  let t := trim s in
  negb (negb (nonEmpty t) || isStrDecimalLiteral t || isNonDecimalIntegerLiteral t).

(** A JavaScript number as far as this program looks at it: [NaN], or the
    number read from a decimal numeral.  The numeral is kept as text; its
    rounding to a 64-bit float is not modelled. *)
Inductive number : Type :=
| NaN
| Numeral (text : jsstring).

(** The optional exponent that [parseFloat] takes after the mantissa. *)
Definition exponentPrefix (s : jsstring) : jsstring :=
  match s with
  | e :: sg :: ds =>
      if (Ascii.eqb e "e" || Ascii.eqb e "E") then
        if (Ascii.eqb sg "+" || Ascii.eqb sg "-") then
          match takeWhile isDecimalDigit ds with
          | [] => []
          | digits => e :: sg :: digits
          end
        else
          match takeWhile isDecimalDigit (sg :: ds) with
          | [] => []
          | digits => e :: digits
          end
      else []
  | _ => []
  end.

(** The longest prefix of [s] that is a StrUnsignedDecimalLiteral. *)
Definition unsignedPrefix (s : jsstring) : option jsstring :=
  if jsstring_eqb (firstn 8 s) (str "Infinity") then Some (str "Infinity")
  else
    let int := takeWhile isDecimalDigit s in
    match dropWhile isDecimalDigit s with
    | "." :: r =>
        let frac := takeWhile isDecimalDigit r in
        if nonEmpty int || nonEmpty frac then
          Some (int ++ "." :: frac ++ exponentPrefix (dropWhile isDecimalDigit r))
        else None
    | r => if nonEmpty int then Some (int ++ exponentPrefix r) else None
    end.

(** [parseFloat(s)]: trims leading white space and reads the longest prefix
    that is a StrDecimalLiteral; [NaN] when there is none. *)
Definition parseFloat (s : jsstring) : number :=
  match trimStart s with
  | ("+" | "-") as sg :: s' =>
      match unsignedPrefix s' with
      | Some t => Numeral (sg :: t)
      | None => NaN
      end
  | t =>
      match unsignedPrefix t with
      | Some t' => Numeral t'
      | None => NaN
      end
  end.

End JSNumber.

(** ** Tokens *)

Inductive TokenType : Type :=
| EOF | PLUS | MINUS | MODULO | DIVIDE | MULTIPLY | LPAREN | RPAREN | NUMBER.

Definition TokenType_eqb (a b : TokenType) : bool :=
  match a, b with
  | EOF, EOF | PLUS, PLUS | MINUS, MINUS | MODULO, MODULO | DIVIDE, DIVIDE
  | MULTIPLY, MULTIPLY | LPAREN, LPAREN | RPAREN, RPAREN | NUMBER, NUMBER => true
  | _, _ => false
  end.

Record Token : Type := mkToken { type : TokenType; literal : jsstring }.

(** ** Failures

    The program throws plain [Error] objects at four places; each constructor
    is one [throw] statement and carries what its message interpolates. *)

Inductive Error : Type :=
| InvalidNumberToken (lit : jsstring)      (* Invalid NUMBER token "lit" *)
| ExpectedNumber (got : TokenType)        (* expected "NUMBER" but got "got" *)
| ExpectedOperator (got : TokenType)      (* expected operator but got "got" *)
| Expected (want got : TokenType).        (* expected "want" but got "got" *)

Inductive result (A : Type) : Type :=
| Ok (a : A)
| Throw (e : Error)
| OutOfFuel.

Arguments Ok {A} a.
Arguments Throw {A} e.
Arguments OutOfFuel {A}.

Definition bind {A B : Type} (m : result A) (k : A -> result B) : result B :=
  match m with
  | Ok a => k a
  | Throw e => Throw e
  | OutOfFuel => OutOfFuel
  end.

Notation "x <- m ;; k" := (bind m (fun x => k))
  (at level 61, m at next level, right associativity).
Notation "' p <- m ;; k" := (bind m (fun p => k))
  (at level 61, p pattern, m at next level, right associativity).

(** ** class Lexer *)

Module Lexer.

Record t : Type := mk {
  input : jsstring;
  _c : option ascii;
  _pos : nat;
  _next_pos : nat
}.

(** [next()] *)
Definition next (l : t) : t :=
  {| input := input l;
     _c := nth_error (input l) (_next_pos l);
     _pos := _next_pos l;
     _next_pos := S (_next_pos l) |}.

(** [peek()] *)
Definition peek (l : t) : option ascii := nth_error (input l) (_next_pos l).

(** [isWhitespace(ch)] *)
Definition isWhitespace (ch : option ascii) : bool :=
  match ch with
  | Some c => Ascii.eqb c " " || Ascii.eqb c "010" || Ascii.eqb c "009"
  | None => false
  end.

(** [isNumberComponent(ch)]; the comparisons with ['0'] and ['9'] are
    string comparisons of one code unit, and are false on [undefined]. *)
Definition isNumberComponent (ch : option ascii) : bool :=
  match ch with
  | Some c => Ascii.eqb c "." || ((code "0" <=? code c) && (code c <=? code "9"))%N
  | None => false
  end.

(** The loop of [eatWhitespace()], at most [fuel] iterations. *)
Fixpoint eatWhitespace_loop (fuel : nat) (l : t) : t :=
  match fuel with
  | O => l
  | S fuel' => if isWhitespace (_c l) then eatWhitespace_loop fuel' (next l) else l
  end.

(** [eatWhitespace()]: every iteration but the first reads a character of
    the input, so [length input + 1] iterations are never exceeded. *)
Definition eatWhitespace (l : t) : t :=
  eatWhitespace_loop (S (length (input l))) l.

(** The loop of [readNumber()]. *)
Fixpoint readNumber_loop (fuel : nat) (l : t) : t :=
  match fuel with
  | O => l
  | S fuel' => if isNumberComponent (peek l) then readNumber_loop fuel' (next l) else l
  end.

(** [readNumber()] *)
Definition readNumber (l : t) : jsstring * t :=
  let start := _pos l in
  let l' := readNumber_loop (length (input l)) l in
  (substring (input l') start (_pos l' + 1), l').

Definition isOperatorOrParen (c : ascii) : bool :=
  Ascii.eqb c "+" || Ascii.eqb c "-" || Ascii.eqb c "%" || Ascii.eqb c "/" ||
  Ascii.eqb c "*" || Ascii.eqb c "(" || Ascii.eqb c ")".

(** [readChar()]: the body of its [while] always returns, so the loop is a
    conditional; [None] is the [undefined] it returns when the guard
    fails. *)
Definition readChar (l : t) : option jsstring * t :=
  if (_next_pos l <=? length (input l))%nat then
    let l1 := eatWhitespace l in
    match _c l1 with
    | Some c =>
        if isOperatorOrParen c then (Some [c], l1)
        else let '(s, l2) := readNumber l1 in (Some s, l2)
    | None => let '(s, l2) := readNumber l1 in (Some s, l2)
    end
  else (None, l).

(** The [switch (literal)] of [nextToken()]: the token type of each of
    its seven cases. *)
Definition punctuator (s : jsstring) : option TokenType :=
  match s with
  | ["+"] => Some PLUS
  | ["-"] => Some MINUS
  | ["%"] => Some MODULO
  | ["/"] => Some DIVIDE
  | ["*"] => Some MULTIPLY
  | ["("] => Some LPAREN
  | [")"] => Some RPAREN
  | _ => None
  end.

(** [nextToken()] *)
Definition nextToken (l : t) : result (Token * t) :=
  let '(lit, l1) := readChar l in
  let l2 := next l1 in
  match lit with
  | Some s =>
      match punctuator s with
      | Some ty => Ok (mkToken ty s, l2)
      | None =>
          if JSNumber.isNaN_ToNumber s then Throw (InvalidNumberToken s)
          else Ok (mkToken NUMBER s, l2)
      end
  | None => Ok (mkToken EOF [], l2)
  end.

(** [new Lexer(input)]: the fields start at the empty string, 0 and 0, and the
    constructor calls [next()], which overwrites [_c] before anything reads
    it. *)
Definition new (s : jsstring) : t :=
  next {| input := s; _c := None; _pos := 0; _next_pos := 0 |}.

End Lexer.

(** ** Expressions *)

Inductive Expression : Type :=
| NumberExpression (token : Token) (value : JSNumber.number)
| PrefixExpression (token : Token) (op : jsstring) (rhs : Expression)
| InfixExpression (token : Token) (op : jsstring) (lhs rhs : Expression).

(** [print()], dispatched on the class of the node. *)
Fixpoint print (e : Expression) : jsstring :=
  match e with
  | NumberExpression token _ => literal token
  | PrefixExpression _ op rhs => "(" :: op ++ print rhs ++ [")"]
  | InfixExpression _ op lhs rhs =>
      "(" :: print lhs ++ " " :: op ++ " " :: print rhs ++ [")"]
  end.

(** ** class TokenPrecedence *)

Module TokenPrecedence.

Definition get (ty : TokenType) : Z :=
  match ty with
  | MODULO => 9
  | DIVIDE => 8
  | MULTIPLY => 7
  | EOF | LPAREN | RPAREN => -1
  | _ => 1
  end.

End TokenPrecedence.

(** ** class Parser *)

Module Parser.

Record t : Type := mk {
  lexer : Lexer.t;
  _token : Token;
  _next_token : Token
}.

(** [next()] *)
Definition next (st : t) : result t :=
  '(tok, l) <- Lexer.nextToken (lexer st) ;;
  Ok {| lexer := l; _token := _next_token st; _next_token := tok |}.

(** [new Parser(lexer)]: the two calls of [next()] load both pointers;
    before them the fields are unset, and nothing reads them. *)
Definition new (l : Lexer.t) : result t :=
  '(t1, l1) <- Lexer.nextToken l ;;
  '(t2, l2) <- Lexer.nextToken l1 ;;
  Ok {| lexer := l2; _token := t1; _next_token := t2 |}.

(** [expect(type)] *)
Definition expect (ty : TokenType) (st : t) : result t :=
  if TokenType_eqb (type (_next_token st)) ty then next st
  else Throw (Expected ty (type (_next_token st))).

Definition nextPrecedence (st : t) : Z :=
  TokenPrecedence.get (type (_next_token st)).

Definition currentPrecedence (st : t) : Z :=
  TokenPrecedence.get (type (_token st)).

(** The five token types that the two [switch] statements of [parse]
    list. *)
Definition isOperator (ty : TokenType) : bool :=
  match ty with
  | PLUS | MINUS | MODULO | DIVIDE | MULTIPLY => true
  | _ => false
  end.

(** [new NumberExpression(token)] *)
Definition NumberExpression_new (token : Token) : result Expression :=
  match type token with
  | NUMBER => Ok (NumberExpression token (JSNumber.parseFloat (literal token)))
  | ty => Throw (ExpectedNumber ty)
  end.

Section Constructors.

(** [parser.parse], as the constructors and [parseGroup] call it. *)
Variable parse : Z -> t -> result (Expression * t).

(** [new PrefixExpression(parser)] *)
Definition PrefixExpression_new (parser : t) : result (Expression * t) :=
  let token := _token parser in
  let op := literal token in
  let _precedence := currentPrecedence parser in
  parser1 <- next parser ;;
  '(rhs, parser2) <- parse _precedence parser1 ;;
  Ok (PrefixExpression token op rhs, parser2).

(** [new InfixExpression(lhs, parser)] *)
Definition InfixExpression_new (lhs : Expression) (parser : t)
  : result (Expression * t) :=
  let token := _token parser in
  let op := literal token in
  let _precedence := currentPrecedence parser in
  parser1 <- next parser ;;
  '(rhs, parser2) <- parse _precedence parser1 ;;
  Ok (InfixExpression token op lhs rhs, parser2).

(** [parseGroup()] *)
Definition parseGroup (st : t) : result (Expression * t) :=
  let _precedence := currentPrecedence st in
  st1 <- next st ;;
  '(e, st2) <- parse _precedence st1 ;;
  st3 <- expect RPAREN st2 ;;
  Ok (e, st3).

End Constructors.

(** [parse(p)] and its [while] loop.  [fuel] bounds the depth of calls and
    iterations; [OutOfFuel] is not an outcome of the program. *)
Fixpoint parse (fuel : nat) (p : Z) (st : t) {struct fuel}
  : result (Expression * t) :=
  match fuel with
  | O => OutOfFuel
  | S fuel' =>
      '(lhs, st1) <-
        (match type (_token st) with
         | LPAREN => parseGroup (parse fuel') st
         | PLUS | MINUS | MODULO | DIVIDE | MULTIPLY =>
             PrefixExpression_new (parse fuel') st
         | _ => lhs <- NumberExpression_new (_token st) ;; Ok (lhs, st)
         end) ;;
      parse_while fuel' p lhs st1
  end
with parse_while (fuel : nat) (p : Z) (lhs : Expression) (st : t) {struct fuel}
  : result (Expression * t) :=
  match fuel with
  | O => OutOfFuel
  | S fuel' =>
      if (p <? nextPrecedence st)%Z then
        st1 <- next st ;;
        match type (_token st1) with
        | PLUS | MINUS | MODULO | DIVIDE | MULTIPLY =>
            '(lhs', st2) <- InfixExpression_new (parse fuel') lhs st1 ;;
            parse_while fuel' p lhs' st2
        | ty => Throw (ExpectedOperator ty)
        end
      else Ok (lhs, st)
  end.

End Parser.

(** ** The program

    The script builds a lexer on a string, a parser on the lexer, calls
    [parse()] (so [p] is its default, 0) and prints the tree. *)

(** Fuel for [parse] on the input [s]: two units for each character and
    each of the two tokens the parser holds, and two more. *)
Definition fuelFor (s : jsstring) : nat := 2 * length s + 6.

Definition parseString (s : jsstring) : result Expression :=
  parser <- Parser.new (Lexer.new s) ;;
  '(exp, _) <- Parser.parse (fuelFor s) 0 parser ;;
  Ok exp.

Definition run (s : jsstring) : result jsstring :=
  exp <- parseString s ;;
  Ok (print exp).

(** ** Vocabulary of the statements *)

(** The three kinds of failure the design names, and the [throw] statements
    that belong to each: [expect] is only ever called with [RPAREN]. *)
Inductive Failure : Type :=
| InvalidNumberLiteral
| UnexpectedToken
| UnmatchedParenthesis.

Definition classify (e : Error) : Failure :=
  match e with
  | InvalidNumberToken _ => InvalidNumberLiteral
  | ExpectedNumber _ => UnexpectedToken
  | ExpectedOperator _ => UnexpectedToken
  | Expected RPAREN _ => UnmatchedParenthesis
  | Expected _ _ => UnexpectedToken
  end.

Definition failsWith {A : Type} (f : Failure) (r : result A) : Prop :=
  exists e, r = Throw e /\ classify e = f.

(** [emits l ts l']: called [length ts] times from state [l], [nextToken()]
    returns the tokens [ts] in order and leaves the lexer in state [l']. *)
Inductive emits : Lexer.t -> list Token -> Lexer.t -> Prop :=
| emits_nil : forall l, emits l [] l
| emits_cons : forall l t l1 ts l2,
    Lexer.nextToken l = Ok (t, l1) -> emits l1 ts l2 -> emits l (t :: ts) l2.

(** The leaf built from a NUMBER token. *)
Definition leaf (n : Token) : Expression :=
  NumberExpression n (JSNumber.parseFloat (literal n)).

(** The left-nested tree of a chain [n0 o1 n1 o2 n2 ...]. *)
Definition leftChain (n0 : Token) (ons : list (Token * Token)) : Expression :=
  fold_left (fun lhs on => InfixExpression (fst on) (literal (fst on)) lhs (leaf (snd on)))
            ons (leaf n0).

(** The tokens [o1 n1 o2 n2 ...] of the chain, in order. *)
Definition chainTokens (ons : list (Token * Token)) : list Token :=
  flat_map (fun on => [fst on; snd on]) ons.

(** The characters the lexer skips. *)
Definition allWhitespace (s : jsstring) : bool :=
  forallb (fun c => Lexer.isWhitespace (Some c)) s.

(** An input in which some [(] has no matching [)]: scanning left to right,
    the count of open parentheses is not back to zero at the end. *)
Fixpoint openParens (depth : nat) (s : jsstring) : nat :=
  match s with
  | [] => depth
  | "(" :: s' => openParens (S depth) s'
  | ")" :: s' => openParens (pred depth) s'
  | _ :: s' => openParens depth s'
  end.

Definition hasUnclosedParen (s : jsstring) : bool :=
  negb (openParens 0 s =? 0)%nat.

(** [ahead st ts l']: the tokens that follow the current one are [ts]: the
    first is the lookahead, the others are what the lexer emits next, and
    reading them all leaves the lexer in state [l']. *)
Definition ahead (st : Parser.t) (ts : list Token) (l' : Lexer.t) : Prop :=
  match ts with
  | t :: ts' => Parser._next_token st = t /\ emits (Parser.lexer st) ts' l'
  | [] => False
  end.

(** One link [o n] of a chain of operators of precedence [q]. *)
Definition chainLink (q : Z) (on : Token * Token) : Prop :=
  Parser.isOperator (type (fst on)) = true /\
  TokenPrecedence.get (type (fst on)) = q /\
  type (snd on) = NUMBER.

(** What is left to read: the characters from the lexer's cursor on, and
    the tokens other than EOF that the parser holds. *)
Definition remaining (l : Lexer.t) : nat :=
  S (length (Lexer.input l)) - Lexer._next_pos l.

Definition nonEOF (t : Token) : nat :=
  match type t with EOF => 0 | _ => 1 end.

Definition pending (st : Parser.t) : nat :=
  remaining (Parser.lexer st) + nonEOF (Parser._next_token st) + nonEOF (Parser._token st).

(** With [fuel] above twice what is left to read, [parse] and its loop end
    before the fuel does, and they leave no more to read than they found. *)
Definition terminates_within (fuel : nat) : Prop :=
  (forall p st,
      2 * pending st + 2 <= fuel ->
      Parser.parse fuel p st <> OutOfFuel /\
      forall e st', Parser.parse fuel p st = Ok (e, st') -> pending st' <= pending st) /\
  (forall p lhs st,
      2 * pending st + 1 <= fuel ->
      Parser.parse_while fuel p lhs st <> OutOfFuel /\
      forall e st', Parser.parse_while fuel p lhs st = Ok (e, st') -> pending st' <= pending st).

(** *** The lexer seen from the unread characters

    After any call of [next()] the lexer's cursor is consistent: [_next_pos]
    is one past [_pos] and [_c] is the character at [_pos].  What the next
    calls return then depends on the characters from [_pos] on only. *)
Definition cursorOk (l : Lexer.t) : Prop :=
  Lexer._next_pos l = S (Lexer._pos l) /\
  Lexer._c l = nth_error (Lexer.input l) (Lexer._pos l).

Definition unread (l : Lexer.t) : jsstring := skipn (Lexer._pos l) (Lexer.input l).

Definition isWhitespaceChar (c : ascii) : bool := Lexer.isWhitespace (Some c).

Definition isNumberChar (c : ascii) : bool := Lexer.isNumberComponent (Some c).

(** What [nextToken()] returns, and the characters it leaves unread, as a
    function of the unread characters [w]; [nextToken_scan] proves that this
    is what the code does. *)
Definition scan (w : jsstring) : result (Token * jsstring) :=
  match w with
  | [] => Ok (mkToken EOF [], [])
  | _ :: _ =>
      match JSNumber.dropWhile isWhitespaceChar w with
      | [] => Ok (mkToken NUMBER [], [])
      | c :: w' =>
          match Lexer.punctuator [c] with
          | Some ty => Ok (mkToken ty [c], w')
          | None =>
              let lit := c :: JSNumber.takeWhile isNumberChar w' in
              if JSNumber.isNaN_ToNumber lit then Throw (InvalidNumberToken lit)
              else Ok (mkToken NUMBER lit, JSNumber.dropWhile isNumberChar w')
          end
      end
  end.

(** The lexer on input [inp] with a consistent cursor at [pos]. *)
Definition at_pos (inp : jsstring) (pos : nat) : Lexer.t :=
  Lexer.mk inp (nth_error inp pos) pos (S pos).

(** *** Trees, as token sequences *)

Definition LP : Token := mkToken LPAREN ["("].
Definition RP : Token := mkToken RPAREN [")"].

(** The tokens of the output of [print()], in order. *)
Fixpoint tokensOf (e : Expression) : list Token :=
  match e with
  | NumberExpression n _ => [n]
  | PrefixExpression tok _ rhs => LP :: tok :: tokensOf rhs ++ [RP]
  | InfixExpression tok _ lhs rhs => LP :: tokensOf lhs ++ tok :: tokensOf rhs ++ [RP]
  end.

Definition firstToken (e : Expression) : Token :=
  match e with
  | NumberExpression n _ => n
  | _ => LP
  end.

Definition restTokens (e : Expression) : list Token :=
  match e with
  | NumberExpression _ _ => []
  | PrefixExpression tok _ rhs => tok :: tokensOf rhs ++ [RP]
  | InfixExpression tok _ lhs rhs => tokensOf lhs ++ tok :: tokensOf rhs ++ [RP]
  end.

(** What the constructors establish: a leaf holds a NUMBER token and the
    [parseFloat] of its literal, an inner node holds an operator token and
    its literal as [op]. *)
Fixpoint wellBuilt (e : Expression) : Prop :=
  match e with
  | NumberExpression n v => type n = NUMBER /\ v = JSNumber.parseFloat (literal n)
  | PrefixExpression tok op rhs =>
      Parser.isOperator (type tok) = true /\ op = literal tok /\ wellBuilt rhs
  | InfixExpression tok op lhs rhs =>
      Parser.isOperator (type tok) = true /\ op = literal tok /\
      wellBuilt lhs /\ wellBuilt rhs
  end.

Fixpoint height (e : Expression) : nat :=
  match e with
  | NumberExpression _ _ => 0
  | PrefixExpression _ _ rhs => S (height rhs)
  | InfixExpression _ _ lhs rhs => S (Nat.max (height lhs) (height rhs))
  end.

(** *** Tokens and trees that come out of the lexer *)

(** A NUMBER literal as [readNumber()] cuts it from the input when a
    character is left: one character that is neither white space nor an
    operator or parenthesis, then digits and dots, and the whole accepted by
    the validation. *)
Definition scannedNumber (lit : jsstring) : bool :=
  match lit with
  | [] => false
  | c :: run =>
      negb (isWhitespaceChar c) &&
      match Lexer.punctuator [c] with Some _ => false | None => true end &&
      forallb isNumberChar run &&
      negb (JSNumber.isNaN_ToNumber lit)
  end.

(** What holds of every token that [nextToken()] returns. *)
Definition scanned (t : Token) : Prop :=
  match type t with
  | EOF => True
  | NUMBER => literal t = [] \/ scannedNumber (literal t) = true
  | _ => Lexer.punctuator (literal t) = Some (type t)
  end.

Fixpoint scannedTree (e : Expression) : Prop :=
  match e with
  | NumberExpression n _ => scanned n
  | PrefixExpression tok _ rhs => scanned tok /\ scannedTree rhs
  | InfixExpression tok _ lhs rhs => scanned tok /\ scannedTree lhs /\ scannedTree rhs
  end.

(** No leaf of the tree has an empty literal. *)
Fixpoint noEmptyLiteral (e : Expression) : Prop :=
  match e with
  | NumberExpression n _ => literal n <> []
  | PrefixExpression _ _ rhs => noEmptyLiteral rhs
  | InfixExpression _ _ lhs rhs => noEmptyLiteral lhs /\ noEmptyLiteral rhs
  end.

Definition stateOk (st : Parser.t) : Prop :=
  cursorOk (Parser.lexer st) /\ scanned (Parser._token st) /\ scanned (Parser._next_token st).

(** Text that can follow a number without extending it. *)
Definition boundary (r : jsstring) : Prop :=
  match r with
  | [] => True
  | c :: _ => isNumberChar c = false
  end.

(** A tree whose tokens can be read back from its print: its leaves are
    numbers as the lexer cuts them and its operators are operator
    characters. *)
Fixpoint printable (e : Expression) : Prop :=
  match e with
  | NumberExpression n _ => scannedNumber (literal n) = true
  | PrefixExpression tok _ rhs =>
      Lexer.punctuator (literal tok) = Some (type tok) /\ printable rhs
  | InfixExpression tok _ lhs rhs =>
      Lexer.punctuator (literal tok) = Some (type tok) /\ printable lhs /\ printable rhs
  end.

(** With [fuel], [parse] and its loop turn scanned tokens into trees that
    are built as the constructors build them, from scanned tokens. *)
Definition builds_well (fuel : nat) : Prop :=
  (forall p st e st',
      stateOk st -> Parser.parse fuel p st = Ok (e, st') ->
      (wellBuilt e /\ scannedTree e) /\ stateOk st') /\
  (forall p lhs st e st',
      stateOk st -> wellBuilt lhs /\ scannedTree lhs ->
      Parser.parse_while fuel p lhs st = Ok (e, st') ->
      (wellBuilt e /\ scannedTree e) /\ stateOk st').

(** The node built from an operator token and two operands. *)
Definition node (o : Token) (l r : Expression) : Expression :=
  InfixExpression o (literal o) l r.

(** *** Inputs that lex alike *)

(** [sameScan w1 w2]: read as unread characters, [w1] and [w2] give the
    same tokens, one after the other, until they are equal or the lexer
    throws on both. *)
Inductive sameScan : jsstring -> jsstring -> Prop :=
| sameScan_refl : forall w, sameScan w w
| sameScan_token : forall w1 w2 t r1 r2,
    scan w1 = Ok (t, r1) -> scan w2 = Ok (t, r2) -> sameScan r1 r2 ->
    sameScan w1 w2
| sameScan_throw : forall w1 w2 e,
    scan w1 = Throw e -> scan w2 = Throw e -> sameScan w1 w2.

(** Two parser states that hold the same tokens over lexers that will give
    the same tokens. *)
Definition similar (st1 st2 : Parser.t) : Prop :=
  Parser._token st1 = Parser._token st2 /\
  Parser._next_token st1 = Parser._next_token st2 /\
  cursorOk (Parser.lexer st1) /\ cursorOk (Parser.lexer st2) /\
  sameScan (unread (Parser.lexer st1)) (unread (Parser.lexer st2)).

(** Two outcomes that are the same up to a relation on what is returned. *)
Definition agree {A : Type} (R : A -> A -> Prop) (r1 r2 : result A) : Prop :=
  match r1, r2 with
  | Ok a1, Ok a2 => R a1 a2
  | Throw e1, Throw e2 => e1 = e2
  | OutOfFuel, OutOfFuel => True
  | _, _ => False
  end.

Definition sameTree (x y : Expression * Parser.t) : Prop :=
  fst x = fst y /\ similar (snd x) (snd y).

Definition simulates (fuel : nat) : Prop :=
  (forall p st1 st2,
      similar st1 st2 ->
      agree sameTree (Parser.parse fuel p st1) (Parser.parse fuel p st2)) /\
  (forall p lhs st1 st2,
      similar st1 st2 ->
      agree sameTree (Parser.parse_while fuel p lhs st1) (Parser.parse_while fuel p lhs st2)).

(** [reaches w b]: after some tokens read from the unread characters [w],
    none of them with an empty literal, the unread characters are [b]; so
    [b] starts where a token of [w] ends. *)
Inductive reaches : jsstring -> jsstring -> Prop :=
| reaches_here : forall w, reaches w w
| reaches_next : forall w t r b,
    scan w = Ok (t, r) -> literal t <> [] -> reaches r b -> reaches w b.

(** *** Chains of operators of falling and of rising precedence *)

(** A chain [o1 n1 o2 n2 ...] of operators above [p], none of a higher
    precedence than the one before it; the first is at most [q]. *)
Fixpoint falling (p q : Z) (ons : list (Token * Token)) : Prop :=
  match ons with
  | [] => True
  | on :: rest =>
      Parser.isOperator (type (fst on)) = true /\ type (snd on) = NUMBER /\
      (p < TokenPrecedence.get (type (fst on)) <= q)%Z /\
      falling p (TokenPrecedence.get (type (fst on))) rest
  end.

(** A chain of operators each of a higher precedence than the one before
    it; the first is above [p]. *)
Fixpoint rising (p : Z) (ons : list (Token * Token)) : Prop :=
  match ons with
  | [] => True
  | on :: rest =>
      Parser.isOperator (type (fst on)) = true /\ type (snd on) = NUMBER /\
      (p < TokenPrecedence.get (type (fst on)))%Z /\
      rising (TokenPrecedence.get (type (fst on))) rest
  end.

(** The right-nested tree of a chain [n0 o1 n1 o2 n2 ...]. *)
Fixpoint rightChain (n0 : Token) (ons : list (Token * Token)) : Expression :=
  match ons with
  | [] => leaf n0
  | on :: rest => node (fst on) (leaf n0) (rightChain (snd on) rest)
  end.

(** The tree of the prefix operators [o1 o2 ...] applied to the number
    [n]. *)
Definition prefixChain (ops : list Token) (n : Token) : Expression :=
  fold_right (fun o e => PrefixExpression o (literal o) e) (leaf n) ops.

(** The tokens other than EOF among [ts]. *)
Definition countNonEOF (ts : list Token) : nat := list_sum (map nonEOF ts).

(** * recursive_descent.js and the precedence sketch

    Two earlier parsers of the repository share one lexer, in which every
    character that is not white space is a token of its own.

    - [RecursiveDescent] embeds [src/recursive_descent.js].
    - [PrecedenceSketch] embeds the source file whose name is not recorded
      ([src/unnamed/part_000]); its [Token], [TokenType] and [Lexer] classes
      have the text of those of [recursive_descent.js], and are taken from
      [RecursiveDescent].
    - A field that can hold [null] or [undefined] is an [option]; the program
      never tells the two apart.  Reading a property of [null] or
      [undefined] is the [TypeError] outcome. *)

Module RecursiveDescent.

Inductive TokenType : Type :=
| PLUS | MINUS | DIVIDE | MODULO | MULTIPLY | NUMBER.

Definition TokenType_eqb (a b : TokenType) : bool :=
  match a, b with
  | PLUS, PLUS | MINUS, MINUS | DIVIDE, DIVIDE | MODULO, MODULO
  | MULTIPLY, MULTIPLY | NUMBER, NUMBER => true
  | _, _ => false
  end.

(** [literal] is the lexer's [ch]: one character, or [undefined]. *)
Record Token : Type := mkToken { type : TokenType; literal : option ascii }.

Inductive Exception : Type :=
| UnableToParse (ty : TokenType) (lit : option ascii)  (* Unable to parse ty -> lit *)
| TypeError.                       (* a property read of null or undefined *)

Inductive outcome (A : Type) : Type :=
| Returns (a : A)
| Throws (e : Exception)
| NoFuel.

Arguments Returns {A} a.
Arguments Throws {A} e.
Arguments NoFuel {A}.

Definition andThen {A B : Type} (m : outcome A) (k : A -> outcome B) : outcome B :=
  match m with
  | Returns a => k a
  | Throws e => Throws e
  | NoFuel => NoFuel
  end.

Declare Scope outcome_scope.
Delimit Scope outcome_scope with outcome.

Notation "x <- m ;; k" := (andThen m (fun x => k))
  (at level 61, m at next level, right associativity) : outcome_scope.
Notation "' p <- m ;; k" := (andThen m (fun p => k))
  (at level 61, p pattern, m at next level, right associativity) : outcome_scope.

Local Open Scope outcome_scope.

(** [o.field] for an [o] that may be [null] or [undefined]. *)
Definition deref {A : Type} (o : option A) : outcome A :=
  match o with
  | Some a => Returns a
  | None => Throws TypeError
  end.

(** A value interpolated in a template literal: [undefined] becomes the
    text [undefined]. *)
Definition template (v : option jsstring) : jsstring :=
  match v with
  | Some s => s
  | None => str "undefined"
  end.

(** [token.literal] as a JavaScript value: a string of one character, or
    [undefined]. *)
Definition literal_value (t : Token) : option jsstring :=
  match literal t with
  | Some c => Some [c]
  | None => None
  end.

(** *** class Lexer *)

Module Lexer.

Record t : Type := mk {
  input : jsstring;
  ch : option ascii;
  pos : nat;
  next_pos : nat
}.

(** [new Lexer(input)]; [ch] is declared and not initialised. *)
Definition new (s : jsstring) : t :=
  {| input := s; ch := None; pos := 0; next_pos := 0 |}.

(** The object [token_types], looked up at a string of one character. *)
Definition token_types (c : ascii) : option TokenType :=
  match c with
  | "+" => Some PLUS
  | "-" => Some MINUS
  | "/" => Some DIVIDE
  | "%" => Some MODULO
  | "*" => Some MULTIPLY
  | _ => None
  end.

(** [read_char()] *)
Definition read_char (l : t) : t :=
  {| input := input l;
     ch := nth_error (input l) (next_pos l);
     pos := next_pos l;
     next_pos := S (next_pos l) |}.

(** The guard of [eat_whitespace()], [this.ch?.trim() == '']: on
    [undefined] the optional call gives [undefined], which is not loosely
    equal to the empty string; a string of one character trims to the empty
    string when the character is white space or a line terminator. *)
Definition trims_to_empty (ch : option ascii) : bool :=
  match ch with
  | Some c => JSNumber.isStrWhiteSpaceChar c
  | None => false
  end.

(** The loop of [eat_whitespace()], at most [fuel] iterations. *)
Fixpoint eat_whitespace_loop (fuel : nat) (l : t) : t :=
  match fuel with
  | O => l
  | S fuel' => if trims_to_empty (ch l) then eat_whitespace_loop fuel' (read_char l) else l
  end.

(** [eat_whitespace()]: every iteration reads one more character, and after
    [length input + 1] of them [ch] is [undefined]; called after
    [read_char()], the loop stops at the first character that is not white
    space ([eat_whitespace_cursor]). *)
Definition eat_whitespace (l : t) : t :=
  eat_whitespace_loop (S (length (input l))) l.

(** [this.token_types[this.ch] ?? TokenType.NUMBER] *)
Definition type_of (ch : option ascii) : TokenType :=
  match ch with
  | Some c =>
      match token_types c with
      | Some ty => ty
      | None => NUMBER
      end
  | None => NUMBER
  end.

(** [next_token()]; [None] is the [null] it returns at the end. *)
Definition next_token (l : t) : option Token * t :=
  if (length (input l) <=? next_pos l)%nat then (None, l)
  else
    let l1 := eat_whitespace (read_char l) in
    (Some (mkToken (type_of (ch l1)) (ch l1)), l1).

End Lexer.

(** *** The expression classes of recursive_descent.js *)

Inductive Expression : Type :=
| NumberExpression (token : option Token)
| PrefixExpression (token : option Token) (right : Expression)
| InfixExpression (token : option Token) (left right : Expression)
| NullExpression.

(** [print()], dispatched on the class of the node.  What it returns is a
    string or, from a number whose literal is [undefined], [undefined]. *)
Fixpoint print (e : Expression) : outcome (option jsstring) :=
  match e with
  | NumberExpression token =>
      t <- deref token ;;
      Returns (literal_value t)
  | PrefixExpression token right_ =>
      t <- deref token ;;
      r <- print right_ ;;
      Returns (Some (template (literal_value t) ++ " " :: template r))
  | InfixExpression token left_ right_ =>
      l <- print left_ ;;
      t <- deref token ;;
      r <- print right_ ;;
      Returns (Some ("(" :: template l ++ " " :: template (literal_value t) ++
                     " " :: template r ++ [")"]))
  | NullExpression => Returns (Some [])
  end.

(** *** class Parser of recursive_descent.js *)

Module Parser.

Record t : Type := mk {
  lexer : Lexer.t;
  token : option Token;
  next_token : option Token
}.

(** [move_pointer()] *)
Definition move_pointer (parser : t) : t :=
  let '(tok, l) := Lexer.next_token (lexer parser) in
  {| lexer := l; token := next_token parser; next_token := tok |}.

(** [new Parser(lexer)]: both fields are declared and not initialised. *)
Definition new (l : Lexer.t) : t :=
  move_pointer {| lexer := l; token := None; next_token := None |}.

(** [new NumberExpression(parser)] *)
Definition NumberExpression_new (parser : t) : Expression :=
  NumberExpression (token parser).

Section Constructors.

(** [parser.parse_expression], as the constructors call it. *)
Variable parse_expression : t -> outcome (Expression * t).

(** [new PrefixExpression(parser)] *)
Definition PrefixExpression_new (parser : t) : outcome (Expression * t) :=
  let tok := token parser in
  '(right_, parser1) <- parse_expression parser ;;
  Returns (PrefixExpression tok right_, parser1).

(** [new InfixExpression(parser)] *)
Definition InfixExpression_new (parser : t) : outcome (Expression * t) :=
  let left := NumberExpression_new parser in
  let parser1 := move_pointer parser in
  let tok := token parser1 in
  '(right_, parser2) <- parse_expression parser1 ;;
  Returns (InfixExpression tok left right_, parser2).

End Constructors.

(** [parse_expression()].  Every token type is a non-empty string, so
    [this.token?.type] is truthy when there is a token; [fuel] bounds the
    depth of the calls, and [NoFuel] is not an outcome of the program. *)
Fixpoint parse_expression (fuel : nat) (parser : t) {struct fuel}
  : outcome (Expression * t) :=
  match fuel with
  | O => NoFuel
  | S fuel' =>
      let parser1 := move_pointer parser in
      match token parser1 with
      | None => Returns (NullExpression, parser1)
      | Some tok =>
          if TokenType_eqb (type tok) NUMBER then
            let possible_infix :=
              match next_token parser1 with
              | Some nt => negb (TokenType_eqb (type nt) NUMBER)
              | None => false
              end in
            if possible_infix then InfixExpression_new (parse_expression fuel') parser1
            else Returns (NumberExpression_new parser1, parser1)
          else
            let is_operator := negb (TokenType_eqb (type tok) NUMBER) in
            if is_operator then PrefixExpression_new (parse_expression fuel') parser1
            else Throws (UnableToParse (type tok) (literal tok))
      end
  end.

End Parser.

(** The script: a lexer on the input, a parser on the lexer, one call of
    [parse_expression()], and the print of the tree.  One call for each
    character and two more are never exceeded
    ([descent_returns]). *)
Definition parseString (s : jsstring) : outcome Expression :=
  '(e, _) <- Parser.parse_expression (length s + 2) (Parser.new (Lexer.new s)) ;;
  Returns e.

Definition run (s : jsstring) : outcome (option jsstring) :=
  e <- parseString s ;;
  print e.

End RecursiveDescent.

Module PrecedenceSketch.

Import RecursiveDescent.
Local Open Scope outcome_scope.

(** *** class TokenPrecedence *)

Module TokenPrecedence.

(** [get(token)]: the [switch] lists all six token types, so the
    [return 0] after it is not reached. *)
Definition get (token : Token) : Z :=
  match type token with
  | PLUS | MINUS | NUMBER => 0
  | DIVIDE | MODULO | MULTIPLY => 1
  end.

End TokenPrecedence.

(** *** The expression classes of the sketch *)

Inductive Expression : Type :=
| NumberExpression (token : option Token)
| InfixExpression (token : option Token) (left right : Expression)
| NullExpression.

Fixpoint print (e : Expression) : outcome (option jsstring) :=
  match e with
  | NumberExpression token =>
      t <- deref token ;;
      Returns (literal_value t)
  | InfixExpression token left_ right_ =>
      l <- print left_ ;;
      t <- deref token ;;
      r <- print right_ ;;
      Returns (Some ("(" :: template l ++ " " :: template (literal_value t) ++
                     " " :: template r ++ [")"]))
  | NullExpression => Returns (Some [])
  end.

(** *** class Parser of the sketch *)

Module Parser.

Record t : Type := mk {
  lexer : Lexer.t;
  token : option Token;
  next_token : option Token
}.

(** [move_pointer()] *)
Definition move_pointer (parser : t) : t :=
  let '(tok, l) := Lexer.next_token (lexer parser) in
  {| lexer := l; token := next_token parser; next_token := tok |}.

(** [new Parser(lexer)] *)
Definition new (l : Lexer.t) : t :=
  move_pointer {| lexer := l; token := None; next_token := None |}.

(** [parse_primary()] *)
Definition parse_primary (parser : t) : Expression :=
  NumberExpression (token parser).

(** [parse_expression_w_precedence(left, precedence)]: [climb] is the outer
    [while] loop and [operand] the inner one, which extends [right] while
    the lookahead binds tighter than [operator].  [fuel] bounds calls and
    iterations. *)
Fixpoint climb (fuel : nat) (left : Expression) (precedence : Z) (parser : t)
  {struct fuel} : outcome (Expression * t) :=
  match fuel with
  | O => NoFuel
  | S fuel' =>
      match next_token parser with
      | Some nt =>
          if (precedence <=? TokenPrecedence.get nt)%Z then
            let parser1 := move_pointer parser in
            let operator := token parser1 in
            let parser2 := move_pointer parser1 in
            let right := parse_primary parser2 in
            '(right', parser3) <- operand fuel' right operator parser2 ;;
            climb fuel' (InfixExpression operator left right') precedence parser3
          else Returns (left, parser)
      | None => Returns (left, parser)
      end
  end
with operand (fuel : nat) (right : Expression) (operator : option Token) (parser : t)
  {struct fuel} : outcome (Expression * t) :=
  match fuel with
  | O => NoFuel
  | S fuel' =>
      match next_token parser with
      | Some nt =>
          op <- deref operator ;;
          if (TokenPrecedence.get op <? TokenPrecedence.get nt)%Z then
            '(right', parser1) <- climb fuel' right (TokenPrecedence.get nt) parser ;;
            operand fuel' right' operator parser1
          else Returns (right, parser)
      | None => Returns (right, parser)
      end
  end.

Definition parse_expression_w_precedence := climb.

(** [parse_expression()] *)
Definition parse_expression (fuel : nat) (parser : t) : outcome (Expression * t) :=
  let parser1 := move_pointer parser in
  parse_expression_w_precedence fuel (parse_primary parser1) 0 parser1.

End Parser.

(** The script of the sketch; the fuel is enough ([climb_returns]). *)
Definition parseString (s : jsstring) : outcome Expression :=
  '(e, _) <- Parser.parse_expression (2 * length s + 2) (Parser.new (Lexer.new s)) ;;
  Returns e.

Definition run (s : jsstring) : outcome (option jsstring) :=
  e <- parseString s ;;
  print e.

End PrecedenceSketch.

(** *** Vocabulary for the one-character lexer and its two parsers *)

Section OneCharacterVocabulary.

Import RecursiveDescent.

(** [yields l ts]: called again and again from state [l], [next_token()]
    returns the tokens [ts] in order, and then [null]. *)
Inductive yields : Lexer.t -> list Token -> Prop :=
| yields_null : forall l, fst (Lexer.next_token l) = None -> yields l []
| yields_token : forall l t l1 ts,
    Lexer.next_token l = (Some t, l1) -> yields l1 ts -> yields l (t :: ts).

(** The token of a character that is not white space. *)
Definition token_of (c : ascii) : Token :=
  mkToken (Lexer.type_of (Some c)) (Some c).

(** The token the lexer makes of white space at the end of the input: the
    cursor has run off the end, and [ch] is [undefined]. *)
Definition phantom : Token := mkToken NUMBER None.

Fixpoint ends_blank (s : jsstring) : bool :=
  match s with
  | [] => false
  | c :: s' =>
      match s' with
      | [] => JSNumber.isStrWhiteSpaceChar c
      | _ :: _ => ends_blank s'
      end
  end.

(** The tokens of an input, read off its characters: one for each character
    that is not white space, and one more when the input ends in white
    space. *)
Definition lexed (s : jsstring) : list Token :=
  map token_of (filter (fun c => negb (JSNumber.isStrWhiteSpaceChar c)) s) ++
  (if ends_blank s then [phantom] else []).

(** [upcoming nt l ts]: the lookahead [nt] and then the lexer [l] give the
    tokens [ts], and after them [null]. *)
Definition upcoming (nt : option Token) (l : Lexer.t) (ts : list Token) : Prop :=
  match ts with
  | [] => nt = None /\ yields l []
  | t :: ts' => nt = Some t /\ yields l ts'
  end.

(** The lexer with a consistent cursor at [pos], as [read_char()] leaves
    it. *)
Definition cursor (inp : jsstring) (pos : nat) : Lexer.t :=
  Lexer.mk inp (nth_error inp pos) pos (S pos).

(** What is left to read from a lexer and a lookahead. *)
Definition unreadChars (l : Lexer.t) : nat :=
  length (Lexer.input l) - Lexer.next_pos l.

Definition held (nt : option Token) : nat :=
  match nt with Some _ => 1 | None => 0 end.

Definition present (nt : option Token) : bool :=
  match nt with Some _ => true | None => false end.

(** The tokens [o1 n1 o2 n2 ...] of a list of pairs, in order. *)
Definition pairTokens (ons : list (Token * Token)) : list Token :=
  flat_map (fun on => [fst on; snd on]) ons.

(** What is left to read by a parser: the characters the lexer has not
    passed, and the lookahead. *)
Definition descentPending (p : Parser.t) : nat :=
  unreadChars (Parser.lexer p) + held (Parser.next_token p).

(** Every node of the tree holds a token. *)
Fixpoint descentComplete (e : Expression) : bool :=
  match e with
  | NumberExpression tok => present tok
  | PrefixExpression tok r => present tok && descentComplete r
  | InfixExpression tok l r => present tok && descentComplete l && descentComplete r
  | NullExpression => true
  end.

(** The right-nested tree [(n0 o1 (n1 o2 (n2 ...)))] of
    recursive_descent.js. *)
Fixpoint rightNest (n0 : Token) (ons : list (Token * Token)) : Expression :=
  match ons with
  | [] => NumberExpression (Some n0)
  | on :: rest =>
      InfixExpression (Some (fst on)) (NumberExpression (Some n0))
                      (rightNest (snd on) rest)
  end.

(** Tokens at which the descent stops after a number: none, or a number. *)
Definition numberAhead (rest : list Token) : Prop :=
  match rest with
  | [] => True
  | t :: _ => type t = NUMBER
  end.

End OneCharacterVocabulary.

Section SketchVocabulary.

Import RecursiveDescent PrecedenceSketch.

Definition sketchPending (p : Parser.t) : nat :=
  unreadChars (Parser.lexer p) + held (Parser.next_token p).

(** The tokens that the parser of the sketch has ahead of it. *)
Definition sketchAhead (p : Parser.t) (ts : list Token) : Prop :=
  upcoming (Parser.next_token p) (Parser.lexer p) ts.

(** Every node of the tree holds a token. *)
Fixpoint sketchComplete (e : Expression) : bool :=
  match e with
  | NumberExpression tok => present tok
  | InfixExpression tok l r => present tok && sketchComplete l && sketchComplete r
  | NullExpression => true
  end.

(** The left-nested tree of the operand [acc] and the pairs
    [o1 n1 o2 n2 ...]. *)
Definition leftNest (acc : Expression) (ons : list (Token * Token)) : Expression :=
  fold_left (fun acc on => InfixExpression (Some (fst on)) acc (NumberExpression (Some (snd on))))
            ons acc.

(** A product [t h1 t1 h2 t2 ...]. *)
Definition product (t : Token) (prods : list (Token * Token)) : Expression :=
  leftNest (NumberExpression (Some t)) prods.

(** A sum of products: the first product, and then operators each with
    the product that follows it. *)
Definition sumOfProducts (t0 : Token) (prods0 : list (Token * Token))
           (groups : list (Token * Token * list (Token * Token))) : Expression :=
  fold_left (fun acc g => InfixExpression (Some (fst (fst g))) acc
                            (product (snd (fst g)) (snd g)))
            groups (product t0 prods0).

Definition groupTokens (g : Token * Token * list (Token * Token)) : list Token :=
  fst (fst g) :: snd (fst g) :: pairTokens (snd g).

(** The operators of a product are of the higher of the two precedences,
    the operator before a product of the lower. *)
Definition isProduct (prods : list (Token * Token)) : Prop :=
  Forall (fun on => TokenPrecedence.get (fst on) = 1%Z) prods.

Definition isGroup (g : Token * Token * list (Token * Token)) : Prop :=
  TokenPrecedence.get (fst (fst g)) = 0%Z /\ isProduct (snd g).

(** Tokens at which a product ends: none, or an operator of the lower
    precedence. *)
Definition lowAhead (rest : list Token) : Prop :=
  match rest with
  | [] => True
  | t :: _ => TokenPrecedence.get t = 0%Z
  end.

(** With enough fuel, and with any more, the computation returns [x]. *)
Definition settles {A : Type} (f : nat -> outcome A) (x : A) : Prop :=
  exists n, forall fuel, n <= fuel -> f fuel = Returns x.

End SketchVocabulary.

(** ** Theorems *)

(** *** Unfolding equations *)

Lemma bind_ext {A B : Type} (m : result A) (k1 k2 : A -> result B) :
  (forall a, k1 a = k2 a) -> bind m k1 = bind m k2.
Proof. intros H. destruct m; simpl; auto. Qed.

Lemma parse_S fuel p st :
  Parser.parse (S fuel) p st =
  ('(lhs, st1) <-
     (match type (Parser._token st) with
      | LPAREN => Parser.parseGroup (Parser.parse fuel) st
      | PLUS | MINUS | MODULO | DIVIDE | MULTIPLY =>
          Parser.PrefixExpression_new (Parser.parse fuel) st
      | _ => lhs <- Parser.NumberExpression_new (Parser._token st) ;; Ok (lhs, st)
      end) ;;
   Parser.parse_while fuel p lhs st1).
Proof. reflexivity. Qed.

Lemma parse_while_S fuel p lhs st :
  Parser.parse_while (S fuel) p lhs st =
  if (p <? Parser.nextPrecedence st)%Z then
    st1 <- Parser.next st ;;
    if Parser.isOperator (type (Parser._token st1)) then
      '(lhs', st2) <- Parser.InfixExpression_new (Parser.parse fuel) lhs st1 ;;
      Parser.parse_while fuel p lhs' st2
    else Throw (ExpectedOperator (type (Parser._token st1)))
  else Ok (lhs, st).
Proof.
  simpl. destruct (p <? Parser.nextPrecedence st)%Z; [|reflexivity].
  apply bind_ext. intros st1. destruct (type (Parser._token st1)); reflexivity.
Qed.

Lemma parse_operator fuel p st :
  Parser.isOperator (type (Parser._token st)) = true ->
  Parser.parse (S fuel) p st =
  ('(lhs, st1) <- Parser.PrefixExpression_new (Parser.parse fuel) st ;;
   Parser.parse_while fuel p lhs st1).
Proof.
  intros H. rewrite parse_S. destruct (type (Parser._token st)); try discriminate; reflexivity.
Qed.

Lemma parse_number fuel p st :
  type (Parser._token st) = NUMBER ->
  Parser.parse (S fuel) p st =
  Parser.parse_while fuel p (leaf (Parser._token st)) st.
Proof.
  intros H. rewrite parse_S. unfold Parser.NumberExpression_new. rewrite H. reflexivity.
Qed.

Arguments Parser.parse : simpl never.
Arguments Parser.parse_while : simpl never.

(** *** Precedence thresholds *)

Lemma precedence_values ty :
  let q := TokenPrecedence.get ty in
  (q = -1 \/ q = 1 \/ q = 7 \/ q = 8 \/ q = 9)%Z.
Proof. destruct ty; simpl; auto. Qed.

Lemma operator_precedence_positive ty :
  Parser.isOperator ty = true -> (1 <= TokenPrecedence.get ty)%Z.
Proof. destruct ty; simpl; intros; try discriminate; lia. Qed.

Lemma threshold_minus_one_is_zero ty :
  (-1 <? TokenPrecedence.get ty)%Z = (0 <? TokenPrecedence.get ty)%Z.
Proof. destruct ty; reflexivity. Qed.

Lemma parse_while_threshold fuel lhs st :
  Parser.parse_while fuel (-1) lhs st = Parser.parse_while fuel 0 lhs st.
Proof.
  revert lhs st. induction fuel as [|fuel IH]; intros lhs st; [reflexivity|].
  rewrite !parse_while_S. unfold Parser.nextPrecedence.
  rewrite threshold_minus_one_is_zero.
  destruct (0 <? _)%Z; [|reflexivity].
  apply bind_ext. intros st1.
  destruct (Parser.isOperator _); [|reflexivity].
  apply bind_ext. intros [lhs' st2]. apply IH.
Qed.

Lemma parse_threshold fuel st :
  Parser.parse fuel (-1) st = Parser.parse fuel 0 st.
Proof.
  destruct fuel as [|fuel]; [reflexivity|].
  rewrite !parse_S. apply bind_ext. intros [lhs st1]. apply parse_while_threshold.
Qed.

Lemma parse_lparen fuel p st :
  type (Parser._token st) = LPAREN ->
  Parser.parse (S fuel) p st =
  (st1 <- Parser.next st ;;
   '(e, st2) <- Parser.parse fuel 0 st1 ;;
   st3 <- Parser.expect RPAREN st2 ;;
   Parser.parse_while fuel p e st3).
Proof.
  intros H. rewrite parse_S, H.
  unfold Parser.parseGroup, Parser.currentPrecedence. rewrite H. simpl TokenPrecedence.get.
  destruct (Parser.next st) as [st1| |]; simpl; try reflexivity.
  rewrite parse_threshold.
  destruct (Parser.parse fuel 0 st1) as [[e st2]| |]; simpl; try reflexivity.
  destruct (Parser.expect RPAREN st2); reflexivity.
Qed.

(** *** Chains of operators of one precedence *)

Lemma next_emitted st t l1 :
  Lexer.nextToken (Parser.lexer st) = Ok (t, l1) ->
  Parser.next st =
  Ok {| Parser.lexer := l1; Parser._token := Parser._next_token st; Parser._next_token := t |}.
Proof. intros H. unfold Parser.next. rewrite H. reflexivity. Qed.

Lemma ahead_cons st t t' ts l' :
  ahead st (t :: t' :: ts) l' ->
  exists l1,
    Parser.next st =
      Ok {| Parser.lexer := l1; Parser._token := t; Parser._next_token := t' |} /\
    emits l1 ts l'.
Proof.
  intros [Ht He]. inversion He; subst.
  eexists. split; [|eassumption]. erewrite next_emitted by eassumption. reflexivity.
Qed.

Lemma chain_head_precedence q ons te p :
  Forall (chainLink q) ons -> (p < q)%Z -> (TokenPrecedence.get (type te) <= p)%Z ->
  forall t ts, chainTokens ons ++ [te] = t :: ts ->
  (q <? TokenPrecedence.get (type t))%Z = false.
Proof.
  intros Hons Hp Hte t ts E. apply Z.ltb_ge.
  destruct ons as [|[o n] ons]; simpl in E; inversion E; subst.
  - lia.
  - inversion Hons as [|? ? Hl _]; subst. destruct Hl as [_ [Hq _]]. simpl in Hq. lia.
Qed.

Lemma last_cons_default {A : Type} (a d : A) (l : list A) :
  last (a :: l) d = last l a.
Proof.
  revert a d. induction l as [|b l IH]; intros a d; [reflexivity|].
  change (last (a :: b :: l) d) with (last (b :: l) d).
  rewrite (IH b d), (IH b a). reflexivity.
Qed.

Lemma chain_loop q p te l' ons :
  Forall (chainLink q) ons -> (p < q)%Z -> (TokenPrecedence.get (type te) <= p)%Z ->
  forall fuel lhs st,
    ahead st (chainTokens ons ++ [te]) l' ->
    length ons + 2 <= fuel ->
    Parser.parse_while fuel p lhs st =
    Ok (fold_left (fun lhs on =>
                     InfixExpression (fst on) (literal (fst on)) lhs (leaf (snd on)))
                  ons lhs,
        {| Parser.lexer := l';
           Parser._token := last (map snd ons) (Parser._token st);
           Parser._next_token := te |}).
Proof.
  intros Hons Hp Hte. induction Hons as [|[o n] ons [Hop [Hq Hn]] Hons IH];
    intros fuel lhs st Ha Hf.
  - destruct fuel as [|fuel]; [simpl in Hf; lia|].
    destruct Ha as [Ht He]. inversion He; subst.
    rewrite parse_while_S. unfold Parser.nextPrecedence.
    replace (p <? _)%Z with false by (symmetry; apply Z.ltb_ge; lia).
    destruct st; reflexivity.
  - simpl in Hop, Hq, Hn.
    destruct fuel as [|[|[|fuel]]]; try (simpl in Hf; lia).
    change (chainTokens ((o, n) :: ons) ++ [te])
      with (o :: n :: (chainTokens ons ++ [te])) in Ha.
    destruct (ahead_cons _ _ _ _ _ Ha) as [l1 [Hst1 He1]].
    destruct Ha as [Hnext _].
    pose proof (chain_head_precedence q ons te p Hons Hp Hte) as Hhead.
    remember (chainTokens ons ++ [te]) as rest eqn:E.
    destruct rest as [|t' ts].
    { destruct ons; discriminate. }
    specialize (Hhead t' ts eq_refl).
    inversion He1 as [|l0 t0 l2 ts0 l3 Hl1 He2 E1 E2 E3]. clear He1. subst l0 t0 ts0 l3.
    rewrite parse_while_S. unfold Parser.nextPrecedence. rewrite Hnext, Hq.
    replace (p <? q)%Z with true by (symmetry; apply Z.ltb_lt; lia).
    rewrite Hst1. simpl bind. simpl Parser._token. rewrite Hop.
    unfold Parser.InfixExpression_new, Parser.currentPrecedence.
    simpl Parser._token. rewrite Hq.
    erewrite next_emitted by (simpl; eassumption).
    simpl bind. simpl Parser._next_token.
    rewrite parse_number by assumption. simpl Parser._token.
    rewrite parse_while_S. unfold Parser.nextPrecedence. simpl Parser._next_token.
    rewrite Hhead.
    simpl bind.
    rewrite IH.
    + simpl map. rewrite last_cons_default. reflexivity.
    + split; [reflexivity|assumption].
    + simpl in Hf |- *. lia.
Qed.

Lemma ahead_next st a ts l' :
  ahead st (a :: ts) l' -> ts <> [] ->
  exists st', Parser.next st = Ok st' /\ Parser._token st' = a /\ ahead st' ts l'.
Proof.
  intros Ha Hne. destruct ts as [|b ts]; [contradiction|].
  destruct (ahead_cons _ _ _ _ _ Ha) as [l1 [Hn He]].
  eexists. split; [exact Hn|]. split; [reflexivity|]. split; [reflexivity|exact He].
Qed.

Lemma parse_while_exit fuel p lhs st :
  (Parser.nextPrecedence st <= p)%Z ->
  Parser.parse_while (S fuel) p lhs st = Ok (lhs, st).
Proof.
  intros H. rewrite parse_while_S.
  replace (p <? Parser.nextPrecedence st)%Z with false
    by (symmetry; apply Z.ltb_ge; assumption).
  reflexivity.
Qed.

Lemma ahead_precedence st te ts l' :
  ahead st (te :: ts) l' -> Parser.nextPrecedence st = TokenPrecedence.get (type te).
Proof. intros [H _]. unfold Parser.nextPrecedence. rewrite H. reflexivity. Qed.

Lemma app_cons_not_nil {A : Type} (xs : list A) (y : A) (ys : list A) :
  xs ++ y :: ys <> [].
Proof. destruct xs; discriminate. Qed.

Lemma parse_chain q p ons te st l' fuel :
  type (Parser._token st) = NUMBER ->
  Forall (chainLink q) ons ->
  (p < q)%Z ->
  (TokenPrecedence.get (type te) <= p)%Z ->
  ahead st (chainTokens ons ++ [te]) l' ->
  length ons + 3 <= fuel ->
  Parser.parse fuel p st =
  Ok (leftChain (Parser._token st) ons,
      {| Parser.lexer := l';
         Parser._token := last (map snd ons) (Parser._token st);
         Parser._next_token := te |}).
Proof.
  intros Hn Hons Hp Hte Ha Hf.
  destruct fuel as [|fuel]; [lia|].
  rewrite parse_number by assumption.
  apply (chain_loop q p te l' ons Hons Hp Hte); [assumption|lia].
Qed.

(** *** The lexer *)

Lemma eatWhitespace_loop_stays fuel l :
  let l' := Lexer.eatWhitespace_loop fuel l in
  Lexer.input l' = Lexer.input l /\ Lexer._next_pos l <= Lexer._next_pos l'.
Proof.
  revert l. induction fuel as [|fuel IH]; intros l; simpl; [auto|].
  destruct (Lexer.isWhitespace (Lexer._c l)); [|auto].
  destruct (IH (Lexer.next l)) as [Hi Hp]. simpl in Hi, Hp. split; [assumption|lia].
Qed.

Lemma readNumber_loop_stays fuel l :
  let l' := Lexer.readNumber_loop fuel l in
  Lexer.input l' = Lexer.input l /\ Lexer._next_pos l <= Lexer._next_pos l'.
Proof.
  revert l. induction fuel as [|fuel IH]; intros l; simpl; [auto|].
  destruct (Lexer.isNumberComponent (Lexer.peek l)); [|auto].
  destruct (IH (Lexer.next l)) as [Hi Hp]. simpl in Hi, Hp. split; [assumption|lia].
Qed.

Lemma readChar_stays l :
  let l' := snd (Lexer.readChar l) in
  Lexer.input l' = Lexer.input l /\ Lexer._next_pos l <= Lexer._next_pos l'.
Proof.
  unfold Lexer.readChar.
  destruct (Lexer._next_pos l <=? length (Lexer.input l))%nat; [|simpl; auto].
  pose proof (eatWhitespace_loop_stays (S (length (Lexer.input l))) l) as [Hi Hp].
  fold (Lexer.eatWhitespace l) in Hi, Hp.
  pose proof (readNumber_loop_stays (length (Lexer.input (Lexer.eatWhitespace l)))
                (Lexer.eatWhitespace l)) as [Hi' Hp'].
  assert (N : let l' := snd (Lexer.readNumber (Lexer.eatWhitespace l)) in
              Lexer.input l' = Lexer.input l /\ Lexer._next_pos l <= Lexer._next_pos l').
  { unfold Lexer.readNumber. simpl. split; [congruence|lia]. }
  destruct (Lexer._c (Lexer.eatWhitespace l)) as [c|].
  - destruct (Lexer.isOperatorOrParen c); [simpl; auto|].
    destruct (Lexer.readNumber (Lexer.eatWhitespace l)); exact N.
  - destruct (Lexer.readNumber (Lexer.eatWhitespace l)); exact N.
Qed.

(** Every call of [nextToken()] that returns has moved the cursor forward. *)
Lemma nextToken_advances l t l' :
  Lexer.nextToken l = Ok (t, l') ->
  Lexer.input l' = Lexer.input l /\ Lexer._next_pos l < Lexer._next_pos l'.
Proof.
  unfold Lexer.nextToken. pose proof (readChar_stays l) as H.
  destruct (Lexer.readChar l) as [lit l1]. simpl in H. destruct H as [Hi Hp].
  assert (G : Lexer.input (Lexer.next l1) = Lexer.input l /\
              Lexer._next_pos l < Lexer._next_pos (Lexer.next l1)).
  { simpl. split; [assumption|lia]. }
  destruct lit as [s|].
  - destruct (Lexer.punctuator s).
    + intros E. inversion E; subst. exact G.
    + destruct (JSNumber.isNaN_ToNumber s); intros E; inversion E; subst. exact G.
  - intros E. inversion E; subst. exact G.
Qed.

(** Past the end of the input [nextToken()] returns EOF, again and again. *)
Lemma nextToken_past_end l :
  length (Lexer.input l) < Lexer._next_pos l ->
  Lexer.nextToken l = Ok (mkToken EOF [], Lexer.next l).
Proof.
  intros H. unfold Lexer.nextToken, Lexer.readChar.
  replace (Lexer._next_pos l <=? length (Lexer.input l))%nat with false
    by (symmetry; apply Nat.leb_gt; assumption).
  reflexivity.
Qed.

(** The lexer stops in one way only: the validation of a NUMBER literal. *)
Lemma nextToken_only_failure l :
  Lexer.nextToken l <> OutOfFuel /\
  forall e, Lexer.nextToken l = Throw e ->
            exists s, e = InvalidNumberToken s /\ JSNumber.isNaN_ToNumber s = true.
Proof.
  unfold Lexer.nextToken. destruct (Lexer.readChar l) as [[s|] l1].
  - destruct (Lexer.punctuator s).
    + split; [discriminate|]. intros e E. discriminate.
    + destruct (JSNumber.isNaN_ToNumber s) eqn:V.
      * split; [discriminate|]. intros e E. inversion E; subst. eauto.
      * split; [discriminate|]. intros e E. discriminate.
  - split; [discriminate|]. intros e E. discriminate.
Qed.

Lemma punctuator_not_number s ty :
  Lexer.punctuator s = Some ty -> ty <> NUMBER /\ ty <> EOF /\ length s = 1.
Proof.
  destruct s as [|c s]; [discriminate|].
  destruct c as [[] [] [] [] [] [] [] []]; simpl; try discriminate;
    destruct s; simpl; try discriminate;
    intros E; inversion E; repeat split; discriminate.
Qed.

(** Every NUMBER token has passed the validation [isNaN(+literal)]. *)
Lemma number_tokens_validated l t l' :
  Lexer.nextToken l = Ok (t, l') -> type t = NUMBER ->
  JSNumber.isNaN_ToNumber (literal t) = false.
Proof.
  unfold Lexer.nextToken. destruct (Lexer.readChar l) as [[s|] l1].
  - destruct (Lexer.punctuator s) as [ty|] eqn:P.
    + intros E Ht. inversion E; subst. simpl in Ht. subst ty.
      apply punctuator_not_number in P. destruct P as [P _]. contradiction.
    + destruct (JSNumber.isNaN_ToNumber s) eqn:V; intros E Ht; inversion E; subst.
      exact V.
  - intros E Ht. inversion E; subst. discriminate.
Qed.

(** *** Input that is white space only *)

Lemma eatWhitespace_loop_to_end inp n :
  forall pos fuel,
    pos + n = length inp ->
    (forall i, pos <= i < length inp -> Lexer.isWhitespace (nth_error inp i) = true) ->
    n < fuel ->
    Lexer.eatWhitespace_loop fuel (Lexer.mk inp (nth_error inp pos) pos (S pos)) =
    Lexer.mk inp None (length inp) (S (length inp)).
Proof.
  induction n as [|n IH]; intros pos fuel Hlen Hws Hfuel;
    (destruct fuel as [|fuel]; [lia|]);
    cbn [Lexer.eatWhitespace_loop Lexer._c].
  - assert (pos = length inp) by lia. subst pos.
    replace (nth_error inp (length inp)) with (@None ascii)
      by (symmetry; apply nth_error_None; lia).
    reflexivity.
  - rewrite Hws by lia. unfold Lexer.next.
    cbn [Lexer.input Lexer._next_pos].
    apply IH; [lia| |lia]. intros i Hi. apply Hws. lia.
Qed.

Lemma allWhitespace_nth s :
  allWhitespace s = true ->
  forall i, 0 <= i < length s -> Lexer.isWhitespace (nth_error s i) = true.
Proof.
  intros H i Hi. unfold allWhitespace in H. rewrite forallb_forall in H.
  destruct (nth_error s i) as [c|] eqn:E.
  - apply H. eapply nth_error_In. eassumption.
  - apply nth_error_None in E. lia.
Qed.

Lemma readNumber_loop_stop fuel l :
  Lexer.isNumberComponent (Lexer.peek l) = false ->
  Lexer.readNumber_loop fuel l = l.
Proof. intros H. destruct fuel; [reflexivity|]. simpl. rewrite H. reflexivity. Qed.

Lemma nth_error_past {A : Type} (l : list A) i :
  length l <= i -> nth_error l i = None.
Proof. apply nth_error_None. Qed.

(** The one token of a white-space-only input: a NUMBER whose literal is
    empty, read where the skipped white space ends. *)
Lemma nextToken_allWhitespace s :
  s <> [] -> allWhitespace s = true ->
  Lexer.nextToken (Lexer.new s) =
  Ok (mkToken NUMBER [], Lexer.mk s None (S (length s)) (S (S (length s)))).
Proof.
  intros Hne Hws.
  assert (Hlen : 1 <= length s) by (destruct s; [contradiction|simpl; lia]).
  assert (RC : Lexer.readChar (Lexer.new s) =
               (Some [], Lexer.mk s None (length s) (S (length s)))).
  { unfold Lexer.readChar, Lexer.new, Lexer.next.
    cbn [Lexer._next_pos Lexer.input].
    replace (1 <=? length s)%nat with true by (symmetry; apply Nat.leb_le; assumption).
    unfold Lexer.eatWhitespace. cbn [Lexer.input].
    rewrite (eatWhitespace_loop_to_end s (length s) 0 (S (length s)));
      [|lia|apply allWhitespace_nth; assumption|lia].
    cbn [Lexer._c]. unfold Lexer.readNumber. cbn [Lexer.input Lexer._pos].
    rewrite readNumber_loop_stop.
    2:{ unfold Lexer.peek. cbn [Lexer.input Lexer._next_pos].
        rewrite nth_error_past by lia. reflexivity. }
    cbn [Lexer.input Lexer._pos].
    unfold substring. rewrite Nat.min_l by lia. rewrite skipn_all.
    rewrite firstn_nil. reflexivity. }
  unfold Lexer.nextToken. rewrite RC. cbn [Lexer.punctuator].
  change (JSNumber.isNaN_ToNumber []) with false. cbv iota.
  unfold Lexer.next. cbn [Lexer.input Lexer._next_pos].
  rewrite nth_error_past by lia. reflexivity.
Qed.

(** *** Termination: the fuel of [parseString] is never used up *)

Lemma next_pending st st' :
  Parser.next st = Ok st' ->
  pending st' + nonEOF (Parser._token st) <= pending st.
Proof.
  unfold Parser.next.
  destruct (Lexer.nextToken (Parser.lexer st)) as [[t l']| |] eqn:E; try discriminate.
  cbn [bind]. intros H. inversion H; subst. clear H.
  unfold pending. cbn [Parser.lexer Parser._token Parser._next_token].
  destruct (nextToken_advances _ _ _ E) as [Hi Hp].
  unfold remaining. rewrite Hi.
  destruct (Nat.le_gt_cases (Lexer._next_pos (Parser.lexer st))
              (length (Lexer.input (Parser.lexer st)))) as [Hin|Hout].
  - assert (nonEOF t <= 1) by (unfold nonEOF; destruct (type t); lia). lia.
  - rewrite nextToken_past_end in E by assumption. inversion E; subst.
    unfold nonEOF at 1. cbn [type]. lia.
Qed.

Lemma operator_nonEOF t : Parser.isOperator (type t) = true -> nonEOF t = 1.
Proof. unfold nonEOF. destruct (type t); simpl; intros; try discriminate; reflexivity. Qed.

Lemma next_not_OutOfFuel st : Parser.next st <> OutOfFuel.
Proof.
  unfold Parser.next. destruct (nextToken_only_failure (Parser.lexer st)) as [H _].
  destruct (Lexer.nextToken (Parser.lexer st)) as [[t l]| |]; cbn [bind];
    try discriminate. contradiction.
Qed.

Section TerminationStep.

Variable fuel : nat.
Hypothesis IH : terminates_within fuel.

Lemma operand_terminates q st st1 :
  Parser.next st = Ok st1 ->
  nonEOF (Parser._token st) = 1 ->
  2 * pending st <= fuel ->
  Parser.parse fuel q st1 <> OutOfFuel /\
  forall e st2, Parser.parse fuel q st1 = Ok (e, st2) -> pending st2 + 1 <= pending st.
Proof.
  intros Hn Ht Hf. pose proof (next_pending _ _ Hn) as Hp.
  destruct (proj1 IH q st1) as [H1 H2]; [lia|].
  split; [assumption|]. intros e st2 E. specialize (H2 e st2 E). lia.
Qed.

Lemma PrefixExpression_new_terminates st :
  Parser.isOperator (type (Parser._token st)) = true ->
  2 * pending st <= fuel ->
  Parser.PrefixExpression_new (Parser.parse fuel) st <> OutOfFuel /\
  forall e st', Parser.PrefixExpression_new (Parser.parse fuel) st = Ok (e, st') ->
                pending st' + 1 <= pending st.
Proof.
  intros Hop Hf. unfold Parser.PrefixExpression_new.
  pose proof (next_not_OutOfFuel st) as Hoof.
  destruct (Parser.next st) as [st1|err1|] eqn:Hn; cbn [bind]; [| |contradiction].
  - destruct (operand_terminates (Parser.currentPrecedence st) st st1 Hn
                (operator_nonEOF _ Hop) Hf) as [H1 H2].
    destruct (Parser.parse fuel (Parser.currentPrecedence st) st1) as [[rhs st2]|err|];
      cbn [bind]; [| |contradiction].
    + split; [discriminate|]. intros e st' E. inversion E; subst. eapply H2. reflexivity.
    + split; [discriminate|]. intros e st' E. discriminate.
  - split; [discriminate|]. intros e' st' E. discriminate.
Qed.

Lemma InfixExpression_new_terminates lhs st :
  Parser.isOperator (type (Parser._token st)) = true ->
  2 * pending st <= fuel ->
  Parser.InfixExpression_new (Parser.parse fuel) lhs st <> OutOfFuel /\
  forall e st', Parser.InfixExpression_new (Parser.parse fuel) lhs st = Ok (e, st') ->
                pending st' + 1 <= pending st.
Proof.
  intros Hop Hf. unfold Parser.InfixExpression_new.
  pose proof (next_not_OutOfFuel st) as Hoof.
  destruct (Parser.next st) as [st1|err1|] eqn:Hn; cbn [bind]; [| |contradiction].
  - destruct (operand_terminates (Parser.currentPrecedence st) st st1 Hn
                (operator_nonEOF _ Hop) Hf) as [H1 H2].
    destruct (Parser.parse fuel (Parser.currentPrecedence st) st1) as [[rhs st2]|err|];
      cbn [bind]; [| |contradiction].
    + split; [discriminate|]. intros e st' E. inversion E; subst. eapply H2. reflexivity.
    + split; [discriminate|]. intros e st' E. discriminate.
  - split; [discriminate|]. intros e' st' E. discriminate.
Qed.

Lemma parseGroup_terminates st :
  type (Parser._token st) = LPAREN ->
  2 * pending st <= fuel ->
  Parser.parseGroup (Parser.parse fuel) st <> OutOfFuel /\
  forall e st', Parser.parseGroup (Parser.parse fuel) st = Ok (e, st') ->
                pending st' + 1 <= pending st.
Proof.
  intros Hl Hf. unfold Parser.parseGroup.
  assert (Hne : nonEOF (Parser._token st) = 1) by (unfold nonEOF; rewrite Hl; reflexivity).
  pose proof (next_not_OutOfFuel st) as Hoof.
  destruct (Parser.next st) as [st1|err1|] eqn:Hn; cbn [bind]; [| |contradiction].
  - destruct (operand_terminates (Parser.currentPrecedence st) st st1 Hn Hne Hf)
      as [H1 H2].
    destruct (Parser.parse fuel (Parser.currentPrecedence st) st1) as [[rhs st2]|err|];
      cbn [bind]; [| |contradiction].
    + specialize (H2 rhs st2 eq_refl). unfold Parser.expect.
      destruct (TokenType_eqb _ _).
      * pose proof (next_not_OutOfFuel st2) as Hoof2.
        destruct (Parser.next st2) as [st3|err3|] eqn:Hn2; cbn [bind]; [| |contradiction].
        -- pose proof (next_pending _ _ Hn2).
           split; [discriminate|]. intros e st' E. inversion E; subst. lia.
        -- split; [discriminate|]. intros e st' E. discriminate.
      * cbn [bind]. split; [discriminate|]. intros e st' E. discriminate.
    + split; [discriminate|]. intros e st' E. discriminate.
  - split; [discriminate|]. intros e' st' E. discriminate.
Qed.

Lemma parse_while_terminates :
  forall p lhs st,
    2 * pending st + 1 <= S fuel ->
    Parser.parse_while (S fuel) p lhs st <> OutOfFuel /\
    forall e st', Parser.parse_while (S fuel) p lhs st = Ok (e, st') ->
                  pending st' <= pending st.
Proof.
  intros p lhs st Hf. rewrite parse_while_S.
  destruct (p <? Parser.nextPrecedence st)%Z.
  2:{ split; [discriminate|]. intros e st' E. inversion E; subst. lia. }
  pose proof (next_not_OutOfFuel st) as Hoof.
  destruct (Parser.next st) as [st1|err1|] eqn:Hn; cbn [bind]; [| |contradiction].
  2:{ split; [discriminate|]. intros e' st' E. discriminate. }
  pose proof (next_pending _ _ Hn) as Hp1.
  destruct (Parser.isOperator (type (Parser._token st1))) eqn:Hop.
  2:{ split; [discriminate|]. intros e' st' E. discriminate. }
  destruct (InfixExpression_new_terminates lhs st1 Hop) as [H1 H2]; [lia|].
  destruct (Parser.InfixExpression_new (Parser.parse fuel) lhs st1) as [[lhs' st2]|err|];
    cbn [bind]; [| |contradiction].
  2:{ split; [discriminate|]. intros e' st' E. discriminate. }
  specialize (H2 lhs' st2 eq_refl).
  destruct (proj2 IH p lhs' st2) as [H3 H4]; [lia|].
  split; [assumption|]. intros e st' E. specialize (H4 e st' E). lia.
Qed.

Lemma parse_terminates :
  forall p st,
    2 * pending st + 2 <= S fuel ->
    Parser.parse (S fuel) p st <> OutOfFuel /\
    forall e st', Parser.parse (S fuel) p st = Ok (e, st') -> pending st' <= pending st.
Proof.
  intros p st Hf. rewrite parse_S.
  assert (W : forall lhs st1, pending st1 <= pending st ->
      Parser.parse_while fuel p lhs st1 <> OutOfFuel /\
      forall e st', Parser.parse_while fuel p lhs st1 = Ok (e, st') ->
                    pending st' <= pending st).
  { intros lhs st1 Hle. destruct (proj2 IH p lhs st1) as [H3 H4]; [lia|].
    split; [assumption|]. intros e st' E. specialize (H4 e st' E). lia. }
  assert (P : forall r : result (Expression * Parser.t),
      r <> OutOfFuel ->
      (forall e st1, r = Ok (e, st1) -> pending st1 <= pending st) ->
      (' (lhs, st1) <- r ;; Parser.parse_while fuel p lhs st1) <> OutOfFuel /\
      forall e st', (' (lhs, st1) <- r ;; Parser.parse_while fuel p lhs st1) = Ok (e, st') ->
                    pending st' <= pending st).
  { intros r Hr Hle. destruct r as [[lhs st1]|err|]; cbn [bind]; [| |contradiction].
    - apply W. eapply Hle. reflexivity.
    - split; [discriminate|]. intros e st' E. discriminate. }
  assert (Hnum : forall r : result (Expression * Parser.t),
      r = (lhs <- Parser.NumberExpression_new (Parser._token st) ;; Ok (lhs, st)) ->
      r <> OutOfFuel /\ forall e st1, r = Ok (e, st1) -> pending st1 <= pending st).
  { intros r ->. unfold Parser.NumberExpression_new.
    destruct (type (Parser._token st)); cbn [bind];
      (split; [discriminate|]); intros e st1 E; inversion E; subst; lia. }
  destruct (type (Parser._token st)) eqn:Ht;
    try (apply P; apply (Hnum _ eq_refl));
    try (destruct (PrefixExpression_new_terminates st) as [H1 H2];
         [rewrite Ht; reflexivity|lia|];
         apply P; [assumption|]; intros e st1 E; specialize (H2 e st1 E); lia).
  destruct (parseGroup_terminates st Ht) as [H1 H2]; [lia|].
  apply P; [assumption|]. intros e st1 E. specialize (H2 e st1 E). lia.
Qed.

End TerminationStep.

Lemma terminates_within_fuel fuel : terminates_within fuel.
Proof.
  induction fuel as [|fuel IH].
  - split; intros; lia.
  - split.
    + apply parse_terminates. assumption.
    + apply parse_while_terminates. assumption.
Qed.

Lemma new_pending s st :
  Parser.new (Lexer.new s) = Ok st -> pending st <= length s + 2.
Proof.
  unfold Parser.new.
  destruct (Lexer.nextToken (Lexer.new s)) as [[t1 l1]| |] eqn:E1; try discriminate.
  cbn [bind].
  destruct (Lexer.nextToken l1) as [[t2 l2]| |] eqn:E2; try discriminate.
  cbn [bind]. intros H. inversion H; subst. clear H.
  destruct (nextToken_advances _ _ _ E1) as [Hi1 Hp1].
  destruct (nextToken_advances _ _ _ E2) as [Hi2 Hp2].
  unfold pending, remaining. cbn [Parser.lexer Parser._token Parser._next_token].
  rewrite Hi2, Hi1. change (Lexer.input (Lexer.new s)) with s.
  change (Lexer._next_pos (Lexer.new s)) with 1 in Hp1.
  assert (nonEOF t1 <= 1) by (unfold nonEOF; destruct (type t1); lia).
  assert (nonEOF t2 <= 1) by (unfold nonEOF; destruct (type t2); lia).
  lia.
Qed.

(** [parseString] is total: on every input the program returns a tree or
    throws, within the fuel that [fuelFor] gives it. *)
Lemma parseString_terminates s : parseString s <> OutOfFuel.
Proof.
  unfold parseString.
  destruct (Parser.new (Lexer.new s)) as [st|err|] eqn:E; cbn [bind].
  - pose proof (new_pending s st E) as Hp.
    destruct (proj1 (terminates_within_fuel (fuelFor s)) 0%Z st) as [H _];
      [unfold fuelFor; lia|].
    destruct (Parser.parse (fuelFor s) 0 st) as [[e st']|err|]; cbn [bind];
      try discriminate. contradiction.
  - discriminate.
  - exfalso. unfold Parser.new in E.
    destruct (nextToken_only_failure (Lexer.new s)) as [H1 _].
    destruct (Lexer.nextToken (Lexer.new s)) as [[t1 l1]| |]; cbn [bind] in E;
      try discriminate; try contradiction.
    destruct (nextToken_only_failure l1) as [H2 _].
    destruct (Lexer.nextToken l1) as [[t2 l2]| |]; cbn [bind] in E;
      try discriminate; contradiction.
Qed.

(** *** More fuel changes no outcome *)

Section MoreFuel.

Variables parseA parseB : Z -> Parser.t -> result (Expression * Parser.t).
Hypothesis AB : forall q st, parseA q st <> OutOfFuel -> parseB q st = parseA q st.

Lemma PrefixExpression_new_more st :
  Parser.PrefixExpression_new parseA st <> OutOfFuel ->
  Parser.PrefixExpression_new parseB st = Parser.PrefixExpression_new parseA st.
Proof.
  unfold Parser.PrefixExpression_new.
  destruct (Parser.next st) as [st1|err|]; cbn [bind]; try reflexivity.
  intros H. rewrite AB; [reflexivity|].
  intros E. rewrite E in H. apply H. reflexivity.
Qed.

Lemma InfixExpression_new_more lhs st :
  Parser.InfixExpression_new parseA lhs st <> OutOfFuel ->
  Parser.InfixExpression_new parseB lhs st = Parser.InfixExpression_new parseA lhs st.
Proof.
  unfold Parser.InfixExpression_new.
  destruct (Parser.next st) as [st1|err|]; cbn [bind]; try reflexivity.
  intros H. rewrite AB; [reflexivity|].
  intros E. rewrite E in H. apply H. reflexivity.
Qed.

Lemma parseGroup_more st :
  Parser.parseGroup parseA st <> OutOfFuel ->
  Parser.parseGroup parseB st = Parser.parseGroup parseA st.
Proof.
  unfold Parser.parseGroup.
  destruct (Parser.next st) as [st1|err|]; cbn [bind]; try reflexivity.
  intros H. rewrite AB; [reflexivity|].
  intros E. rewrite E in H. apply H. reflexivity.
Qed.

End MoreFuel.

Lemma bind_not_OutOfFuel {A B : Type} (m : result A) (k : A -> result B) :
  bind m k <> OutOfFuel -> m <> OutOfFuel.
Proof. intros H E. rewrite E in H. apply H. reflexivity. Qed.

Lemma one_more_fuel fuel :
  (forall p st, Parser.parse fuel p st <> OutOfFuel ->
                Parser.parse (S fuel) p st = Parser.parse fuel p st) /\
  (forall p lhs st, Parser.parse_while fuel p lhs st <> OutOfFuel ->
                    Parser.parse_while (S fuel) p lhs st = Parser.parse_while fuel p lhs st).
Proof.
  induction fuel as [|fuel [IHp IHw]].
  - split; intros; exfalso; auto.
  - split.
    + intros p st H. rewrite (parse_S (S fuel)). rewrite parse_S in H |- *.
      pose proof (bind_not_OutOfFuel _ _ H) as Hprim.
      assert (E : match type (Parser._token st) with
                  | LPAREN => Parser.parseGroup (Parser.parse (S fuel)) st
                  | PLUS | MINUS | MODULO | DIVIDE | MULTIPLY =>
                      Parser.PrefixExpression_new (Parser.parse (S fuel)) st
                  | _ => lhs <- Parser.NumberExpression_new (Parser._token st) ;; Ok (lhs, st)
                  end =
                  match type (Parser._token st) with
                  | LPAREN => Parser.parseGroup (Parser.parse fuel) st
                  | PLUS | MINUS | MODULO | DIVIDE | MULTIPLY =>
                      Parser.PrefixExpression_new (Parser.parse fuel) st
                  | _ => lhs <- Parser.NumberExpression_new (Parser._token st) ;; Ok (lhs, st)
                  end).
      { destruct (type (Parser._token st)); try reflexivity;
          first [apply PrefixExpression_new_more | apply parseGroup_more]; assumption. }
      rewrite E.
      destruct (match type (Parser._token st) with
                | LPAREN => Parser.parseGroup (Parser.parse fuel) st
                | PLUS | MINUS | MODULO | DIVIDE | MULTIPLY =>
                    Parser.PrefixExpression_new (Parser.parse fuel) st
                | _ => lhs <- Parser.NumberExpression_new (Parser._token st) ;; Ok (lhs, st)
                end) as [[lhs st1]|err|]; cbn [bind] in H |- *; try reflexivity.
      apply IHw. assumption.
    + intros p lhs st H. rewrite (parse_while_S (S fuel)). rewrite parse_while_S in H |- *.
      destruct (p <? Parser.nextPrecedence st)%Z; [|reflexivity].
      destruct (Parser.next st) as [st1|err|]; cbn [bind] in H |- *; try reflexivity.
      destruct (Parser.isOperator (type (Parser._token st1))); [|reflexivity].
      pose proof (bind_not_OutOfFuel _ _ H) as Hinf.
      rewrite (InfixExpression_new_more (Parser.parse fuel) (Parser.parse (S fuel)) IHp)
        by assumption.
      destruct (Parser.InfixExpression_new (Parser.parse fuel) lhs st1)
        as [[lhs' st2]|err|]; cbn [bind] in H |- *; try reflexivity.
      apply IHw. assumption.
Qed.

(** The outcome of [parse] does not depend on the fuel, once there is
    enough of it. *)
Lemma more_fuel fuel fuel' p st :
  Parser.parse fuel p st <> OutOfFuel -> fuel <= fuel' ->
  Parser.parse fuel' p st = Parser.parse fuel p st.
Proof.
  intros H Hle. induction Hle as [|fuel' Hle IH]; [reflexivity|].
  rewrite <- IH. apply one_more_fuel. rewrite IH. assumption.
Qed.

(** *** The lexer on the unread characters *)

Lemma cursorOk_at_pos l :
  cursorOk l -> l = at_pos (Lexer.input l) (Lexer._pos l).
Proof. destruct l as [inp c pos np]. intros [H1 H2]. simpl in *. subst. reflexivity. Qed.

Lemma next_at_pos inp pos : Lexer.next (at_pos inp pos) = at_pos inp (S pos).
Proof. reflexivity. Qed.

Lemma skipn_nth_error_Some {A : Type} (l : list A) i a :
  nth_error l i = Some a -> skipn i l = a :: skipn (S i) l.
Proof.
  revert i. induction l as [|b l IH]; intros [|i] H; simpl in *; try discriminate.
  - inversion H. reflexivity.
  - rewrite (IH i H). destruct l; reflexivity.
Qed.

Lemma skipn_nth_error_None {A : Type} (l : list A) i :
  nth_error l i = None -> skipn i l = [].
Proof. intros H. apply skipn_all2. apply nth_error_None. assumption. Qed.

Lemma takeWhile_dropWhile f s :
  JSNumber.takeWhile f s ++ JSNumber.dropWhile f s = s.
Proof.
  induction s as [|c s IH]; simpl; [reflexivity|].
  destruct (f c); simpl; [rewrite IH|]; reflexivity.
Qed.

Lemma firstn_takeWhile f s :
  firstn (length (JSNumber.takeWhile f s)) s = JSNumber.takeWhile f s.
Proof.
  induction s as [|c s IH]; simpl; [reflexivity|].
  destruct (f c); simpl; [rewrite IH|]; reflexivity.
Qed.

Lemma skipn_takeWhile f s :
  skipn (length (JSNumber.takeWhile f s)) s = JSNumber.dropWhile f s.
Proof.
  induction s as [|c s IH]; simpl; [reflexivity|].
  destruct (f c); simpl; [rewrite IH|]; reflexivity.
Qed.

Lemma eatWhitespace_loop_S fuel inp pos :
  Lexer.eatWhitespace_loop (S fuel) (at_pos inp pos) =
  if Lexer.isWhitespace (nth_error inp pos)
  then Lexer.eatWhitespace_loop fuel (at_pos inp (S pos))
  else at_pos inp pos.
Proof. reflexivity. Qed.

(** [eatWhitespace()] moves the cursor over the white space at the head of
    the unread characters. *)
Lemma eatWhitespace_loop_at_pos inp n :
  forall pos fuel,
    length (skipn pos inp) <= n -> n < fuel ->
    exists pos',
      Lexer.eatWhitespace_loop fuel (at_pos inp pos) = at_pos inp pos' /\
      skipn pos' inp = JSNumber.dropWhile isWhitespaceChar (skipn pos inp).
Proof.
  induction n as [|n IH]; intros pos fuel Hn Hf;
    (destruct fuel as [|fuel]; [lia|]); rewrite eatWhitespace_loop_S;
    destruct (nth_error inp pos) as [c|] eqn:E;
    try (exists pos; rewrite (skipn_nth_error_None _ _ E); split; reflexivity);
    rewrite (skipn_nth_error_Some _ _ _ E) in Hn |- *.
  - cbn [length] in Hn. lia.
  - cbn [length] in Hn.
    cbn [JSNumber.dropWhile]. unfold isWhitespaceChar at 1.
    destruct (Lexer.isWhitespace (Some c)).
    + apply IH; lia.
    + exists pos. split; [reflexivity|]. apply skipn_nth_error_Some. assumption.
Qed.

Lemma readNumber_loop_S fuel inp pos :
  Lexer.readNumber_loop (S fuel) (at_pos inp pos) =
  if Lexer.isNumberComponent (nth_error inp (S pos))
  then Lexer.readNumber_loop fuel (at_pos inp (S pos))
  else at_pos inp pos.
Proof. reflexivity. Qed.

(** [readNumber()] moves the cursor to the last character of the run of
    digits and dots that follows the current character. *)
Lemma readNumber_loop_at_pos inp n :
  forall pos fuel,
    length (skipn (S pos) inp) <= n -> n <= fuel ->
    Lexer.readNumber_loop fuel (at_pos inp pos) =
    at_pos inp (pos + length (JSNumber.takeWhile isNumberChar (skipn (S pos) inp))).
Proof.
  induction n as [|n IH]; intros pos fuel Hn Hf.
  - assert (E : skipn (S pos) inp = []) by (apply length_zero_iff_nil; lia).
    rewrite E. cbn [JSNumber.takeWhile length]. rewrite Nat.add_0_r.
    destruct fuel as [|fuel]; [reflexivity|]. rewrite readNumber_loop_S.
    destruct (nth_error inp (S pos)) as [c|] eqn:N; [|reflexivity].
    rewrite (skipn_nth_error_Some _ _ _ N) in E. discriminate.
  - destruct (nth_error inp (S pos)) as [c|] eqn:N.
    + destruct fuel as [|fuel]; [lia|]. rewrite readNumber_loop_S, N.
      rewrite (skipn_nth_error_Some _ _ _ N) in Hn |- *. cbn [length] in Hn.
      cbn [JSNumber.takeWhile]. unfold isNumberChar at 1.
      destruct (Lexer.isNumberComponent (Some c)).
      * rewrite IH by lia. cbn [length]. f_equal. lia.
      * cbn [length]. rewrite Nat.add_0_r. reflexivity.
    + rewrite (skipn_nth_error_None _ _ N). cbn [JSNumber.takeWhile length].
      rewrite Nat.add_0_r.
      destruct fuel as [|fuel]; [reflexivity|]. rewrite readNumber_loop_S, N. reflexivity.
Qed.

Lemma isOperatorOrParen_punctuator c :
  Lexer.isOperatorOrParen c =
  match Lexer.punctuator [c] with Some _ => true | None => false end.
Proof. destruct c as [[] [] [] [] [] [] [] []]; reflexivity. Qed.

Lemma punctuator_longer c s :
  Lexer.punctuator [c] = None -> Lexer.punctuator (c :: s) = None.
Proof.
  destruct c as [[] [] [] [] [] [] [] []]; try reflexivity;
    destruct s; try reflexivity; discriminate.
Qed.

Lemma readNumber_at_pos inp pos c :
  nth_error inp pos = Some c ->
  let k := length (JSNumber.takeWhile isNumberChar (skipn (S pos) inp)) in
  Lexer.readNumber (at_pos inp pos) =
  (c :: JSNumber.takeWhile isNumberChar (skipn (S pos) inp), at_pos inp (pos + k)).
Proof.
  intros E k. unfold Lexer.readNumber.
  change (Lexer.input (at_pos inp pos)) with inp.
  change (Lexer._pos (at_pos inp pos)) with pos.
  rewrite (readNumber_loop_at_pos inp (length inp)); [|rewrite length_skipn; lia|lia].
  fold k. change (Lexer.input (at_pos inp (pos + k))) with inp.
  change (Lexer._pos (at_pos inp (pos + k))) with (pos + k).
  f_equal. unfold substring.
  rewrite Nat.min_l, Nat.max_r by lia.
  rewrite (skipn_nth_error_Some _ _ _ E).
  replace (pos + k + 1 - pos) with (S k) by lia.
  cbn [firstn]. f_equal. apply firstn_takeWhile.
Qed.

Lemma readNumber_at_end inp pos :
  nth_error inp pos = None ->
  Lexer.readNumber (at_pos inp pos) = ([], at_pos inp pos).
Proof.
  intros E. unfold Lexer.readNumber.
  change (Lexer.input (at_pos inp pos)) with inp.
  change (Lexer._pos (at_pos inp pos)) with pos.
  assert (L : length inp <= pos) by (apply nth_error_None; assumption).
  rewrite (readNumber_loop_at_pos inp (length inp)); [|rewrite length_skipn; lia|lia].
  rewrite (skipn_all2 inp) by lia. cbn [JSNumber.takeWhile length]. rewrite Nat.add_0_r.
  change (Lexer.input (at_pos inp pos)) with inp.
  change (Lexer._pos (at_pos inp pos)) with pos.
  f_equal. unfold substring. rewrite Nat.min_l by lia.
  rewrite skipn_all2 by lia. apply firstn_nil.
Qed.

(** [nextToken()] is [scan] on the unread characters. *)
Lemma nextToken_scan inp pos :
  match scan (skipn pos inp) with
  | Ok (t, w') =>
      exists pos', Lexer.nextToken (at_pos inp pos) = Ok (t, at_pos inp pos') /\
                   skipn pos' inp = w'
  | Throw e => Lexer.nextToken (at_pos inp pos) = Throw e
  | OutOfFuel => False
  end.
Proof.
  unfold Lexer.nextToken, Lexer.readChar.
  change (Lexer._next_pos (at_pos inp pos)) with (S pos).
  change (Lexer.input (at_pos inp pos)) with inp.
  destruct (skipn pos inp) as [|c0 w0] eqn:E.
  - assert (L : length inp <= pos).
    { pose proof (length_skipn pos inp) as H. rewrite E in H. simpl in H. lia. }
    replace (S pos <=? length inp)%nat with false by (symmetry; apply Nat.leb_gt; lia).
    cbn [scan]. exists (S pos). split; [reflexivity|]. apply skipn_all2. lia.
  - assert (L : pos < length inp).
    { pose proof (length_skipn pos inp) as H. rewrite E in H. simpl in H. lia. }
    replace (S pos <=? length inp)%nat with true by (symmetry; apply Nat.leb_le; lia).
    unfold Lexer.eatWhitespace. change (Lexer.input (at_pos inp pos)) with inp.
    destruct (eatWhitespace_loop_at_pos inp (length inp) pos (S (length inp)))
      as [pos1 [E1 D1]]; [rewrite length_skipn; lia|lia|].
    rewrite E1. change (Lexer._c (at_pos inp pos1)) with (nth_error inp pos1).
    rewrite E in D1. unfold scan. rewrite <- D1.
    destruct (nth_error inp pos1) as [c|] eqn:N.
    + rewrite (skipn_nth_error_Some _ _ _ N). rewrite isOperatorOrParen_punctuator.
      destruct (Lexer.punctuator [c]) as [ty|] eqn:P.
      * rewrite P. exists (S pos1). split; reflexivity.
      * rewrite (readNumber_at_pos inp pos1 c N).
        rewrite (punctuator_longer c _ P).
        destruct (JSNumber.isNaN_ToNumber _); [reflexivity|].
        eexists. split; [rewrite next_at_pos; reflexivity|].
        rewrite <- skipn_takeWhile.
        rewrite skipn_skipn. f_equal. lia.
    + rewrite (skipn_nth_error_None _ _ N). rewrite (readNumber_at_end inp pos1 N).
      exists (S pos1). split; [reflexivity|].
      apply skipn_all2. apply nth_error_None in N. lia.
Qed.

(** *** Parsing the tokens of a printed tree *)

Lemma tokensOf_first e : tokensOf e = firstToken e :: restTokens e.
Proof. destruct e; reflexivity. Qed.

(** On the tokens of a printed tree, what [parse] reads before its loop is
    that tree, whatever follows and whatever the threshold. *)
Lemma parse_printed_tokens e :
  wellBuilt e ->
  forall fuel st ts l',
    3 * height e + 1 <= fuel ->
    Parser._token st = firstToken e ->
    ts <> [] ->
    ahead st (restTokens e ++ ts) l' ->
    exists st',
      ahead st' ts l' /\
      forall p, Parser.parse (S fuel) p st = Parser.parse_while fuel p e st'.
Proof.
  induction e as [n v|tok op rhs IHr|tok op lhs IHl rhs IHr];
    intros Hwb fuel st ts l' Hf Ht Hne Ha.
  - destruct Hwb as [Hn Hv]. subst v. exists st. split; [exact Ha|].
    intros p. cbn [firstToken] in Ht. rewrite parse_number by (rewrite Ht; assumption).
    rewrite Ht. reflexivity.
  - destruct Hwb as [Hop [Hlit Hwb]]. subst op.
    cbn [height] in Hf. cbn [firstToken] in Ht.
    destruct fuel as [|[|f2]]; try lia.
    cbn [restTokens] in Ha. rewrite tokensOf_first in Ha.
    change ((tok :: (firstToken rhs :: restTokens rhs) ++ [RP]) ++ ts)
      with (tok :: firstToken rhs :: (restTokens rhs ++ [RP]) ++ ts) in Ha.
    rewrite <- app_assoc in Ha. cbn [app] in Ha.
    destruct (ahead_next _ _ _ _ Ha) as [st1 [N1 [T1 A1]]]; [discriminate|].
    destruct (ahead_next _ _ _ _ A1) as [st2 [N2 [T2 A2]]]; [apply app_cons_not_nil|].
    destruct (IHr Hwb f2 st2 (RP :: ts) l') as [st3 [A3 P3]];
      [lia|assumption|discriminate|assumption|].
    destruct (ahead_next _ _ _ _ A3 Hne) as [st4 [N4 [T4 A4]]].
    exists st4. split; [exact A4|]. intros p.
    rewrite parse_lparen by (rewrite Ht; reflexivity).
    rewrite N1. cbn [bind].
    rewrite parse_operator by (rewrite T1; assumption).
    unfold Parser.PrefixExpression_new, Parser.currentPrecedence.
    rewrite N2, T1. cbn [bind].
    rewrite P3.
    destruct f2 as [|f3]; [lia|].
    rewrite parse_while_exit.
    2:{ rewrite (ahead_precedence _ _ _ _ A3).
        pose proof (operator_precedence_positive _ Hop). simpl. lia. }
    cbn [bind].
    rewrite parse_while_exit.
    2:{ rewrite (ahead_precedence _ _ _ _ A3). simpl. lia. }
    cbn [bind]. unfold Parser.expect.
    replace (Parser._next_token st3) with RP by (symmetry; apply A3).
    cbn [TokenType_eqb type RP]. rewrite N4. reflexivity.
  - destruct Hwb as [Hop [Hlit [Hwl Hwr]]]. subst op.
    cbn [height] in Hf. cbn [firstToken] in Ht.
    destruct fuel as [|[|[|f3]]]; try lia.
    cbn [restTokens] in Ha.
    rewrite (tokensOf_first lhs), (tokensOf_first rhs) in Ha.
    replace (((firstToken lhs :: restTokens lhs) ++
              tok :: (firstToken rhs :: restTokens rhs) ++ [RP]) ++ ts)
      with (firstToken lhs :: restTokens lhs ++
            tok :: firstToken rhs :: restTokens rhs ++ RP :: ts) in Ha.
    2:{ cbn [app]. f_equal. rewrite <- !app_assoc. cbn [app].
        rewrite <- !app_assoc. reflexivity. }
    destruct (ahead_next _ _ _ _ Ha) as [st1 [N1 [T1 A1]]]; [apply app_cons_not_nil|].
    destruct (IHl Hwl (S (S f3)) st1 (tok :: firstToken rhs :: restTokens rhs ++ RP :: ts) l')
      as [st2 [A2 P2]]; [lia|assumption|discriminate|assumption|].
    destruct (ahead_next _ _ _ _ A2) as [st3 [N3 [T3 A3]]]; [discriminate|].
    destruct (ahead_next _ _ _ _ A3) as [st4 [N4 [T4 A4]]]; [apply app_cons_not_nil|].
    destruct (IHr Hwr f3 st4 (RP :: ts) l') as [st5 [A5 P5]];
      [lia|assumption|discriminate|assumption|].
    destruct (ahead_next _ _ _ _ A5 Hne) as [st6 [N6 [T6 A6]]].
    exists st6. split; [exact A6|]. intros p.
    rewrite parse_lparen by (rewrite Ht; reflexivity).
    rewrite N1. cbn [bind].
    rewrite P2. rewrite parse_while_S.
    rewrite (ahead_precedence _ _ _ _ A2).
    pose proof (operator_precedence_positive _ Hop) as Hpos.
    replace (0 <? TokenPrecedence.get (type tok))%Z with true
      by (symmetry; apply Z.ltb_lt; lia).
    rewrite N3. cbn [bind]. rewrite T3, Hop.
    unfold Parser.InfixExpression_new, Parser.currentPrecedence.
    rewrite N4, T3. cbn [bind].
    rewrite P5.
    destruct f3 as [|f4]; [lia|].
    rewrite parse_while_exit.
    2:{ rewrite (ahead_precedence _ _ _ _ A5). simpl. lia. }
    cbn [bind].
    rewrite parse_while_exit.
    2:{ rewrite (ahead_precedence _ _ _ _ A5). simpl. lia. }
    cbn [bind]. unfold Parser.expect.
    replace (Parser._next_token st5) with RP by (symmetry; apply A5).
    cbn [TokenType_eqb type RP]. rewrite N6. reflexivity.
Qed.

(** *** Lexing a printed tree *)

Lemma emits_app l xs l1 ys l2 :
  emits l xs l1 -> emits l1 ys l2 -> emits l (xs ++ ys) l2.
Proof.
  intros H. induction H as [|l t l1 ts l3 Hn He IH]; intros Hy; [exact Hy|].
  simpl. econstructor; [eassumption|]. apply IH. assumption.
Qed.

Lemma dropWhile_pad pad c w :
  allWhitespace pad = true -> isWhitespaceChar c = false ->
  JSNumber.dropWhile isWhitespaceChar (pad ++ c :: w) = c :: w.
Proof.
  intros Hp Hc. induction pad as [|a pad IH]; cbn [app JSNumber.dropWhile].
  - rewrite Hc. reflexivity.
  - unfold allWhitespace in Hp. cbn [forallb] in Hp.
    apply andb_prop in Hp. destruct Hp as [Ha Hp].
    change (isWhitespaceChar a) with (Lexer.isWhitespace (Some a)).
    rewrite Ha. apply IH. assumption.
Qed.

Lemma run_then_boundary run r :
  forallb isNumberChar run = true -> boundary r ->
  JSNumber.takeWhile isNumberChar (run ++ r) = run /\
  JSNumber.dropWhile isNumberChar (run ++ r) = r.
Proof.
  intros Hrun Hr. induction run as [|a run IH]; cbn [app].
  - destruct r as [|c r]; [split; reflexivity|]. cbn [boundary] in Hr.
    cbn [JSNumber.takeWhile JSNumber.dropWhile]. rewrite Hr. split; reflexivity.
  - cbn [forallb] in Hrun. apply andb_prop in Hrun. destruct Hrun as [Ha Hrun].
    cbn [JSNumber.takeWhile JSNumber.dropWhile].
    rewrite Ha. destruct (IH Hrun) as [H1 H2]. rewrite H1, H2. split; reflexivity.
Qed.

Lemma scan_after_pad pad c w :
  allWhitespace pad = true -> isWhitespaceChar c = false ->
  scan (pad ++ c :: w) =
  match Lexer.punctuator [c] with
  | Some ty => Ok (mkToken ty [c], w)
  | None =>
      let lit := c :: JSNumber.takeWhile isNumberChar w in
      if JSNumber.isNaN_ToNumber lit then Throw (InvalidNumberToken lit)
      else Ok (mkToken NUMBER lit, JSNumber.dropWhile isNumberChar w)
  end.
Proof.
  intros Hp Hc. unfold scan. rewrite (dropWhile_pad pad c w Hp Hc).
  destruct (pad ++ c :: w) eqn:E; [|reflexivity].
  destruct pad; discriminate.
Qed.

Lemma punctuator_single s ty :
  Lexer.punctuator s = Some ty ->
  exists c, s = [c] /\ isWhitespaceChar c = false /\ isNumberChar c = false.
Proof.
  destruct s as [|c s]; [discriminate|].
  destruct c as [[] [] [] [] [] [] [] []]; simpl; try discriminate;
    destruct s; simpl; try discriminate;
    intros _; eexists; repeat split; reflexivity.
Qed.

Lemma emits_one inp pos t w' :
  scan (skipn pos inp) = Ok (t, w') ->
  exists pos', emits (at_pos inp pos) [t] (at_pos inp pos') /\ skipn pos' inp = w'.
Proof.
  intros H. pose proof (nextToken_scan inp pos) as N. rewrite H in N.
  destruct N as [pos' [N1 N2]]. exists pos'. split; [|assumption].
  econstructor; [exact N1|constructor].
Qed.

Lemma token_eta (t : Token) : t = mkToken (type t) (literal t).
Proof. destruct t; reflexivity. Qed.

Lemma emits_punctuator inp pos pad c w ty :
  skipn pos inp = pad ++ c :: w ->
  allWhitespace pad = true ->
  Lexer.punctuator [c] = Some ty ->
  exists pos', emits (at_pos inp pos) [mkToken ty [c]] (at_pos inp pos') /\
               skipn pos' inp = w.
Proof.
  intros E Hp P. apply emits_one. rewrite E.
  destruct (punctuator_single _ _ P) as [c' [Ec [Hws _]]]. inversion Ec; subst c'.
  rewrite (scan_after_pad pad c w Hp Hws), P. reflexivity.
Qed.

Lemma emits_number inp pos pad n r :
  type n = NUMBER ->
  scannedNumber (literal n) = true ->
  skipn pos inp = pad ++ literal n ++ r ->
  allWhitespace pad = true ->
  boundary r ->
  exists pos', emits (at_pos inp pos) [n] (at_pos inp pos') /\ skipn pos' inp = r.
Proof.
  intros Hty Hsc E Hp Hr. apply emits_one. rewrite E.
  rewrite (token_eta n), Hty. cbn [literal] in *.
  destruct (literal n) as [|c run]; [discriminate|].
  cbn [scannedNumber] in Hsc.
  apply andb_prop in Hsc. destruct Hsc as [Hsc Hnan].
  apply andb_prop in Hsc. destruct Hsc as [Hsc Hrun].
  apply andb_prop in Hsc. destruct Hsc as [Hws Hpun].
  apply negb_true_iff in Hws. apply negb_true_iff in Hnan.
  cbn [app]. rewrite (scan_after_pad pad c (run ++ r) Hp Hws).
  destruct (Lexer.punctuator [c]); [discriminate|].
  destruct (run_then_boundary run r Hrun Hr) as [T D].
  cbv zeta. rewrite T, D, Hnan. reflexivity.
Qed.

(** The lexer reads the print of a tree back as the tokens of the tree,
    also after white space, up to the text that follows. *)
Lemma emits_printed e :
  wellBuilt e -> printable e ->
  forall inp pos pad r,
    allWhitespace pad = true ->
    boundary r ->
    skipn pos inp = pad ++ print e ++ r ->
    exists pos', emits (at_pos inp pos) (tokensOf e) (at_pos inp pos') /\
                 skipn pos' inp = r.
Proof.
  induction e as [n v|tok op rhs IHr|tok op lhs IHl rhs IHr];
    intros Hwb Hpr inp pos pad r Hp Hr E.
  - destruct Hwb as [Hty _]. cbn [print] in E. cbn [printable] in Hpr.
    apply (emits_number inp pos pad n r); assumption.
  - destruct Hwb as [_ [Hop Hwb]]. destruct Hpr as [Hpun Hpr]. subst op.
    destruct (punctuator_single _ _ Hpun) as [oc [Elit [Hws Hnum]]].
    cbn [print] in E. rewrite Elit in E, Hpun.
    replace (pad ++ ("(" :: [oc] ++ print rhs ++ [")"]) ++ r)
      with (pad ++ "(" :: ([] ++ oc :: ([] ++ print rhs ++ ")" :: r))) in E
      by (cbn [app]; rewrite <- !app_assoc; reflexivity).
    destruct (emits_punctuator _ _ _ _ _ LPAREN E Hp eq_refl) as [p1 [M1 E1]].
    destruct (emits_punctuator _ _ _ _ _ _ E1 eq_refl Hpun) as [p2 [M2 E2]].
    destruct (IHr Hwb Hpr inp p2 [] (")" :: r) eq_refl eq_refl E2) as [p3 [M3 E3]].
    destruct (emits_punctuator inp p3 [] ")" r RPAREN E3 eq_refl eq_refl) as [p4 [M4 E4]].
    exists p4. split; [|assumption].
    cbn [tokensOf].
    change (LP :: tok :: tokensOf rhs ++ [RP]) with ([LP] ++ [tok] ++ tokensOf rhs ++ [RP]).
    rewrite (token_eta tok), Elit.
    eapply emits_app; [exact M1|]. eapply emits_app; [exact M2|].
    eapply emits_app; [exact M3|exact M4].
  - destruct Hwb as [_ [Hop [Hwl Hwr]]]. destruct Hpr as [Hpun [Hpl Hprr]]. subst op.
    destruct (punctuator_single _ _ Hpun) as [oc [Elit [Hws Hnum]]].
    cbn [print] in E. rewrite Elit in E, Hpun.
    replace (pad ++ ("(" :: print lhs ++ " " :: [oc] ++ " " :: print rhs ++ [")"]) ++ r)
      with (pad ++ "(" :: ([] ++ print lhs ++
              (" " :: oc :: ([" "] ++ print rhs ++ ")" :: r)))) in E
      by (cbn [app]; rewrite <- !app_assoc; cbn [app]; rewrite <- !app_assoc;
          reflexivity).
    destruct (emits_punctuator _ _ _ _ _ LPAREN E Hp eq_refl) as [p1 [M1 E1]].
    destruct (IHl Hwl Hpl inp p1 [] (" " :: oc :: [" "] ++ print rhs ++ ")" :: r)
                eq_refl eq_refl E1) as [p2 [M2 E2]].
    destruct (emits_punctuator inp p2 [" "] oc _ _ E2 eq_refl Hpun) as [p3 [M3 E3]].
    destruct (IHr Hwr Hprr inp p3 [" "] (")" :: r) eq_refl eq_refl E3) as [p4 [M4 E4]].
    destruct (emits_punctuator inp p4 [] ")" r RPAREN E4 eq_refl eq_refl) as [p5 [M5 E5]].
    exists p5. split; [|assumption].
    cbn [tokensOf].
    change (LP :: tokensOf lhs ++ tok :: tokensOf rhs ++ [RP])
      with ([LP] ++ tokensOf lhs ++ [tok] ++ tokensOf rhs ++ [RP]).
    rewrite (token_eta tok), Elit.
    eapply emits_app; [exact M1|]. eapply emits_app; [exact M2|].
    eapply emits_app; [exact M3|]. eapply emits_app; [exact M4|exact M5].
Qed.

(** *** What the parser builds from the lexer's tokens *)

Lemma dropWhile_head f s c w : JSNumber.dropWhile f s = c :: w -> f c = false.
Proof.
  induction s as [|a s IH]; cbn [JSNumber.dropWhile]; [discriminate|].
  destruct (f a) eqn:F; [assumption|]. intros E. inversion E; subst. assumption.
Qed.

Lemma forallb_takeWhile f s : forallb f (JSNumber.takeWhile f s) = true.
Proof.
  induction s as [|a s IH]; cbn [JSNumber.takeWhile]; [reflexivity|].
  destruct (f a) eqn:F; [|reflexivity]. cbn [forallb]. rewrite F, IH. reflexivity.
Qed.

Lemma scan_scanned w t w' : scan w = Ok (t, w') -> scanned t.
Proof.
  unfold scan. destruct w as [|a w].
  - intros E. inversion E. exact I.
  - destruct (JSNumber.dropWhile isWhitespaceChar (a :: w)) as [|c w0] eqn:D.
    + intros E. inversion E. left. reflexivity.
    + destruct (Lexer.punctuator [c]) as [ty|] eqn:P.
      * intros E. inversion E; subst. unfold scanned. cbn [type literal].
        destruct (punctuator_not_number _ _ P) as [H1 [H2 _]].
        destruct ty; try assumption; contradiction.
      * cbv zeta. destruct (JSNumber.isNaN_ToNumber _) eqn:V; intros E; inversion E; subst.
        right. cbn [literal scannedNumber].
        rewrite (dropWhile_head _ _ _ _ D), P, forallb_takeWhile, V. reflexivity.
Qed.

Lemma cursorOk_at inp pos : cursorOk (at_pos inp pos).
Proof. split; reflexivity. Qed.

Lemma nextToken_scanned l t l' :
  cursorOk l -> Lexer.nextToken l = Ok (t, l') -> scanned t /\ cursorOk l'.
Proof.
  intros Hc E. rewrite (cursorOk_at_pos l Hc) in E.
  pose proof (nextToken_scan (Lexer.input l) (Lexer._pos l)) as N.
  destruct (scan _) as [[t0 w0]|err|] eqn:S.
  - destruct N as [pos' [N1 N2]]. rewrite N1 in E. inversion E; subst.
    split; [eapply scan_scanned; eassumption|apply cursorOk_at].
  - rewrite N in E. discriminate.
  - contradiction.
Qed.

Lemma next_stateOk st st' : stateOk st -> Parser.next st = Ok st' -> stateOk st'.
Proof.
  intros [Hc [Ht Hn]]. unfold Parser.next.
  destruct (Lexer.nextToken (Parser.lexer st)) as [[t l]|err|] eqn:E; try discriminate.
  cbn [bind]. intros H. inversion H; subst.
  destruct (nextToken_scanned _ _ _ Hc E) as [S C].
  split; [|split]; assumption.
Qed.

Lemma new_stateOk s st : Parser.new (Lexer.new s) = Ok st -> stateOk st.
Proof.
  unfold Parser.new.
  destruct (Lexer.nextToken (Lexer.new s)) as [[t1 l1]|err|] eqn:E1; try discriminate.
  cbn [bind].
  destruct (Lexer.nextToken l1) as [[t2 l2]|err|] eqn:E2; try discriminate.
  cbn [bind]. intros H. inversion H; subst.
  destruct (nextToken_scanned _ _ _ (cursorOk_at s 0) E1) as [S1 C1].
  destruct (nextToken_scanned _ _ _ C1 E2) as [S2 C2].
  split; [|split]; assumption.
Qed.

Lemma bind_Ok {A B : Type} (m : result A) (k : A -> result B) b :
  bind m k = Ok b -> exists a, m = Ok a /\ k a = Ok b.
Proof. destruct m as [a|err|]; cbn [bind]; try discriminate. eauto. Qed.

Section BuildsWellStep.

Variable fuel : nat.
Hypothesis IH : builds_well fuel.

Lemma PrefixExpression_new_builds_well st e st' :
  stateOk st ->
  Parser.isOperator (type (Parser._token st)) = true ->
  Parser.PrefixExpression_new (Parser.parse fuel) st = Ok (e, st') ->
  (wellBuilt e /\ scannedTree e) /\ stateOk st'.
Proof.
  intros Hs Hop E. unfold Parser.PrefixExpression_new in E.
  apply bind_Ok in E. destruct E as [st1 [N E]].
  apply bind_Ok in E. destruct E as [[rhs st2] [P E]]. inversion E; subst.
  destruct (proj1 IH _ _ _ _ (next_stateOk _ _ Hs N) P) as [[W S] Hs2].
  split; [|assumption]. cbn [wellBuilt scannedTree].
  split; [split; [assumption|split; [reflexivity|assumption]]|].
  split; [apply Hs|assumption].
Qed.

Lemma InfixExpression_new_builds_well lhs st e st' :
  stateOk st ->
  wellBuilt lhs /\ scannedTree lhs ->
  Parser.isOperator (type (Parser._token st)) = true ->
  Parser.InfixExpression_new (Parser.parse fuel) lhs st = Ok (e, st') ->
  (wellBuilt e /\ scannedTree e) /\ stateOk st'.
Proof.
  intros Hs [Wl Sl] Hop E. unfold Parser.InfixExpression_new in E.
  apply bind_Ok in E. destruct E as [st1 [N E]].
  apply bind_Ok in E. destruct E as [[rhs st2] [P E]]. inversion E; subst.
  destruct (proj1 IH _ _ _ _ (next_stateOk _ _ Hs N) P) as [[W S] Hs2].
  split; [|assumption]. cbn [wellBuilt scannedTree].
  split; [split; [assumption|split; [reflexivity|split; assumption]]|].
  split; [apply Hs|split; assumption].
Qed.

Lemma parseGroup_builds_well st e st' :
  stateOk st ->
  Parser.parseGroup (Parser.parse fuel) st = Ok (e, st') ->
  (wellBuilt e /\ scannedTree e) /\ stateOk st'.
Proof.
  intros Hs E. unfold Parser.parseGroup in E.
  apply bind_Ok in E. destruct E as [st1 [N E]].
  apply bind_Ok in E. destruct E as [[e1 st2] [P E]].
  apply bind_Ok in E. destruct E as [st3 [X E]]. inversion E; subst.
  destruct (proj1 IH _ _ _ _ (next_stateOk _ _ Hs N) P) as [G Hs2].
  split; [assumption|]. unfold Parser.expect in X.
  destruct (TokenType_eqb _ _); [|discriminate].
  eapply next_stateOk; eassumption.
Qed.

Lemma parse_while_builds_well p lhs st e st' :
  stateOk st -> wellBuilt lhs /\ scannedTree lhs ->
  Parser.parse_while (S fuel) p lhs st = Ok (e, st') ->
  (wellBuilt e /\ scannedTree e) /\ stateOk st'.
Proof.
  intros Hs G E. rewrite parse_while_S in E.
  destruct (p <? Parser.nextPrecedence st)%Z.
  2:{ inversion E; subst. split; assumption. }
  apply bind_Ok in E. destruct E as [st1 [N E]].
  destruct (Parser.isOperator (type (Parser._token st1))) eqn:Hop; [|discriminate].
  apply bind_Ok in E. destruct E as [[lhs' st2] [X E]].
  destruct (InfixExpression_new_builds_well _ _ _ _ (next_stateOk _ _ Hs N) G Hop X)
    as [G' Hs2].
  exact (proj2 IH _ _ _ _ _ Hs2 G' E).
Qed.

Lemma parse_step_builds_well p st e st' :
  stateOk st ->
  Parser.parse (S fuel) p st = Ok (e, st') ->
  (wellBuilt e /\ scannedTree e) /\ stateOk st'.
Proof.
  intros Hs E. rewrite parse_S in E.
  apply bind_Ok in E. destruct E as [[lhs st1] [P E]].
  assert (G : (wellBuilt lhs /\ scannedTree lhs) /\ stateOk st1).
  { destruct (type (Parser._token st)) eqn:Ty;
      try (eapply PrefixExpression_new_builds_well;
           [exact Hs|rewrite Ty; reflexivity|exact P]);
      try (eapply parseGroup_builds_well; [exact Hs|exact P]);
      unfold Parser.NumberExpression_new in P; rewrite Ty in P;
      try discriminate.
    cbn [bind] in P. inversion P; subst.
    split; [|assumption]. cbn [wellBuilt scannedTree].
    split; [split; [assumption|reflexivity]|apply Hs]. }
  destruct G as [G Hs1]. exact (proj2 IH _ _ _ _ _ Hs1 G E).
Qed.

End BuildsWellStep.

Lemma parse_builds_well fuel : builds_well fuel.
Proof.
  induction fuel as [|fuel IH].
  - split; intros; discriminate.
  - split.
    + intros p st e st'. apply parse_step_builds_well. assumption.
    + intros p lhs st e st'. apply parse_while_builds_well. assumption.
Qed.

Lemma printable_of_scanned e :
  wellBuilt e -> scannedTree e -> noEmptyLiteral e -> printable e.
Proof.
  assert (Op : forall tok, Parser.isOperator (type tok) = true -> scanned tok ->
                           Lexer.punctuator (literal tok) = Some (type tok)).
  { intros tok Hop Hs. unfold scanned in Hs.
    destruct (type tok); try discriminate; assumption. }
  induction e as [n v|tok op rhs IHr|tok op lhs IHl rhs IHr];
    cbn [wellBuilt scannedTree noEmptyLiteral printable].
  - intros [Ty _] Hs Hne. unfold scanned in Hs. rewrite Ty in Hs.
    destruct Hs as [Hs|Hs]; [contradiction|assumption].
  - intros [Hop [_ W]] [Hs S] Hne. split; [apply Op; assumption|]. apply IHr; assumption.
  - intros [Hop [_ [Wl Wr]]] [Hs [Sl Sr]] [Nl Nr].
    split; [apply Op; assumption|]. split; [apply IHl|apply IHr]; assumption.
Qed.

(** *** Round trip *)

Lemma new_emits l a ts l' :
  emits l (a :: ts) l' -> ts <> [] ->
  exists st, Parser.new l = Ok st /\ Parser._token st = a /\ ahead st ts l'.
Proof.
  intros He Hne. destruct ts as [|b ts]; [contradiction|].
  inversion He as [|? ? l1 ? ? N1 He1]; subst.
  inversion He1 as [|? ? l2 ? ? N2 He2]; subst.
  eexists. split; [unfold Parser.new; rewrite N1; cbn [bind]; rewrite N2; reflexivity|].
  split; [reflexivity|]. split; [reflexivity|assumption].
Qed.

(** Whatever fuel is enough gives the outcome that [parseString] gives. *)
Lemma parseString_any_fuel s st fuel e st' :
  Parser.new (Lexer.new s) = Ok st ->
  Parser.parse fuel 0 st = Ok (e, st') ->
  parseString s = Ok e.
Proof.
  intros N P. unfold parseString. rewrite N. cbn [bind].
  assert (T : Parser.parse (fuelFor s) 0 st <> OutOfFuel).
  { apply (proj1 (terminates_within_fuel (fuelFor s))).
    pose proof (new_pending s st N). unfold fuelFor. lia. }
  destruct (Nat.le_ge_cases fuel (fuelFor s)) as [L|L].
  - rewrite (more_fuel fuel (fuelFor s) 0 st); [rewrite P; reflexivity| |assumption].
    rewrite P. discriminate.
  - rewrite <- (more_fuel (fuelFor s) fuel 0 st T L). rewrite P. reflexivity.
Qed.

(** A well-built tree of validated, non-empty tokens is what the program
    reads back from its print. *)
Lemma printed_tree_parses e :
  wellBuilt e -> printable e -> parseString (print e) = Ok e.
Proof.
  intros W Pr.
  destruct (emits_printed e W Pr (print e) 0 [] [] eq_refl I) as [p1 [M1 E1]].
  { cbn [skipn app]. rewrite app_nil_r. reflexivity. }
  destruct (emits_one (print e) p1 (mkToken EOF []) []) as [p2 [M2 E2]].
  { rewrite E1. reflexivity. }
  pose proof (emits_app _ _ _ _ _ M1 M2) as M. rewrite tokensOf_first in M.
  cbn [app] in M.
  destruct (new_emits _ _ _ _ M (app_cons_not_nil _ _ _)) as [st [N [T A]]].
  destruct (parse_printed_tokens e W (S (3 * height e)) st [mkToken EOF []] (at_pos (print e) p2))
    as [st' [A' P']]; [lia|assumption|discriminate|assumption|].
  apply (parseString_any_fuel (print e) st (S (S (3 * height e))) e st' N).
  rewrite P'. apply parse_while_exit.
  rewrite (ahead_precedence _ _ _ _ A'). simpl. lia.
Qed.

(** Away from the empty literal the round trip holds: if an input parses to
    a tree none of whose leaves has an empty literal, the print of the tree
    parses to the same tree. *)
Lemma reparse_without_empty_literal s e :
  parseString s = Ok e -> noEmptyLiteral e -> parseString (print e) = Ok e.
Proof.
  intros P Hne. unfold parseString in P.
  apply bind_Ok in P. destruct P as [st [N P]].
  apply bind_Ok in P. destruct P as [[e0 st'] [P E]]. inversion E; subst e0.
  destruct (proj1 (parse_builds_well (fuelFor s)) _ _ _ _ (new_stateOk s st N) P)
    as [[W S] _].
  apply printed_tree_parses; [assumption|].
  apply printable_of_scanned; assumption.
Qed.

(** *** The parse is a function of the tokens *)

Lemma unread_at_pos inp pos : unread (at_pos inp pos) = skipn pos inp.
Proof. reflexivity. Qed.

Lemma nextToken_unread l :
  cursorOk l ->
  match scan (unread l) with
  | Ok (t, w') =>
      exists l', Lexer.nextToken l = Ok (t, l') /\ cursorOk l' /\ unread l' = w'
  | Throw e => Lexer.nextToken l = Throw e
  | OutOfFuel => False
  end.
Proof.
  destruct l as [inp c pos np]. intros [H1 H2]. cbn in H1, H2. subst.
  change (Lexer.mk inp (nth_error inp pos) pos (S pos)) with (at_pos inp pos).
  rewrite unread_at_pos.
  pose proof (nextToken_scan inp pos) as N.
  destruct (scan (skipn pos inp)) as [[t w']|err|]; try exact N.
  destruct N as [pos' [N1 N2]]. exists (at_pos inp pos').
  split; [exact N1|]. split; [apply cursorOk_at|exact N2].
Qed.

Lemma agree_bind {A B : Type} (RA : A -> A -> Prop) (RB : B -> B -> Prop)
      (m1 m2 : result A) (k1 k2 : A -> result B) :
  agree RA m1 m2 ->
  (forall a1 a2, RA a1 a2 -> agree RB (k1 a1) (k2 a2)) ->
  agree RB (bind m1 k1) (bind m2 k2).
Proof.
  intros Hm Hk.
  destruct m1 as [a1|e1|], m2 as [a2|e2|]; cbn [agree bind] in *; auto; contradiction.
Qed.

Lemma nextToken_sameScan l1 l2 :
  cursorOk l1 -> cursorOk l2 -> sameScan (unread l1) (unread l2) ->
  agree (fun x y => fst x = fst y /\ cursorOk (snd x) /\ cursorOk (snd y) /\
                    sameScan (unread (snd x)) (unread (snd y)))
        (Lexer.nextToken l1) (Lexer.nextToken l2).
Proof.
  intros C1 C2 S.
  pose proof (nextToken_unread l1 C1) as N1.
  pose proof (nextToken_unread l2 C2) as N2.
  remember (unread l1) as u1 eqn:E1. remember (unread l2) as u2 eqn:E2.
  destruct S as [w|w1 w2 t r1 r2 S1 S2 SR|w1 w2 e S1 S2].
  - destruct (scan w) as [[t w']|err|].
    + destruct N1 as [l1' [M1 [K1 U1]]]. destruct N2 as [l2' [M2 [K2 U2]]].
      rewrite M1, M2. cbn [agree fst snd].
      split; [reflexivity|]. split; [assumption|]. split; [assumption|].
      rewrite U1, U2. apply sameScan_refl.
    + rewrite N1, N2. reflexivity.
    + contradiction.
  - rewrite S1 in N1. rewrite S2 in N2.
    destruct N1 as [l1' [M1 [K1 U1]]]. destruct N2 as [l2' [M2 [K2 U2]]].
    rewrite M1, M2. cbn [agree fst snd].
    split; [reflexivity|]. split; [assumption|]. split; [assumption|].
    rewrite U1, U2. assumption.
  - rewrite S1 in N1. rewrite S2 in N2. rewrite N1, N2. reflexivity.
Qed.

Lemma next_similar st1 st2 :
  similar st1 st2 -> agree similar (Parser.next st1) (Parser.next st2).
Proof.
  intros [T [N [C1 [C2 S]]]]. unfold Parser.next.
  eapply agree_bind; [apply nextToken_sameScan; eassumption|].
  intros [t1 l1] [t2 l2] [E [K1 [K2 S']]]. cbn [fst snd] in *. subst.
  cbn [agree]. unfold similar. cbn [Parser.lexer Parser._token Parser._next_token].
  split; [assumption|]. split; [reflexivity|]. split; [assumption|].
  split; assumption.
Qed.

Section SimulationStep.

Variable fuel : nat.
Hypothesis IH : simulates fuel.

Lemma currentPrecedence_similar st1 st2 :
  similar st1 st2 -> Parser.currentPrecedence st1 = Parser.currentPrecedence st2.
Proof. intros [T _]. unfold Parser.currentPrecedence. rewrite T. reflexivity. Qed.

Lemma PrefixExpression_new_similar st1 st2 :
  similar st1 st2 ->
  agree sameTree (Parser.PrefixExpression_new (Parser.parse fuel) st1)
                 (Parser.PrefixExpression_new (Parser.parse fuel) st2).
Proof.
  intros S. unfold Parser.PrefixExpression_new.
  rewrite (currentPrecedence_similar _ _ S). destruct S as [T S'].
  rewrite T. eapply agree_bind; [apply next_similar; split; assumption|].
  intros s1 s2 S1. eapply agree_bind; [apply (proj1 IH); assumption|].
  intros [e1 p1] [e2 p2] [E P]. cbn [fst snd] in E, P. subst.
  split; [reflexivity|assumption].
Qed.

Lemma InfixExpression_new_similar lhs st1 st2 :
  similar st1 st2 ->
  agree sameTree (Parser.InfixExpression_new (Parser.parse fuel) lhs st1)
                 (Parser.InfixExpression_new (Parser.parse fuel) lhs st2).
Proof.
  intros S. unfold Parser.InfixExpression_new.
  rewrite (currentPrecedence_similar _ _ S). destruct S as [T S'].
  rewrite T. eapply agree_bind; [apply next_similar; split; assumption|].
  intros s1 s2 S1. eapply agree_bind; [apply (proj1 IH); assumption|].
  intros [e1 p1] [e2 p2] [E P]. cbn [fst snd] in E, P. subst.
  split; [reflexivity|assumption].
Qed.

Lemma expect_similar ty st1 st2 :
  similar st1 st2 -> agree similar (Parser.expect ty st1) (Parser.expect ty st2).
Proof.
  intros S. unfold Parser.expect. pose proof S as [_ [N _]]. rewrite N.
  destruct (TokenType_eqb _ _); [apply next_similar; assumption|reflexivity].
Qed.

Lemma parseGroup_similar st1 st2 :
  similar st1 st2 ->
  agree sameTree (Parser.parseGroup (Parser.parse fuel) st1)
                 (Parser.parseGroup (Parser.parse fuel) st2).
Proof.
  intros S. unfold Parser.parseGroup.
  rewrite (currentPrecedence_similar _ _ S).
  eapply agree_bind; [apply next_similar; assumption|].
  intros s1 s2 S1. eapply agree_bind; [apply (proj1 IH); assumption|].
  intros [e1 p1] [e2 p2] [E P]. cbn [fst snd] in E, P. subst.
  eapply agree_bind; [apply expect_similar; eassumption|].
  intros q1 q2 Q. split; [reflexivity|assumption].
Qed.

Lemma parse_while_similar p lhs st1 st2 :
  similar st1 st2 ->
  agree sameTree (Parser.parse_while (S fuel) p lhs st1)
                 (Parser.parse_while (S fuel) p lhs st2).
Proof.
  intros S. rewrite !parse_while_S. unfold Parser.nextPrecedence.
  pose proof S as [_ [N _]]. rewrite N.
  destruct (p <? _)%Z; [|split; [reflexivity|assumption]].
  eapply agree_bind; [apply next_similar; assumption|].
  intros s1 s2 S1. pose proof S1 as [T1 _]. rewrite T1.
  destruct (Parser.isOperator _); [|reflexivity].
  eapply agree_bind; [apply InfixExpression_new_similar; assumption|].
  intros [e1 p1] [e2 p2] [E P]. cbn [fst snd] in E, P. subst.
  apply (proj2 IH). assumption.
Qed.

Lemma parse_similar p st1 st2 :
  similar st1 st2 ->
  agree sameTree (Parser.parse (S fuel) p st1) (Parser.parse (S fuel) p st2).
Proof.
  intros S. rewrite !parse_S. pose proof S as [T _].
  eapply agree_bind with (RA := sameTree).
  2:{ intros [e1 p1] [e2 p2] [E P]. cbn [fst snd] in E, P. subst.
      apply (proj2 IH). assumption. }
  rewrite T.
  destruct (type (Parser._token st2));
    try (apply PrefixExpression_new_similar; assumption);
    try (apply parseGroup_similar; assumption);
    (eapply agree_bind with (RA := eq);
     [destruct (Parser.NumberExpression_new _); reflexivity|];
     intros a1 a2 E; subst; split; [reflexivity|assumption]).
Qed.

End SimulationStep.

(** Parser states that hold the same tokens over lexers that give the same
    tokens have the same outcome: the same tree, or the same failure. *)
Lemma parse_simulation fuel : simulates fuel.
Proof.
  induction fuel as [|fuel IH].
  - split; intros; exact I.
  - split.
    + intros p st1 st2. apply parse_similar. assumption.
    + intros p lhs st1 st2. apply parse_while_similar. assumption.
Qed.

Lemma new_similar l1 l2 :
  cursorOk l1 -> cursorOk l2 -> sameScan (unread l1) (unread l2) ->
  agree similar (Parser.new l1) (Parser.new l2).
Proof.
  intros C1 C2 S. unfold Parser.new.
  eapply agree_bind; [apply nextToken_sameScan; eassumption|].
  intros [t1 a1] [t2 a2] [E [K1 [K2 S1]]]. cbn [fst snd] in E, K1, K2, S1. subst.
  eapply agree_bind; [apply nextToken_sameScan; eassumption|].
  intros [u1 b1] [u2 b2] [E [J1 [J2 S2]]]. cbn [fst snd] in E, J1, J2, S2. subst.
  cbn [agree]. unfold similar. cbn [Parser.lexer Parser._token Parser._next_token].
  split; [reflexivity|]. split; [reflexivity|]. split; [assumption|].
  split; assumption.
Qed.

Lemma parse_enough_fuel s st fuel :
  Parser.new (Lexer.new s) = Ok st -> fuelFor s <= fuel ->
  Parser.parse fuel 0 st = Parser.parse (fuelFor s) 0 st.
Proof.
  intros N L. apply more_fuel; [|assumption].
  apply (proj1 (terminates_within_fuel (fuelFor s))).
  pose proof (new_pending s st N). unfold fuelFor. lia.
Qed.

(** Inputs that lex alike have the same outcome. *)
Lemma parseString_sameScan s1 s2 :
  sameScan s1 s2 -> parseString s1 = parseString s2.
Proof.
  intros S. unfold parseString.
  pose proof (new_similar (Lexer.new s1) (Lexer.new s2)
                (cursorOk_at s1 0) (cursorOk_at s2 0) S) as N.
  destruct (Parser.new (Lexer.new s1)) as [st1|e1|] eqn:N1;
    destruct (Parser.new (Lexer.new s2)) as [st2|e2|] eqn:N2;
    cbn [agree] in N; try contradiction; cbn [bind]; [|congruence|reflexivity].
  rewrite <- (parse_enough_fuel s1 st1 (Nat.max (fuelFor s1) (fuelFor s2)) N1)
    by apply Nat.le_max_l.
  rewrite <- (parse_enough_fuel s2 st2 (Nat.max (fuelFor s1) (fuelFor s2)) N2)
    by apply Nat.le_max_r.
  pose proof (proj1 (parse_simulation (Nat.max (fuelFor s1) (fuelFor s2))) 0%Z st1 st2 N)
    as A.
  destruct (Parser.parse _ 0 st1) as [[x1 y1]|err1|];
    destruct (Parser.parse _ 0 st2) as [[x2 y2]|err2|];
    cbn [agree] in A; try contradiction; cbn [bind].
  - destruct A as [E _]. cbn [fst] in E. subst. reflexivity.
  - subst. reflexivity.
  - reflexivity.
Qed.

(** *** White space before a token *)

Lemma dropWhile_app_all f pad s :
  forallb f pad = true ->
  JSNumber.dropWhile f (pad ++ s) = JSNumber.dropWhile f s.
Proof.
  induction pad as [|a pad IH]; cbn [app forallb JSNumber.dropWhile]; [reflexivity|].
  intros H. apply andb_prop in H. destruct H as [Ha H]. rewrite Ha. apply IH. assumption.
Qed.

Lemma scan_leading_whitespace pad b :
  b <> [] -> allWhitespace pad = true -> scan (pad ++ b) = scan b.
Proof.
  intros Hb Hp. unfold scan.
  rewrite (dropWhile_app_all isWhitespaceChar pad b Hp).
  destruct b as [|c b]; [contradiction|].
  destruct (pad ++ c :: b) eqn:E; [destruct pad; discriminate|reflexivity].
Qed.

Lemma scan_not_OutOfFuel w : scan w <> OutOfFuel.
Proof.
  unfold scan. destruct w as [|a w]; [discriminate|].
  destruct (JSNumber.dropWhile isWhitespaceChar (a :: w)) as [|c w']; [discriminate|].
  destruct (Lexer.punctuator [c]); [discriminate|].
  cbv zeta. destruct (JSNumber.isNaN_ToNumber _); discriminate.
Qed.

Lemma sameScan_of_equal_scan w1 w2 :
  scan w1 = scan w2 -> sameScan w1 w2.
Proof.
  intros E. destruct (scan w2) as [[t r]|e|] eqn:S.
  - eapply sameScan_token; [eassumption|eassumption|apply sameScan_refl].
  - eapply sameScan_throw; eassumption.
  - exfalso. exact (scan_not_OutOfFuel w2 S).
Qed.

Lemma whitespace_not_number c :
  isWhitespaceChar c = true -> isNumberChar c = false.
Proof. destruct c as [[] [] [] [] [] [] [] []]; cbn; intros H; try discriminate; reflexivity. Qed.

Lemma boundary_after_pad x pad b :
  boundary (x ++ b) -> allWhitespace pad = true -> boundary (x ++ pad ++ b).
Proof.
  intros H Hp. destruct x as [|c x]; [|exact H]. cbn [app] in *.
  destruct pad as [|a pad]; [exact H|]. cbn [app boundary].
  unfold allWhitespace in Hp. cbn [forallb] in Hp. apply andb_prop in Hp.
  apply whitespace_not_number. apply Hp.
Qed.

(** What a token takes from the unread characters does not depend on what
    follows it, as long as a number is not followed by a digit or a dot. *)
Lemma scan_local w t r :
  scan w = Ok (t, r) -> literal t <> [] ->
  exists taken,
    w = taken ++ r /\
    (type t = NUMBER -> boundary r) /\
    forall r', (type t = NUMBER -> boundary r') -> scan (taken ++ r') = Ok (t, r').
Proof.
  unfold scan at 1. destruct w as [|a w]; [intros E; inversion E; subst; contradiction|].
  pose proof (takeWhile_dropWhile isWhitespaceChar (a :: w)) as Split.
  pose proof (forallb_takeWhile isWhitespaceChar (a :: w)) as Pad.
  destruct (JSNumber.dropWhile isWhitespaceChar (a :: w)) as [|c w'] eqn:D;
    [intros E; inversion E; subst; contradiction|].
  pose proof (dropWhile_head _ _ _ _ D) as Hc.
  set (pad0 := JSNumber.takeWhile isWhitespaceChar (a :: w)) in *.
  destruct (Lexer.punctuator [c]) as [ty|] eqn:P.
  - intros E _. inversion E; subst. exists (pad0 ++ [c]).
    split; [rewrite <- app_assoc; symmetry; exact Split|].
    split.
    + cbn [type]. intros Ty. destruct (punctuator_not_number _ _ P) as [H _].
      contradiction.
    + intros r' _. rewrite <- app_assoc. cbn [app].
      rewrite (scan_after_pad pad0 c r' Pad Hc), P. reflexivity.
  - cbv zeta. destruct (JSNumber.isNaN_ToNumber _) eqn:V; intros E _; inversion E; subst.
    set (run := JSNumber.takeWhile isNumberChar w') in *.
    exists (pad0 ++ c :: run).
    split.
    { rewrite <- app_assoc. cbn [app]. unfold run. rewrite takeWhile_dropWhile.
      symmetry. exact Split. }
    split.
    { intros _. destruct (JSNumber.dropWhile isNumberChar w') as [|d w''] eqn:DN;
        [exact I|]. cbn [boundary]. eapply dropWhile_head. exact DN. }
    intros r' Hr'. rewrite <- app_assoc. cbn [app].
    rewrite (scan_after_pad pad0 c (run ++ r') Pad Hc), P. cbv zeta.
    destruct (run_then_boundary run r' (forallb_takeWhile _ _) (Hr' eq_refl)) as [T Dr].
    rewrite T, Dr, V. reflexivity.
Qed.

(** White space put where a token ends and another text begins changes no
    token. *)
Lemma sameScan_insert w b :
  reaches w b -> b <> [] ->
  forall pad, allWhitespace pad = true ->
  exists x, w = x ++ b /\ sameScan w (x ++ pad ++ b).
Proof.
  intros R Hb pad Hp. induction R as [w|w t r b S Hlit R IH].
  - exists []. split; [reflexivity|]. cbn [app].
    apply sameScan_of_equal_scan. symmetry. apply scan_leading_whitespace; assumption.
  - destruct (IH Hb) as [x [Er Sr]].
    destruct (scan_local w t r S Hlit) as [taken [Ew [Hbr Hloc]]].
    exists (taken ++ x). split; [rewrite <- app_assoc, <- Er; exact Ew|].
    rewrite <- app_assoc.
    eapply sameScan_token; [exact S| |exact Sr].
    apply Hloc. intros Ty. apply boundary_after_pad; [|assumption].
    rewrite <- Er. apply Hbr. assumption.
Qed.

(** White space inserted before a token, that is at the start of the input
    or where a token ends and the input goes on, changes neither the tree
    nor the failure. *)
Lemma whitespace_before_token pre b pad :
  reaches (pre ++ b) b -> b <> [] -> allWhitespace pad = true ->
  parseString (pre ++ pad ++ b) = parseString (pre ++ b).
Proof.
  intros R Hb Hp.
  destruct (sameScan_insert _ _ R Hb pad Hp) as [x [E S]].
  apply app_inv_tail in E. subst x.
  symmetry. apply parseString_sameScan. assumption.
Qed.

Lemma dropWhile_nil f s : JSNumber.dropWhile f s = [] -> forallb f s = true.
Proof.
  induction s as [|a s IH]; cbn [JSNumber.dropWhile forallb]; [reflexivity|].
  destruct (f a); [assumption|discriminate].
Qed.

(** The NUMBER tokens of the lexer: the literal is a number as
    [readNumber()] cuts it and the validation accepts it, or it is empty,
    and then white space and nothing else was left to read. *)
Lemma scan_number w t r :
  scan w = Ok (t, r) -> type t = NUMBER ->
  scannedNumber (literal t) = true \/
  (literal t = [] /\ w <> [] /\ allWhitespace w = true).
Proof.
  intros S Ty. pose proof (scan_scanned w t r S) as Sc. unfold scanned in Sc.
  rewrite Ty in Sc. destruct Sc as [E|Sc]; [|left; assumption]. right.
  split; [assumption|]. unfold scan in S. destruct w as [|a w].
  - inversion S; subst. discriminate.
  - split; [discriminate|].
    destruct (JSNumber.dropWhile isWhitespaceChar (a :: w)) as [|c w'] eqn:D.
    + apply dropWhile_nil in D. exact D.
    + destruct (Lexer.punctuator [c]) as [ty|] eqn:P.
      * inversion S; subst. discriminate.
      * cbv zeta in S. destruct (JSNumber.isNaN_ToNumber _); inversion S; subst.
        discriminate.
Qed.

(** The same, from the lexer itself: where [nextToken()] has returned
    tokens with a literal, a token has ended. *)
Lemma emits_reaches l ts l' :
  emits l ts l' -> cursorOk l -> Forall (fun t => literal t <> []) ts ->
  reaches (unread l) (unread l').
Proof.
  intros E. induction E as [l|l t l1 ts l2 N E IH]; intros Hc Hts.
  - apply reaches_here.
  - inversion Hts as [|? ? Ht Hts']; subst.
    pose proof (nextToken_unread l Hc) as U.
    destruct (scan (unread l)) as [[t0 w0]|err|] eqn:S.
    + destruct U as [l0 [N0 [C0 U0]]]. rewrite N in N0. inversion N0; subst.
      eapply reaches_next; [exact S|assumption|]. apply IH; assumption.
    + rewrite U in N. discriminate.
    + contradiction.
Qed.

(** ** The statements of the specification, C1 to C10 *)

(** C1. The parser honours the precedence of [*] over [+]: ["1 + 2 * 3"]
    prints as [(1 + (2 * 3))] and ["1 * 2 + 3"] as [((1 * 2) + 3)].  In
    general, with numbers [a], [b], [c] and operators [lo], [hi] of
    precedence [lo < hi] above the threshold, [a lo b hi c] gives
    [a lo (b hi c)] and [a hi b lo c] gives [(a hi b) lo c]. *)
Theorem precedence_of_multiply_over_plus :
  run (str "1 + 2 * 3") = Ok (str "(1 + (2 * 3))") /\
  run (str "1 * 2 + 3") = Ok (str "((1 * 2) + 3)") /\
  forall p lo hi b c te st l' fuel,
    type (Parser._token st) = NUMBER -> type b = NUMBER -> type c = NUMBER ->
    Parser.isOperator (type lo) = true -> Parser.isOperator (type hi) = true ->
    (p < TokenPrecedence.get (type lo))%Z ->
    (TokenPrecedence.get (type lo) < TokenPrecedence.get (type hi))%Z ->
    (TokenPrecedence.get (type te) <= p)%Z ->
    6 <= fuel ->
    let a := Parser._token st in
    let st' := {| Parser.lexer := l'; Parser._token := c; Parser._next_token := te |} in
    (ahead st [lo; b; hi; c; te] l' ->
     Parser.parse fuel p st = Ok (node lo (leaf a) (node hi (leaf b) (leaf c)), st')) /\
    (ahead st [hi; b; lo; c; te] l' ->
     Parser.parse fuel p st = Ok (node lo (node hi (leaf a) (leaf b)) (leaf c), st')).
Proof.
  split; [vm_compute; reflexivity|]. split; [vm_compute; reflexivity|].
  intros p lo hi b c te st l' fuel Ha Hb Hc Hlo Hhi Hp Hlh Hte Hf a st'.
  destruct fuel as [|[|[|[|[|f]]]]]; try lia.
  split; intros A.
  - destruct (ahead_next _ _ _ _ A) as [st1 [N1 [T1 A1]]]; [discriminate|].
    destruct (ahead_next _ _ _ _ A1) as [st2 [N2 [T2 A2]]]; [discriminate|].
    rewrite parse_number by assumption. rewrite parse_while_S.
    rewrite (ahead_precedence _ _ _ _ A).
    replace (p <? TokenPrecedence.get (type lo))%Z with true
      by (symmetry; apply Z.ltb_lt; assumption).
    rewrite N1. cbn [bind]. rewrite T1, Hlo.
    unfold Parser.InfixExpression_new, Parser.currentPrecedence. rewrite N2, T1.
    cbn [bind].
    rewrite (parse_chain (TokenPrecedence.get (type hi)) (TokenPrecedence.get (type lo))
               [(hi, c)] te st2 l');
      [|rewrite T2; assumption|repeat constructor; assumption|assumption|lia
       |exact A2|simpl; lia].
    cbn [bind]. rewrite T2. cbn [map last snd leftChain fold_left fst].
    rewrite parse_while_exit
      by (unfold Parser.nextPrecedence; cbn [Parser._next_token]; lia).
    reflexivity.
  - destruct (ahead_next _ _ _ _ A) as [st1 [N1 [T1 A1]]]; [discriminate|].
    destruct (ahead_next _ _ _ _ A1) as [st2 [N2 [T2 A2]]]; [discriminate|].
    destruct (ahead_next _ _ _ _ A2) as [st3 [N3 [T3 A3]]]; [discriminate|].
    destruct (ahead_next _ _ _ _ A3) as [st4 [N4 [T4 A4]]]; [discriminate|].
    rewrite parse_number by assumption. rewrite parse_while_S.
    rewrite (ahead_precedence _ _ _ _ A).
    replace (p <? TokenPrecedence.get (type hi))%Z with true
      by (symmetry; apply Z.ltb_lt; lia).
    rewrite N1. cbn [bind]. rewrite T1, Hhi.
    unfold Parser.InfixExpression_new at 1, Parser.currentPrecedence. rewrite N2, T1.
    cbn [bind].
    rewrite parse_number by (rewrite T2; assumption).
    rewrite parse_while_exit by (rewrite (ahead_precedence _ _ _ _ A2); lia).
    cbn [bind]. rewrite parse_while_S.
    rewrite (ahead_precedence _ _ _ _ A2).
    replace (p <? TokenPrecedence.get (type lo))%Z with true
      by (symmetry; apply Z.ltb_lt; assumption).
    rewrite N3. cbn [bind]. rewrite T3, Hlo.
    unfold Parser.InfixExpression_new, Parser.currentPrecedence. rewrite N4, T3.
    cbn [bind].
    rewrite parse_number by (rewrite T4; assumption).
    rewrite parse_while_exit by (rewrite (ahead_precedence _ _ _ _ A4); lia).
    cbn [bind].
    rewrite parse_while_exit by (rewrite (ahead_precedence _ _ _ _ A4); lia).
    rewrite T2, T4. unfold node, st'.
    destruct A4 as [E4 M4]. inversion M4; subst.
    destruct st4 as [l4 t4 n4]. cbn in *. subst. reflexivity.
Qed.

Lemma precedence_of_multiply_over_plus_witness :
  let plus := mkToken PLUS (str "+") in
  let times := mkToken MULTIPLY (str "*") in
  let one := mkToken NUMBER (str "1") in
  let two := mkToken NUMBER (str "2") in
  let three := mkToken NUMBER (str "3") in
  (exists st l',
      Parser.new (Lexer.new (str "1 + 2 * 3")) = Ok st /\
      Parser.parse 6 0 st =
      Ok (node plus (leaf one) (node times (leaf two) (leaf three)),
          {| Parser.lexer := l'; Parser._token := three;
             Parser._next_token := mkToken EOF [] |})) /\
  (exists st l',
      Parser.new (Lexer.new (str "1 * 2 + 3")) = Ok st /\
      Parser.parse 6 0 st =
      Ok (node plus (node times (leaf one) (leaf two)) (leaf three),
          {| Parser.lexer := l'; Parser._token := three;
             Parser._next_token := mkToken EOF [] |})).
Proof.
  intros plus times one two three. split.
  - eexists. eexists. split; [vm_compute; reflexivity|].
    refine (proj1 (proj2 (proj2 precedence_of_multiply_over_plus)
                     0%Z plus times two three (mkToken EOF []) _ _ 6
                     _ _ _ _ _ _ _ _ _) _);
      try reflexivity; try (simpl; lia).
    split; [reflexivity|].
    repeat (eapply emits_cons; [reflexivity|]). apply emits_nil.
  - eexists. eexists. split; [vm_compute; reflexivity|].
    refine (proj2 (proj2 (proj2 precedence_of_multiply_over_plus)
                     0%Z plus times two three (mkToken EOF []) _ _ 6
                     _ _ _ _ _ _ _ _ _) _);
      try reflexivity; try (simpl; lia).
    split; [reflexivity|].
    repeat (eapply emits_cons; [reflexivity|]). apply emits_nil.
Defined.

(** C2. Chains of operators of one precedence group to the left: after a
    number, any sequence [o1 n1 o2 n2 ...] of operators of equal precedence
    [q > p] and numbers, followed by a token that does not exceed the
    threshold [p], is folded into the left-hand side, because the loop
    continues only on a strictly greater precedence.  In particular
    ["8 / 4 / 2"] prints as [((8 / 4) / 2)], not [(8 / (4 / 2))]. *)
Theorem equal_precedence_chains_group_left :
  run (str "8 / 4 / 2") = Ok (str "((8 / 4) / 2)") /\
  run (str "8 / 4 / 2") <> Ok (str "(8 / (4 / 2))") /\
  forall q p ons te st l' fuel,
    type (Parser._token st) = NUMBER ->
    Forall (chainLink q) ons ->
    (p < q)%Z ->
    (TokenPrecedence.get (type te) <= p)%Z ->
    ahead st (chainTokens ons ++ [te]) l' ->
    length ons + 3 <= fuel ->
    Parser.parse fuel p st =
    Ok (leftChain (Parser._token st) ons,
        {| Parser.lexer := l';
           Parser._token := last (map snd ons) (Parser._token st);
           Parser._next_token := te |}).
Proof.
  split; [vm_compute; reflexivity|].
  split; [vm_compute; discriminate|].
  intros q p ons te st l' fuel Hn Hons Hp Hte Ha Hf.
  apply (parse_chain q); assumption.
Qed.

Lemma equal_precedence_chains_group_left_witness :
  let eight := mkToken NUMBER (str "8") in
  let four := mkToken NUMBER (str "4") in
  let two := mkToken NUMBER (str "2") in
  let slash := mkToken DIVIDE (str "/") in
  exists st l',
    Parser.new (Lexer.new (str "8 / 4 / 2")) = Ok st /\
    Parser.parse 5 0 st =
    Ok (InfixExpression slash (str "/")
          (InfixExpression slash (str "/") (leaf eight) (leaf four)) (leaf two),
        {| Parser.lexer := l'; Parser._token := two; Parser._next_token := mkToken EOF [] |}).
Proof.
  intros eight four two slash.
  eexists. eexists. split; [vm_compute; reflexivity|].
  apply (proj2 (proj2 equal_precedence_chains_group_left)
           8%Z 0%Z [(slash, four); (slash, two)] (mkToken EOF [])).
  - reflexivity.
  - repeat constructor.
  - lia.
  - simpl. lia.
  - split; [reflexivity|].
    repeat (eapply emits_cons; [reflexivity|]). apply emits_nil.
  - simpl. lia.
Defined.

(** C3. On [(] the parser reads a whole sub-expression with threshold 0,
    whatever the threshold [p] around it, then requires the next token to be
    [)].  (The code passes the precedence of [(], which is -1; no token has
    precedence 0, so [parse(-1)] and [parse(0)] are the same function.)  So
    ["(1 + 2) * 3"] prints as [((1 + 2) * 3)]. *)
Theorem group_is_parsed_at_zero_then_closed :
  (forall fuel st, Parser.parse fuel (-1) st = Parser.parse fuel 0 st) /\
  (forall fuel p st,
      type (Parser._token st) = LPAREN ->
      Parser.parse (S fuel) p st =
      (st1 <- Parser.next st ;;
       '(e, st2) <- Parser.parse fuel 0 st1 ;;
       st3 <- (if TokenType_eqb (type (Parser._next_token st2)) RPAREN
               then Parser.next st2
               else Throw (Expected RPAREN (type (Parser._next_token st2)))) ;;
       Parser.parse_while fuel p e st3)) /\
  run (str "(1 + 2) * 3") = Ok (str "((1 + 2) * 3)").
Proof.
  split; [exact parse_threshold|]. split.
  - intros fuel p st H. apply parse_lparen. assumption.
  - vm_compute. reflexivity.
Qed.

Lemma group_is_parsed_at_zero_then_closed_witness :
  exists st,
    Parser.new (Lexer.new (str "(1 + 2) * 3")) = Ok st /\
    type (Parser._token st) = LPAREN /\
    Parser.parse 8 0 st =
      (st1 <- Parser.next st ;;
       '(e, st2) <- Parser.parse 7 0 st1 ;;
       st3 <- (if TokenType_eqb (type (Parser._next_token st2)) RPAREN
               then Parser.next st2
               else Throw (Expected RPAREN (type (Parser._next_token st2)))) ;;
       Parser.parse_while 7 0 e st3).
Proof.
  eexists. split; [vm_compute; reflexivity|]. split; [reflexivity|].
  apply (proj1 (proj2 group_is_parsed_at_zero_then_closed)). reflexivity.
Defined.

(** C4. The operand of a prefix operator is parsed with that operator's own
    precedence as threshold.  So a prefix operator followed by a number and
    then by a token that does not exceed the operator's precedence takes
    exactly that number, and in ["-2 + 4.5 * 7 - -8"] each unary minus takes
    the number next to it (the following [+] and the end of input do not
    exceed 1): the tree prints as [(((-2) + (4.5 * 7)) - (-8))]. *)
Theorem prefix_operand_uses_operator_precedence :
  (forall fuel p st,
      Parser.isOperator (type (Parser._token st)) = true ->
      Parser.parse (S fuel) p st =
      (st1 <- Parser.next st ;;
       '(rhs, st2) <- Parser.parse fuel (TokenPrecedence.get (type (Parser._token st))) st1 ;;
       Parser.parse_while fuel p
         (PrefixExpression (Parser._token st) (literal (Parser._token st)) rhs) st2)) /\
  (forall fuel p st n te ts l',
      Parser.isOperator (type (Parser._token st)) = true ->
      type n = NUMBER ->
      (TokenPrecedence.get (type te) <= TokenPrecedence.get (type (Parser._token st)))%Z ->
      ahead st (n :: te :: ts) l' ->
      exists st1,
        Parser._token st1 = n /\ ahead st1 (te :: ts) l' /\
        Parser.parse (S (S (S fuel))) p st =
        Parser.parse_while (S (S fuel)) p
          (PrefixExpression (Parser._token st) (literal (Parser._token st)) (leaf n)) st1) /\
  run (str "-2 + 4.5 * 7 - -8") = Ok (str "(((-2) + (4.5 * 7)) - (-8))").
Proof.
  assert (G : forall fuel p st,
      Parser.isOperator (type (Parser._token st)) = true ->
      Parser.parse (S fuel) p st =
      (st1 <- Parser.next st ;;
       '(rhs, st2) <- Parser.parse fuel (TokenPrecedence.get (type (Parser._token st))) st1 ;;
       Parser.parse_while fuel p
         (PrefixExpression (Parser._token st) (literal (Parser._token st)) rhs) st2)).
  { intros fuel p st H. rewrite parse_operator by assumption.
    unfold Parser.PrefixExpression_new, Parser.currentPrecedence.
    destruct (Parser.next st) as [st1| |]; simpl; try reflexivity.
    destruct (Parser.parse fuel _ st1) as [[rhs st2]| |]; reflexivity. }
  split; [exact G|]. split; [|vm_compute; reflexivity].
  intros fuel p st n te ts l' Hop Hn Hte A.
  destruct (ahead_next _ _ _ _ A) as [st1 [N1 [T1 A1]]]; [discriminate|].
  exists st1. split; [assumption|]. split; [assumption|].
  rewrite G by assumption. rewrite N1. cbn [bind].
  rewrite parse_number by (rewrite T1; assumption).
  rewrite parse_while_exit by (rewrite (ahead_precedence _ _ _ _ A1); assumption).
  cbn [bind]. rewrite T1. reflexivity.
Qed.

Lemma prefix_operand_uses_operator_precedence_witness :
  exists st,
    Parser.new (Lexer.new (str "-2 + 4.5 * 7 - -8")) = Ok st /\
    Parser.isOperator (type (Parser._token st)) = true /\
    Parser.parse 9 0 st =
      (st1 <- Parser.next st ;;
       '(rhs, st2) <- Parser.parse 8 1 st1 ;;
       Parser.parse_while 8 0 (PrefixExpression (mkToken MINUS (str "-")) (str "-") rhs) st2) /\
    exists st1,
      Parser._token st1 = mkToken NUMBER (str "2") /\
      Parser.parse 9 0 st =
      Parser.parse_while 8 0
        (PrefixExpression (mkToken MINUS (str "-")) (str "-") (leaf (mkToken NUMBER (str "2"))))
        st1.
Proof.
  eexists. split; [vm_compute; reflexivity|].
  match goal with
  | |- Parser.isOperator (type (Parser._token ?s)) = true /\ _ => set (st := s)
  end.
  split; [reflexivity|].
  split; [apply (proj1 prefix_operand_uses_operator_precedence); reflexivity|].
  edestruct (proj1 (proj2 prefix_operand_uses_operator_precedence) 6 0%Z st
               (mkToken NUMBER (str "2")) (mkToken PLUS (str "+")) [])
    as [st1 [T1 [A1 P1]]].
  - reflexivity.
  - reflexivity.
  - simpl. lia.
  - split; [reflexivity|]. eapply emits_cons; [vm_compute; reflexivity|]. apply emits_nil.
  - exists st1. split; [exact T1|exact P1].
Defined.

(** The threshold of a prefix operator decides how far its operand extends:
    a unary minus (precedence 1) takes a following product whole, a unary
    [%] (precedence 9) takes the number only. *)
Example prefix_operand_extent :
  run (str "-2 * 3") = Ok (str "(-(2 * 3))") /\
  run (str "%2 * 3") = Ok (str "((%2) * 3)").
Proof. split; vm_compute; reflexivity. Qed.

(** C5 at the inputs [" "] and ["1 + "].  Both parse; the trees have a leaf
    with an empty literal and print as the empty string and as [(1 + )], and
    neither of these parses again.  The empty literal is the one obstacle:
    when no leaf of the tree has an empty literal, the print parses to the
    same tree, and so prints the same. *)
Theorem reparse_of_print_fails_on_empty_literal :
  (exists t, parseString (str " ") = Ok t /\ print t = [] /\
             parseString (print t) = Throw (ExpectedNumber EOF)) /\
  (exists t, parseString (str "1 + ") = Ok t /\ print t = str "(1 + )" /\
             parseString (print t) = Throw (ExpectedNumber RPAREN)) /\
  (forall s t,
      parseString s = Ok t ->
      noEmptyLiteral t ->
      parseString (print t) = Ok t /\ run (print t) = Ok (print t)).
Proof.
  split; [|split].
  - eexists. split; [vm_compute; reflexivity|]. split; vm_compute; reflexivity.
  - eexists. split; [vm_compute; reflexivity|]. split; vm_compute; reflexivity.
  - intros s t P Hne.
    assert (R : parseString (print t) = Ok t)
      by (eapply reparse_without_empty_literal; eassumption).
    split; [exact R|]. unfold run. rewrite R. reflexivity.
Qed.

Lemma reparse_of_print_fails_on_empty_literal_witness :
  exists t,
    parseString (str "-2 + 4.5 * 7 - -8") = Ok t /\
    noEmptyLiteral t /\
    print t = str "(((-2) + (4.5 * 7)) - (-8))" /\
    parseString (print t) = Ok t /\ run (print t) = Ok (print t).
Proof.
  eexists. split; [vm_compute; reflexivity|].
  split; [cbn; repeat split; discriminate|].
  split; [reflexivity|].
  apply (proj2 (proj2 reparse_of_print_fails_on_empty_literal) (str "-2 + 4.5 * 7 - -8")).
  - vm_compute. reflexivity.
  - cbn. repeat split; discriminate.
Defined.

(** C6, as stated, fails: the input ["("] has an opening parenthesis that is
    never closed, and the parse stops with
    [expected "NUMBER" but got "EOF"], not with the failure of [expect]. *)
Lemma unclosed_paren_counterexample :
  hasUnclosedParen (str "(") = true /\
  run (str "(") = Throw (ExpectedNumber EOF) /\
  ~ failsWith UnmatchedParenthesis (run (str "(")).
Proof.
  split; [reflexivity|]. split; [vm_compute; reflexivity|].
  intros [e [He Hc]]. vm_compute in He. inversion He; subst. discriminate.
Qed.

(** C6, amended.  When the sub-expression that follows a [(] is parsed to
    its end and the token after it is not [)], the parse stops with the
    failure of [expect(RPAREN)] and returns no tree; ["(1 + 2"] is such an
    input. *)
Theorem unclosed_group_fails_in_expect :
  (forall fuel p st st1 e st2,
      type (Parser._token st) = LPAREN ->
      Parser.next st = Ok st1 ->
      Parser.parse fuel 0 st1 = Ok (e, st2) ->
      type (Parser._next_token st2) <> RPAREN ->
      Parser.parse (S fuel) p st = Throw (Expected RPAREN (type (Parser._next_token st2))) /\
      failsWith UnmatchedParenthesis (Parser.parse (S fuel) p st)) /\
  run (str "(1 + 2") = Throw (Expected RPAREN EOF) /\
  failsWith UnmatchedParenthesis (run (str "(1 + 2")).
Proof.
  assert (G : forall fuel p st st1 e st2,
      type (Parser._token st) = LPAREN ->
      Parser.next st = Ok st1 ->
      Parser.parse fuel 0 st1 = Ok (e, st2) ->
      type (Parser._next_token st2) <> RPAREN ->
      Parser.parse (S fuel) p st = Throw (Expected RPAREN (type (Parser._next_token st2)))).
  { intros fuel p st st1 e st2 Hl Hn Hp Hr.
    rewrite parse_lparen by assumption.
    rewrite Hn. cbn [bind]. rewrite Hp. cbn [bind]. unfold Parser.expect.
    destruct (type (Parser._next_token st2)); try reflexivity. contradiction. }
  split; [|split].
  - intros fuel p st st1 e st2 Hl Hn Hp Hr. split; [eauto|].
    eexists. split; [eauto|reflexivity].
  - vm_compute. reflexivity.
  - eexists. split; [vm_compute; reflexivity|reflexivity].
Qed.

Lemma unclosed_group_fails_in_expect_witness :
  exists st st1 e st2,
    Parser.new (Lexer.new (str "(1 + 2")) = Ok st /\
    Parser.next st = Ok st1 /\
    Parser.parse 6 0 st1 = Ok (e, st2) /\
    print e = str "(1 + 2)" /\
    type (Parser._next_token st2) = EOF /\
    Parser.parse 7 0 st = Throw (Expected RPAREN (type (Parser._next_token st2))).
Proof.
  eexists. eexists. eexists. eexists.
  split; [vm_compute; reflexivity|].
  split; [vm_compute; reflexivity|].
  split; [vm_compute; reflexivity|].
  split; [reflexivity|]. split; [reflexivity|].
  eapply (proj1 unclosed_group_fails_in_expect 6 0%Z).
  - reflexivity.
  - vm_compute. reflexivity.
  - vm_compute. reflexivity.
  - discriminate.
Defined.




(** C8 at the input [" "] (and ["1 "]).  [readChar()] tests for the end of
    the input before it skips white space, so on white space at the end it
    falls through to [readNumber()], which returns the empty string; unary
    plus makes it 0, the validation lets it pass, and the lexer emits a
    NUMBER token whose literal has no digit.  (A carriage return, which
    [isWhitespace] does not skip and [+literal] trims, passes too: a
    carriage return and [1] make one NUMBER token.)  The rest holds: the
    validation rejects ["1.2.3"], it is the only way [nextToken()] fails,
    every NUMBER literal has passed it, and the empty literal is emitted
    only when white space and nothing else is left to read. *)
Theorem empty_number_token_after_trailing_whitespace :
  (exists l, Lexer.nextToken (Lexer.new (str " ")) = Ok (mkToken NUMBER [], l)) /\
  (exists l, emits (Lexer.new (str "1 "))
               [mkToken NUMBER (str "1"); mkToken NUMBER []; mkToken EOF []] l) /\
  (exists l, Lexer.nextToken (Lexer.new ["013"; "1"]) = Ok (mkToken NUMBER ["013"; "1"], l)) /\
  JSNumber.isNaN_ToNumber [] = false /\
  Lexer.nextToken (Lexer.new (str "1.2.3")) = Throw (InvalidNumberToken (str "1.2.3")) /\
  (forall l,
      Lexer.nextToken l <> OutOfFuel /\
      forall e, Lexer.nextToken l = Throw e ->
                exists s, e = InvalidNumberToken s /\ JSNumber.isNaN_ToNumber s = true) /\
  (forall l t l',
      cursorOk l ->
      Lexer.nextToken l = Ok (t, l') ->
      type t = NUMBER ->
      JSNumber.isNaN_ToNumber (literal t) = false /\
      (scannedNumber (literal t) = true \/
       (literal t = [] /\ unread l <> [] /\ allWhitespace (unread l) = true))).
Proof.
  split; [eexists; vm_compute; reflexivity|].
  split.
  { eexists. repeat (eapply emits_cons; [vm_compute; reflexivity|]). apply emits_nil. }
  split; [eexists; vm_compute; reflexivity|].
  split; [reflexivity|]. split; [reflexivity|].
  split; [exact nextToken_only_failure|].
  intros l t l' Hc E Ty. split; [eapply number_tokens_validated; eassumption|].
  pose proof (nextToken_unread l Hc) as N.
  destruct (scan (unread l)) as [[t0 w0]|err|] eqn:S.
  - destruct N as [l0 [N _]]. rewrite N in E. inversion E; subst.
    eapply scan_number; eassumption.
  - rewrite N in E. discriminate.
  - contradiction.
Qed.

Lemma empty_number_token_after_trailing_whitespace_witness :
  (exists s, InvalidNumberToken (str "1.2.3") = InvalidNumberToken s /\
             JSNumber.isNaN_ToNumber s = true) /\
  (exists l',
      cursorOk (Lexer.new (str "12.5 ")) /\
      Lexer.nextToken (Lexer.new (str "12.5 ")) = Ok (mkToken NUMBER (str "12.5"), l') /\
      JSNumber.isNaN_ToNumber (str "12.5") = false /\
      (scannedNumber (str "12.5") = true \/
       (str "12.5" = [] /\ unread (Lexer.new (str "12.5 ")) <> [] /\
        allWhitespace (unread (Lexer.new (str "12.5 "))) = true))).
Proof.
  split.
  - apply (proj2 (proj1 (proj2 (proj2 (proj2 (proj2 (proj2
             empty_number_token_after_trailing_whitespace)))))
             (Lexer.new (str "1.2.3")))).
    reflexivity.
  - eexists. split; [split; reflexivity|]. split; [reflexivity|].
    refine (proj2 (proj2 (proj2 (proj2 (proj2 (proj2
              empty_number_token_after_trailing_whitespace)))))
              (Lexer.new (str "12.5 ")) (mkToken NUMBER (str "12.5")) _ _ _ _).
    + split; reflexivity.
    + reflexivity.
    + reflexivity.
Defined.

(** C9 at the input ["1"] with one space appended: ["1"] parses and prints
    as [1], ["1 "] does not parse, because the space at the end comes out of
    the lexer as a NUMBER token with an empty literal.  The end of the input
    is the one place where white space matters: inserted at the start, or
    where the lexer has read some tokens and the input [b] goes on, it
    changes neither the tree nor the failure. *)
Theorem appended_whitespace_breaks_parse :
  run (str "1") = Ok (str "1") /\
  allWhitespace (str " ") = true /\
  run (str "1" ++ str " ") = Throw (ExpectedOperator NUMBER) /\
  (forall pre b pad ts l,
      emits (Lexer.new (pre ++ b)) ts l ->
      Forall (fun t => literal t <> []) ts ->
      unread l = b ->
      b <> [] ->
      allWhitespace pad = true ->
      parseString (pre ++ pad ++ b) = parseString (pre ++ b) /\
      run (pre ++ pad ++ b) = run (pre ++ b)).
Proof.
  split; [vm_compute; reflexivity|]. split; [reflexivity|].
  split; [vm_compute; reflexivity|].
  intros pre b pad ts l E Hts U Hb Hp.
  assert (R : reaches (pre ++ b) b).
  { rewrite <- U at 2. apply (emits_reaches _ _ _ E (cursorOk_at (pre ++ b) 0) Hts). }
  assert (P : parseString (pre ++ pad ++ b) = parseString (pre ++ b))
    by (apply whitespace_before_token; assumption).
  split; [exact P|]. unfold run. rewrite P. reflexivity.
Qed.

Lemma appended_whitespace_breaks_parse_witness :
  exists l,
    emits (Lexer.new (str "1 +" ++ str "2 * 3"))
          [mkToken NUMBER (str "1"); mkToken PLUS (str "+")] l /\
    unread l = str "2 * 3" /\
    parseString (str "1 +" ++ [" "; "009"; "010"] ++ str "2 * 3") =
      parseString (str "1 +" ++ str "2 * 3") /\
    run (str "1 +" ++ [" "; "009"; "010"] ++ str "2 * 3") = run (str "1 +" ++ str "2 * 3").
Proof.
  eexists. split.
  { repeat (eapply emits_cons; [vm_compute; reflexivity|]). apply emits_nil. }
  split; [reflexivity|].
  eapply (proj2 (proj2 (proj2 appended_whitespace_breaks_parse))
            (str "1 +") (str "2 * 3") _
            [mkToken NUMBER (str "1"); mkToken PLUS (str "+")]).
  - repeat (eapply emits_cons; [vm_compute; reflexivity|]). apply emits_nil.
  - repeat constructor; discriminate.
  - reflexivity.
  - discriminate.
  - reflexivity.
Defined.

(** C10. A non-empty input of white space only does not fail: [parse()]
    returns a NumberExpression whose token is a NUMBER with the empty
    literal, whose value is [NaN], and which prints as the empty string. *)
Theorem whitespace_only_input_parses_to_empty_number :
  forall s,
    s <> [] ->
    allWhitespace s = true ->
    parseString s = Ok (NumberExpression (mkToken NUMBER []) JSNumber.NaN) /\
    run s = Ok [].
Proof.
  intros s Hne Hws.
  assert (P : parseString s = Ok (NumberExpression (mkToken NUMBER []) JSNumber.NaN)).
  { unfold parseString, Parser.new.
    rewrite (nextToken_allWhitespace s Hne Hws). cbn [bind].
    rewrite nextToken_past_end by (simpl; lia). cbn [bind].
    unfold fuelFor. replace (2 * length s + 6) with (S (S (2 * length s + 4))) by lia.
    rewrite parse_number by reflexivity. rewrite parse_while_S. reflexivity. }
  split; [exact P|]. unfold run. rewrite P. reflexivity.
Qed.

Lemma whitespace_only_input_parses_to_empty_number_witness :
  let s := [" "; "009"; "010"; " "] in
  s <> [] /\ allWhitespace s = true /\
  parseString s = Ok (NumberExpression (mkToken NUMBER []) JSNumber.NaN) /\
  run s = Ok [].
Proof.
  intros s.
  assert (Hne : s <> []) by discriminate.
  assert (Hws : allWhitespace s = true) by reflexivity.
  split; [exact Hne|]. split; [exact Hws|].
  exact (whitespace_only_input_parses_to_empty_number s Hne Hws).
Defined.

(** ** Further properties of the lexer *)

Lemma nextToken_is_next l t l' :
  Lexer.nextToken l = Ok (t, l') -> exists l1, l' = Lexer.next l1.
Proof.
  unfold Lexer.nextToken. destruct (Lexer.readChar l) as [lit l1].
  intros H. exists l1. destruct lit as [s|].
  - destruct (Lexer.punctuator s); [inversion H; reflexivity|].
    destruct (JSNumber.isNaN_ToNumber s); inversion H; reflexivity.
  - inversion H; reflexivity.
Qed.

Lemma cursorOk_next l : cursorOk (Lexer.next l).
Proof. split; reflexivity. Qed.

Lemma nextToken_EOF_past_end l t l' :
  Lexer.nextToken l = Ok (t, l') -> type t = EOF ->
  t = mkToken EOF [] /\ l' = Lexer.next l /\ length (Lexer.input l) < Lexer._next_pos l.
Proof.
  intros N Ty.
  destruct (Nat.leb_spec (Lexer._next_pos l) (length (Lexer.input l))) as [L|L].
  - exfalso. unfold Lexer.nextToken, Lexer.readChar in N.
    apply Nat.leb_le in L. rewrite L in N.
    assert (K : forall s l1, (match Lexer.punctuator s with
                              | Some ty => Ok (mkToken ty s, Lexer.next l1)
                              | None => if JSNumber.isNaN_ToNumber s
                                        then Throw (InvalidNumberToken s)
                                        else Ok (mkToken NUMBER s, Lexer.next l1)
                              end) = Ok (t, l') -> False).
    { intros s l1 H. destruct (Lexer.punctuator s) as [ty|] eqn:P.
      - inversion H; subst. apply punctuator_not_number in P. simpl in Ty. tauto.
      - destruct (JSNumber.isNaN_ToNumber s); inversion H; subst. discriminate. }
    destruct (Lexer._c (Lexer.eatWhitespace l)) as [c|].
    + destruct (Lexer.isOperatorOrParen c).
      * eapply K. exact N.
      * destruct (Lexer.readNumber (Lexer.eatWhitespace l)) as [s l2]. eapply K. exact N.
    + destruct (Lexer.readNumber (Lexer.eatWhitespace l)) as [s l2]. eapply K. exact N.
  - rewrite (nextToken_past_end l L) in N. inversion N; subst. auto.
Qed.

Lemma nextToken_scan_unread l t l' :
  cursorOk l -> Lexer.nextToken l = Ok (t, l') ->
  scan (unread l) = Ok (t, unread l') /\ cursorOk l'.
Proof.
  intros C N. pose proof (nextToken_unread l C) as U.
  destruct (scan (unread l)) as [[t0 w0]|err|].
  - destruct U as [l0 [N0 [C0 U0]]]. rewrite N in N0. inversion N0; subst. auto.
  - rewrite U in N. discriminate.
  - contradiction.
Qed.

Lemma scan_EOF w t r : scan w = Ok (t, r) -> type t = EOF -> w = [] /\ r = [].
Proof.
  intros S Ty. unfold scan in S. destruct w as [|a w].
  - inversion S; auto.
  - exfalso. destruct (JSNumber.dropWhile isWhitespaceChar (a :: w)) as [|c w'].
    + inversion S; subst. discriminate.
    + destruct (Lexer.punctuator [c]) as [ty|] eqn:P.
      * inversion S; subst. apply punctuator_not_number in P. simpl in Ty. tauto.
      * cbv zeta in S. destruct (JSNumber.isNaN_ToNumber _); inversion S; subst.
        discriminate.
Qed.

Lemma emits_countNonEOF l ts l' :
  emits l ts l' -> countNonEOF ts + remaining l' <= remaining l.
Proof.
  intros E. induction E as [l|l t l1 ts l2 N E IH].
  - unfold countNonEOF. simpl. lia.
  - change (countNonEOF (t :: ts)) with (nonEOF t + countNonEOF ts).
    pose proof (nextToken_advances l t l1 N) as [I A].
    assert (K : nonEOF t + remaining l1 <= remaining l).
    { unfold nonEOF. destruct (type t) eqn:Ty;
        try (unfold remaining; rewrite I;
             assert (~ length (Lexer.input l) < Lexer._next_pos l)
               by (intros L; rewrite (nextToken_past_end l L) in N;
                   inversion N; subst; discriminate);
             lia).
      unfold remaining. rewrite I. lia. }
    lia.
Qed.

(** X1. [Lexer.nextToken()] never stalls: a call that returns a token keeps
    the input, moves [_next_pos] forward by at least one, and leaves the
    cursor consistent ([_next_pos] one past [_pos], [_c] the character at
    [_pos]), whatever the state it was called in. *)
Theorem nextToken_moves_forward l t l' :
  Lexer.nextToken l = Ok (t, l') ->
  Lexer.input l' = Lexer.input l /\
  Lexer._next_pos l < Lexer._next_pos l' /\
  cursorOk l'.
Proof.
  intros N. destruct (nextToken_advances l t l' N) as [I A].
  split; [exact I|]. split; [exact A|].
  destruct (nextToken_is_next l t l' N) as [l1 E]. subst. apply cursorOk_next.
Qed.

Lemma nextToken_moves_forward_witness :
  exists t l',
    Lexer.nextToken (Lexer.new (str "12+3")) = Ok (t, l') /\
    Lexer.input l' = str "12+3" /\
    Lexer._next_pos (Lexer.new (str "12+3")) < Lexer._next_pos l' /\
    cursorOk l'.
Proof.
  eexists. eexists. split; [vm_compute; reflexivity|].
  apply (nextToken_moves_forward (Lexer.new (str "12+3"))
           (mkToken NUMBER (str "12")) (at_pos (str "12+3") 2)).
  vm_compute. reflexivity.
Defined.

(** X2. The end of the input is final: once [Lexer.nextToken()] has returned
    an EOF token (its literal is the empty string), every later call
    returns the same EOF token, however often it is called. *)
Theorem end_of_input_is_final l t l' :
  Lexer.nextToken l = Ok (t, l') -> type t = EOF ->
  t = mkToken EOF [] /\
  forall n, exists l'', emits l' (repeat (mkToken EOF []) n) l''.
Proof.
  intros N Ty. destruct (nextToken_EOF_past_end l t l' N Ty) as [Et [El L]].
  split; [exact Et|]. subst l'.
  assert (G : forall n l0, length (Lexer.input l0) < Lexer._next_pos l0 ->
                           exists l'', emits l0 (repeat (mkToken EOF []) n) l'').
  { induction n as [|n IH]; intros l0 L0.
    - exists l0. apply emits_nil.
    - destruct (IH (Lexer.next l0)) as [l'' E]; [simpl; lia|].
      exists l''. cbn [repeat]. eapply emits_cons; [apply nextToken_past_end; exact L0|exact E]. }
  intros n. apply G. simpl. lia.
Qed.

Lemma end_of_input_is_final_witness :
  let l := Lexer.next (Lexer.new (str "7")) in
  Lexer.nextToken l = Ok (mkToken EOF [], Lexer.next l) /\
  exists l'', emits (Lexer.next l) (repeat (mkToken EOF []) 3) l''.
Proof.
  intros l.
  assert (N : Lexer.nextToken l = Ok (mkToken EOF [], Lexer.next l))
    by (vm_compute; reflexivity).
  split; [exact N|].
  exact (proj2 (end_of_input_is_final l (mkToken EOF []) (Lexer.next l) N eq_refl) 3).
Defined.

(** X3. Operators and parentheses are tokens of one character: with a
    consistent cursor, when the unread characters are white space (spaces,
    tabs, line feeds), then one of [+ - % / * ( )], then [w],
    [Lexer.nextToken()] returns the token of that character, with the
    character as literal, and leaves exactly [w] unread. *)
Theorem punctuator_is_one_token l pad c w ty :
  cursorOk l ->
  unread l = pad ++ c :: w ->
  allWhitespace pad = true ->
  Lexer.punctuator [c] = Some ty ->
  exists l', Lexer.nextToken l = Ok (mkToken ty [c], l') /\
             cursorOk l' /\ unread l' = w.
Proof.
  intros C U W P.
  destruct (punctuator_single [c] ty P) as [c0 [E [Hw _]]]. inversion E; subst c0.
  pose proof (nextToken_unread l C) as N. rewrite U in N.
  rewrite (scan_after_pad pad c w W Hw), P in N. exact N.
Qed.

Lemma punctuator_is_one_token_witness :
  exists l',
    Lexer.nextToken (Lexer.new (str "  *3")) = Ok (mkToken MULTIPLY (str "*"), l') /\
    cursorOk l' /\ unread l' = str "3".
Proof.
  apply (punctuator_is_one_token (Lexer.new (str "  *3")) (str "  ") "*" (str "3") MULTIPLY).
  - apply cursorOk_next.
  - reflexivity.
  - reflexivity.
  - reflexivity.
Defined.

(** X4. A number token is the longest run: with a consistent cursor, when
    the unread characters are white space, then a character [c] that is
    neither white space nor an operator or parenthesis, then digits and dots
    [run], then text [r] that starts with neither a digit nor a dot,
    [Lexer.nextToken()] takes [c] and the whole of [run] as one literal.  If
    [isNaN(+literal)] it throws the invalid-number error with that literal;
    otherwise it returns the NUMBER token and leaves exactly [r] unread. *)
Theorem number_is_longest_run l pad c run r :
  cursorOk l ->
  unread l = pad ++ c :: run ++ r ->
  allWhitespace pad = true ->
  isWhitespaceChar c = false ->
  Lexer.punctuator [c] = None ->
  forallb isNumberChar run = true ->
  boundary r ->
  (JSNumber.isNaN_ToNumber (c :: run) = true ->
   Lexer.nextToken l = Throw (InvalidNumberToken (c :: run))) /\
  (JSNumber.isNaN_ToNumber (c :: run) = false ->
   exists l', Lexer.nextToken l = Ok (mkToken NUMBER (c :: run), l') /\
              cursorOk l' /\ unread l' = r).
Proof.
  intros C U W Hw P Hrun Hb.
  pose proof (nextToken_unread l C) as N. rewrite U in N.
  rewrite (scan_after_pad pad c (run ++ r) W Hw), P in N. cbv zeta in N.
  destruct (run_then_boundary run r Hrun Hb) as [T D]. rewrite T, D in N.
  split; intros V; rewrite V in N; exact N.
Qed.

Lemma number_is_longest_run_witness :
  (exists l',
      Lexer.nextToken (Lexer.new (str " 4.5*2")) = Ok (mkToken NUMBER (str "4.5"), l') /\
      cursorOk l' /\ unread l' = str "*2") /\
  Lexer.nextToken (Lexer.new (str "1.2.3+4")) = Throw (InvalidNumberToken (str "1.2.3")).
Proof.
  split.
  - apply (proj2 (number_is_longest_run (Lexer.new (str " 4.5*2"))
                    (str " ") "4" (str ".5") (str "*2")
                    (cursorOk_next _) eq_refl eq_refl eq_refl eq_refl eq_refl eq_refl)).
    reflexivity.
  - apply (proj1 (number_is_longest_run (Lexer.new (str "1.2.3+4"))
                    [] "1" (str ".2.3") (str "+4")
                    (cursorOk_next _) eq_refl eq_refl eq_refl eq_refl eq_refl eq_refl)).
    reflexivity.
Defined.

(** X5. The lexer emits at most one token other than EOF for each character
    of the input: however many times [nextToken()] is called on a new
    lexer, the tokens other than EOF among those returned are no more than
    the input has characters. *)
Theorem tokens_bounded_by_input s ts l :
  emits (Lexer.new s) ts l -> countNonEOF ts <= length s.
Proof.
  intros E. pose proof (emits_countNonEOF _ _ _ E) as K.
  assert (R : remaining (Lexer.new s) = length s) by (unfold remaining; simpl; lia).
  lia.
Qed.

Lemma tokens_bounded_by_input_witness :
  exists l,
    emits (Lexer.new (str "1 + 2"))
      [mkToken NUMBER (str "1"); mkToken PLUS (str "+"); mkToken NUMBER (str "2");
       mkToken EOF []; mkToken EOF []] l /\
    countNonEOF
      [mkToken NUMBER (str "1"); mkToken PLUS (str "+"); mkToken NUMBER (str "2");
       mkToken EOF []; mkToken EOF []] <= length (str "1 + 2").
Proof.
  assert (E : exists l, emits (Lexer.new (str "1 + 2"))
      [mkToken NUMBER (str "1"); mkToken PLUS (str "+"); mkToken NUMBER (str "2");
       mkToken EOF []; mkToken EOF []] l).
  { eexists.
    eapply emits_cons; [vm_compute; reflexivity|].
    eapply emits_cons; [vm_compute; reflexivity|].
    eapply emits_cons; [vm_compute; reflexivity|].
    eapply emits_cons; [vm_compute; reflexivity|].
    eapply emits_cons; [vm_compute; reflexivity|].
    apply emits_nil. }
  destruct E as [l E]. exists l. split; [exact E|].
  exact (tokens_bounded_by_input _ _ l E).
Defined.

(** ** Further properties of the parser *)

Lemma parse_while_stops fuel :
  forall p lhs st e st',
    Parser.parse_while fuel p lhs st = Ok (e, st') ->
    (Parser.nextPrecedence st' <= p)%Z.
Proof.
  induction fuel as [|fuel IH]; intros p lhs st e st' H; [discriminate|].
  rewrite parse_while_S in H.
  destruct (p <? Parser.nextPrecedence st)%Z eqn:L.
  - apply bind_Ok in H. destruct H as [st1 [_ H]].
    destruct (Parser.isOperator (type (Parser._token st1))); [|discriminate].
    apply bind_Ok in H. destruct H as [[lhs' st2] [_ H]].
    eapply IH. exact H.
  - inversion H; subst. apply Z.ltb_ge. exact L.
Qed.

Lemma falling_loop p te l' ons :
  (TokenPrecedence.get (type te) <= p)%Z ->
  forall q fuel lhs st,
    falling p q ons ->
    ahead st (chainTokens ons ++ [te]) l' ->
    length ons + 2 <= fuel ->
    Parser.parse_while fuel p lhs st =
    Ok (fold_left (fun lhs on =>
                     InfixExpression (fst on) (literal (fst on)) lhs (leaf (snd on)))
                  ons lhs,
        {| Parser.lexer := l';
           Parser._token := last (map snd ons) (Parser._token st);
           Parser._next_token := te |}).
Proof.
  intros Hte. induction ons as [|[o n] ons IH]; intros q fuel lhs st F Ha Hf.
  - destruct fuel as [|fuel]; [simpl in Hf; lia|].
    destruct Ha as [Ht He]. inversion He; subst.
    rewrite parse_while_exit by (unfold Parser.nextPrecedence; assumption).
    destruct st; reflexivity.
  - destruct F as [Hop [Hn [Hq F]]]. cbn [fst snd] in Hop, Hn, Hq, F.
    destruct fuel as [|[|[|fuel]]]; try (simpl in Hf; lia).
    change (chainTokens ((o, n) :: ons) ++ [te])
      with (o :: n :: (chainTokens ons ++ [te])) in Ha.
    destruct (ahead_cons _ _ _ _ _ Ha) as [l1 [Hst1 He1]].
    destruct Ha as [Hnext _].
    assert (Hhead : forall t ts, chainTokens ons ++ [te] = t :: ts ->
                (TokenPrecedence.get (type o) <? TokenPrecedence.get (type t))%Z = false).
    { intros t ts E. apply Z.ltb_ge.
      destruct ons as [|[o' n'] ons']; simpl in E; inversion E; subst.
      - lia.
      - destruct F as [_ [_ [Hq' _]]]. cbn [fst] in Hq'. lia. }
    remember (chainTokens ons ++ [te]) as rest eqn:E.
    destruct rest as [|t' ts].
    { destruct ons; discriminate. }
    specialize (Hhead t' ts eq_refl).
    inversion He1 as [|l0 t0 l2 ts0 l3 Hl1 He2 E1 E2 E3]. clear He1. subst l0 t0 ts0 l3.
    rewrite parse_while_S. unfold Parser.nextPrecedence. rewrite Hnext.
    replace (p <? TokenPrecedence.get (type o))%Z with true
      by (symmetry; apply Z.ltb_lt; lia).
    rewrite Hst1. cbn [bind Parser._token]. rewrite Hop.
    unfold Parser.InfixExpression_new, Parser.currentPrecedence.
    cbn [Parser._token].
    erewrite next_emitted by (cbn [Parser.lexer]; eassumption).
    cbn [bind Parser._next_token].
    rewrite parse_number by assumption. cbn [Parser._token].
    rewrite parse_while_S. unfold Parser.nextPrecedence. cbn [Parser._next_token].
    rewrite Hhead.
    cbn [bind].
    rewrite (IH (TokenPrecedence.get (type o))).
    + cbn [map snd]. rewrite last_cons_default. reflexivity.
    + assumption.
    + split; [reflexivity|assumption].
    + simpl in Hf |- *. lia.
Qed.

Lemma rising_chain te l' ons :
  forall p fuel st,
    type (Parser._token st) = NUMBER ->
    rising p ons ->
    (TokenPrecedence.get (type te) <= p)%Z ->
    ahead st (chainTokens ons ++ [te]) l' ->
    2 * length ons + 2 <= fuel ->
    Parser.parse fuel p st =
    Ok (rightChain (Parser._token st) ons,
        {| Parser.lexer := l';
           Parser._token := last (map snd ons) (Parser._token st);
           Parser._next_token := te |}).
Proof.
  induction ons as [|[o n] ons IH]; intros p fuel st Hn0 R Hte Ha Hf.
  - destruct fuel as [|[|fuel]]; try (simpl in Hf; lia).
    rewrite parse_number by assumption.
    destruct Ha as [Ht He]. inversion He; subst.
    rewrite parse_while_exit by (unfold Parser.nextPrecedence; assumption).
    destruct st; reflexivity.
  - destruct R as [Hop [Hn [Hq R]]]. cbn [fst snd] in Hop, Hn, Hq, R.
    destruct fuel as [|[|[|fuel]]]; try (simpl in Hf; lia).
    change (chainTokens ((o, n) :: ons) ++ [te])
      with (o :: n :: (chainTokens ons ++ [te])) in Ha.
    destruct (ahead_cons _ _ _ _ _ Ha) as [l1 [Hst1 He1]].
    destruct Ha as [Hnext _].
    remember (chainTokens ons ++ [te]) as rest eqn:E.
    destruct rest as [|t' ts].
    { destruct ons; discriminate. }
    inversion He1 as [|l0 t0 l2 ts0 l3 Hl1 He2 E1 E2 E3]. clear He1. subst l0 t0 ts0 l3.
    rewrite parse_number by assumption.
    rewrite parse_while_S. unfold Parser.nextPrecedence. rewrite Hnext.
    replace (p <? TokenPrecedence.get (type o))%Z with true
      by (symmetry; apply Z.ltb_lt; lia).
    rewrite Hst1. cbn [bind Parser._token]. rewrite Hop.
    unfold Parser.InfixExpression_new, Parser.currentPrecedence.
    cbn [Parser._token].
    erewrite next_emitted by (cbn [Parser.lexer]; eassumption).
    cbn [bind Parser._next_token].
    rewrite (IH (TokenPrecedence.get (type o))).
    + cbn [bind Parser._token].
      rewrite parse_while_exit by (unfold Parser.nextPrecedence; assumption).
      cbn [map snd rightChain fst]. rewrite last_cons_default. reflexivity.
    + assumption.
    + assumption.
    + lia.
    + split; [reflexivity|assumption].
    + simpl in Hf |- *. lia.
Qed.

Lemma prefix_chain n te l' :
  type n = NUMBER ->
  forall ops o p fuel st,
    Parser._token st = o ->
    Forall (fun o => Parser.isOperator (type o) = true /\
                     (TokenPrecedence.get (type te) <= TokenPrecedence.get (type o))%Z)
           (o :: ops) ->
    (TokenPrecedence.get (type te) <= p)%Z ->
    ahead st (ops ++ [n; te]) l' ->
    length ops + 3 <= fuel ->
    Parser.parse fuel p st =
    Ok (prefixChain (o :: ops) n,
        {| Parser.lexer := l'; Parser._token := n; Parser._next_token := te |}).
Proof.
  intros Hn. induction ops as [|o2 ops IH]; intros o p fuel st Ho F Hte Ha Hf.
  - destruct fuel as [|[|[|fuel]]]; try (simpl in Hf; lia).
    inversion F as [|? ? [Hop Hq] _]; subst.
    rewrite parse_operator by assumption.
    unfold Parser.PrefixExpression_new, Parser.currentPrecedence.
    cbn [app] in Ha.
    destruct (ahead_cons _ _ _ _ _ Ha) as [l1 [Hst1 He1]].
    inversion He1; subst.
    rewrite Hst1. cbn [bind].
    rewrite parse_number by assumption.
    rewrite parse_while_exit by (unfold Parser.nextPrecedence; assumption).
    cbn [bind Parser._token].
    rewrite parse_while_exit by (unfold Parser.nextPrecedence; assumption).
    reflexivity.
  - destruct fuel as [|fuel]; [simpl in Hf; lia|].
    inversion F as [|? ? [Hop Hq] F']; subst.
    rewrite parse_operator by assumption.
    unfold Parser.PrefixExpression_new, Parser.currentPrecedence.
    cbn [app] in Ha.
    destruct (ahead_next st o2 (ops ++ [n; te]) l' Ha (app_cons_not_nil _ _ _))
      as [st1 [Hst1 [T1 A1]]].
    rewrite Hst1. cbn [bind].
    rewrite (IH o2 _ fuel st1 T1 F' Hq A1) by (simpl in Hf; lia).
    cbn [bind].
    destruct fuel as [|fuel]; [simpl in Hf; lia|].
    rewrite parse_while_exit by (unfold Parser.nextPrecedence; assumption).
    reflexivity.
Qed.

Lemma emits_sameScan ts :
  forall l1 l2 l1' l2',
    cursorOk l1 -> cursorOk l2 ->
    emits l1 (ts ++ [mkToken EOF []]) l1' ->
    emits l2 (ts ++ [mkToken EOF []]) l2' ->
    sameScan (unread l1) (unread l2).
Proof.
  induction ts as [|t ts IH]; intros l1 l2 l1' l2' C1 C2 E1 E2.
  - inversion E1 as [|? ? m1 ? ? N1 _]; subst.
    inversion E2 as [|? ? m2 ? ? N2 _]; subst.
    destruct (nextToken_scan_unread _ _ _ C1 N1) as [S1 _].
    destruct (nextToken_scan_unread _ _ _ C2 N2) as [S2 _].
    destruct (scan_EOF _ _ _ S1 eq_refl) as [W1 _].
    destruct (scan_EOF _ _ _ S2 eq_refl) as [W2 _].
    rewrite W1, W2. apply sameScan_refl.
  - inversion E1 as [|? ? m1 ? ? N1 E1']; subst.
    inversion E2 as [|? ? m2 ? ? N2 E2']; subst.
    destruct (nextToken_scan_unread _ _ _ C1 N1) as [S1 K1].
    destruct (nextToken_scan_unread _ _ _ C2 N2) as [S2 K2].
    eapply sameScan_token; [exact S1|exact S2|].
    eapply IH; eassumption.
Qed.

(** X6. [Parser.parse(p)] terminates, from any state of the parser and at
    any threshold [p]: it ends within twice what is left to read (the
    unread characters and the two tokens held) plus two nested calls and
    iterations, more fuel than that changes no outcome, and when it
    returns it has left no more to read than it found.  So the program
    ends on every input string. *)
Theorem parse_terminates_from_any_state :
  (forall fuel p st,
      2 * pending st + 2 <= fuel ->
      Parser.parse fuel p st <> OutOfFuel /\
      (forall e st', Parser.parse fuel p st = Ok (e, st') -> pending st' <= pending st) /\
      (forall fuel', fuel <= fuel' -> Parser.parse fuel' p st = Parser.parse fuel p st)) /\
  (forall s, parseString s <> OutOfFuel /\ run s <> OutOfFuel).
Proof.
  split.
  - intros fuel p st Hf.
    destruct (proj1 (terminates_within_fuel fuel) p st Hf) as [T D].
    split; [exact T|]. split; [exact D|].
    intros fuel' L. apply more_fuel; assumption.
  - intros s. pose proof (parseString_terminates s) as T. split; [exact T|].
    unfold run. destruct (parseString s); [discriminate|discriminate|contradiction].
Qed.

Lemma parse_terminates_from_any_state_witness :
  exists st,
    Parser.new (Lexer.new (str "(1 + 2) * 3")) = Ok st /\
    2 * pending st + 2 <= 26 /\
    Parser.parse 26 0 st <> OutOfFuel /\
    (forall e st', Parser.parse 26 0 st = Ok (e, st') -> pending st' <= pending st) /\
    (forall fuel', 26 <= fuel' -> Parser.parse fuel' 0 st = Parser.parse 26 0 st).
Proof.
  eexists. split; [vm_compute; reflexivity|].
  match goal with |- 2 * pending ?s + 2 <= _ /\ _ => set (st := s) end.
  assert (Hf : 2 * pending st + 2 <= 26) by (vm_compute; lia).
  split; [exact Hf|].
  exact (proj1 parse_terminates_from_any_state 26 0%Z st Hf).
Defined.

(** X7. [Parser.parse(p)] returns only when the climb is over: whenever it
    returns a tree, the precedence of the lookahead token it leaves is at
    most [p]. *)
Theorem parse_stops_at_threshold fuel p st e st' :
  Parser.parse fuel p st = Ok (e, st') ->
  (Parser.nextPrecedence st' <= p)%Z.
Proof.
  destruct fuel as [|fuel]; [discriminate|].
  rewrite parse_S. intros H.
  apply bind_Ok in H. destruct H as [[lhs st1] [_ H]].
  eapply parse_while_stops. exact H.
Qed.

Lemma parse_stops_at_threshold_witness :
  exists st e st',
    Parser.new (Lexer.new (str "2 % 3 * 4 + 5")) = Ok st /\
    Parser.parse 10 7 st = Ok (e, st') /\
    print e = str "(2 % 3)" /\
    type (Parser._next_token st') = MULTIPLY /\
    (Parser.nextPrecedence st' <= 7)%Z.
Proof.
  eexists. eexists. eexists.
  split; [vm_compute; reflexivity|].
  match goal with
  | |- ?P /\ _ => assert (H : P) by (vm_compute; reflexivity)
  end.
  split; [exact H|].
  split; [reflexivity|]. split; [reflexivity|].
  exact (parse_stops_at_threshold 10 7%Z _ _ _ H).
Defined.

(** X8. What the parser builds: in every tree that the program parses from
    a string, each leaf holds a NUMBER token and the [parseFloat] of its
    literal as value, each inner node holds an operator token and that
    token's literal as [op], and every token in the tree is one the lexer
    returned (an operator's literal is its one character, a number's
    literal has passed the validation or is empty). *)
Theorem parsed_tree_is_well_built s e :
  parseString s = Ok e -> wellBuilt e /\ scannedTree e.
Proof.
  intros P. unfold parseString in P.
  apply bind_Ok in P. destruct P as [st [N P]].
  apply bind_Ok in P. destruct P as [[e0 st'] [P E]]. inversion E; subst e0.
  exact (proj1 (proj1 (parse_builds_well (fuelFor s)) _ _ _ _ (new_stateOk s st N) P)).
Qed.

Lemma parsed_tree_is_well_built_witness :
  exists e,
    parseString (str "-2 + 4.5") = Ok e /\ wellBuilt e /\ scannedTree e.
Proof.
  eexists. split; [vm_compute; reflexivity|].
  eapply (parsed_tree_is_well_built (str "-2 + 4.5")). vm_compute. reflexivity.
Defined.

(** X9. [parse] inverts [print]: for every tree built as the constructors
    build it, whose leaves are number literals as the lexer cuts them and
    whose operators are operator characters, parsing the printed text gives
    the tree back, and printing that gives the text back.  So [print] is
    injective on such trees: two of them that print alike are equal. *)
Theorem parse_inverts_print :
  (forall e, wellBuilt e -> printable e ->
             parseString (print e) = Ok e /\ run (print e) = Ok (print e)) /\
  (forall e1 e2,
      wellBuilt e1 -> printable e1 -> wellBuilt e2 -> printable e2 ->
      print e1 = print e2 -> e1 = e2).
Proof.
  split.
  - intros e W Pr. pose proof (printed_tree_parses e W Pr) as R.
    split; [exact R|]. unfold run. rewrite R. reflexivity.
  - intros e1 e2 W1 P1 W2 P2 E.
    pose proof (printed_tree_parses e1 W1 P1) as R1.
    pose proof (printed_tree_parses e2 W2 P2) as R2.
    rewrite E in R1. rewrite R1 in R2. inversion R2. reflexivity.
Qed.

Lemma parse_inverts_print_witness :
  let e := node (mkToken MULTIPLY (str "*"))
             (PrefixExpression (mkToken MINUS (str "-")) (str "-")
                (leaf (mkToken NUMBER (str "2"))))
             (leaf (mkToken NUMBER (str "4.5"))) in
  wellBuilt e /\ printable e /\
  print e = str "((-2) * 4.5)" /\
  parseString (print e) = Ok e /\ run (print e) = Ok (print e).
Proof.
  intros e.
  assert (W : wellBuilt e) by (cbn; repeat split).
  assert (P : printable e) by (cbn; repeat split).
  split; [exact W|]. split; [exact P|]. split; [reflexivity|].
  exact (proj1 parse_inverts_print e W P).
Defined.

(** X10. The outcome of the program depends on the tokens only: two input
    strings from which the lexer returns the same tokens up to and
    including the first EOF parse to the same tree, or fail with the same
    error. *)
Theorem parse_depends_on_tokens_only s1 s2 ts l1 l2 :
  emits (Lexer.new s1) (ts ++ [mkToken EOF []]) l1 ->
  emits (Lexer.new s2) (ts ++ [mkToken EOF []]) l2 ->
  parseString s1 = parseString s2 /\ run s1 = run s2.
Proof.
  intros E1 E2.
  assert (P : parseString s1 = parseString s2).
  { apply parseString_sameScan.
    exact (emits_sameScan ts _ _ _ _ (cursorOk_at s1 0) (cursorOk_at s2 0) E1 E2). }
  split; [exact P|]. unfold run. rewrite P. reflexivity.
Qed.

Lemma parse_depends_on_tokens_only_witness :
  parseString (str "1+2") = parseString (str "  1 +  2") /\
  run (str "1+2") = run (str "  1 +  2").
Proof.
  assert (E1 : exists l, emits (Lexer.new (str "1+2"))
                 ([mkToken NUMBER (str "1"); mkToken PLUS (str "+");
                   mkToken NUMBER (str "2")] ++ [mkToken EOF []]) l).
  { eexists. cbn [app].
    eapply emits_cons; [vm_compute; reflexivity|].
    eapply emits_cons; [vm_compute; reflexivity|].
    eapply emits_cons; [vm_compute; reflexivity|].
    eapply emits_cons; [vm_compute; reflexivity|].
    apply emits_nil. }
  assert (E2 : exists l, emits (Lexer.new (str "  1 +  2"))
                 ([mkToken NUMBER (str "1"); mkToken PLUS (str "+");
                   mkToken NUMBER (str "2")] ++ [mkToken EOF []]) l).
  { eexists. cbn [app].
    eapply emits_cons; [vm_compute; reflexivity|].
    eapply emits_cons; [vm_compute; reflexivity|].
    eapply emits_cons; [vm_compute; reflexivity|].
    eapply emits_cons; [vm_compute; reflexivity|].
    apply emits_nil. }
  destruct E1 as [l1 E1]. destruct E2 as [l2 E2].
  exact (parse_depends_on_tokens_only _ _ _ l1 l2 E1 E2).
Defined.

(** X11. Operators of falling precedence group to the left: when the
    current token is a number and the tokens after it are a chain
    [o1 n1 o2 n2 ...] of operators above the threshold [p], none of a
    higher precedence than the one before it, followed by a token of
    precedence at most [p], [parse(p)] returns the left-nested tree
    [((n0 o1 n1) o2 n2) ...] and stops before that token. *)
Theorem falling_precedence_groups_left p q ons te st l' fuel :
  type (Parser._token st) = NUMBER ->
  falling p q ons ->
  (TokenPrecedence.get (type te) <= p)%Z ->
  ahead st (chainTokens ons ++ [te]) l' ->
  length ons + 3 <= fuel ->
  Parser.parse fuel p st =
  Ok (leftChain (Parser._token st) ons,
      {| Parser.lexer := l';
         Parser._token := last (map snd ons) (Parser._token st);
         Parser._next_token := te |}).
Proof.
  intros Hn F Hte Ha Hf.
  destruct fuel as [|fuel]; [lia|].
  rewrite parse_number by assumption.
  apply (falling_loop p te l' ons Hte q); [assumption|assumption|lia].
Qed.

Lemma falling_precedence_groups_left_witness :
  let ons := [(mkToken MODULO (str "%"), mkToken NUMBER (str "8"));
              (mkToken MULTIPLY (str "*"), mkToken NUMBER (str "7"));
              (mkToken MINUS (str "-"), mkToken NUMBER (str "6"));
              (mkToken PLUS (str "+"), mkToken NUMBER (str "5"))] in
  exists st,
    Parser.new (Lexer.new (str "9 % 8 * 7 - 6 + 5")) = Ok st /\
    print (leftChain (Parser._token st) ons) = str "((((9 % 8) * 7) - 6) + 5)" /\
    exists l',
      Parser.parse 7 0 st =
      Ok (leftChain (Parser._token st) ons,
          {| Parser.lexer := l'; Parser._token := mkToken NUMBER (str "5");
             Parser._next_token := mkToken EOF [] |}).
Proof.
  intros ons. eexists. split; [vm_compute; reflexivity|].
  match goal with |- _ /\ exists l', Parser.parse _ _ ?s = _ => set (st := s) end.
  split; [reflexivity|].
  assert (A : exists l', ahead st (chainTokens ons ++ [mkToken EOF []]) l').
  { eexists. split; [reflexivity|].
    cbn [chainTokens flat_map app ons fst snd].
    repeat (eapply emits_cons; [vm_compute; reflexivity|]). apply emits_nil. }
  destruct A as [l' A]. exists l'.
  apply (falling_precedence_groups_left 0 9 ons (mkToken EOF []) st l' 7).
  - reflexivity.
  - cbn. repeat split; lia.
  - simpl. lia.
  - exact A.
  - simpl. lia.
Defined.

(** X12. Operators of rising precedence nest to the right: when the current
    token is a number and the tokens after it are a chain [o1 n1 o2 n2 ...]
    of operators, the first above the threshold [p] and each of a higher
    precedence than the one before it, followed by a token of precedence at
    most [p], [parse(p)] returns the right-nested tree
    [(n0 o1 (n1 o2 (n2 ...)))] and stops before that token. *)
Theorem rising_precedence_nests_right p ons te st l' fuel :
  type (Parser._token st) = NUMBER ->
  rising p ons ->
  (TokenPrecedence.get (type te) <= p)%Z ->
  ahead st (chainTokens ons ++ [te]) l' ->
  2 * length ons + 2 <= fuel ->
  Parser.parse fuel p st =
  Ok (rightChain (Parser._token st) ons,
      {| Parser.lexer := l';
         Parser._token := last (map snd ons) (Parser._token st);
         Parser._next_token := te |}).
Proof.
  intros Hn R Hte Ha Hf. apply rising_chain; assumption.
Qed.

Lemma rising_precedence_nests_right_witness :
  let ons := [(mkToken PLUS (str "+"), mkToken NUMBER (str "6"));
              (mkToken MULTIPLY (str "*"), mkToken NUMBER (str "7"));
              (mkToken DIVIDE (str "/"), mkToken NUMBER (str "8"));
              (mkToken MODULO (str "%"), mkToken NUMBER (str "9"))] in
  exists st,
    Parser.new (Lexer.new (str "5 + 6 * 7 / 8 % 9")) = Ok st /\
    print (rightChain (Parser._token st) ons) = str "(5 + (6 * (7 / (8 % 9))))" /\
    exists l',
      Parser.parse 10 0 st =
      Ok (rightChain (Parser._token st) ons,
          {| Parser.lexer := l'; Parser._token := mkToken NUMBER (str "9");
             Parser._next_token := mkToken EOF [] |}).
Proof.
  intros ons. eexists. split; [vm_compute; reflexivity|].
  match goal with |- _ /\ exists l', Parser.parse _ _ ?s = _ => set (st := s) end.
  split; [reflexivity|].
  assert (A : exists l', ahead st (chainTokens ons ++ [mkToken EOF []]) l').
  { eexists. split; [reflexivity|].
    cbn [chainTokens flat_map app ons fst snd].
    repeat (eapply emits_cons; [vm_compute; reflexivity|]). apply emits_nil. }
  destruct A as [l' A]. exists l'.
  apply (rising_precedence_nests_right 0 ons (mkToken EOF []) st l' 10).
  - reflexivity.
  - cbn. repeat split; lia.
  - simpl. lia.
  - exact A.
  - simpl. lia.
Defined.

(** X13. Prefix operators nest, and any of the five operators is accepted
    as one: when the current token and the tokens after it are operators
    [o1 o2 ...], then a number [n], then a token whose precedence is at most
    [p] and at most that of each of the operators, [parse(p)] returns the
    tree [(o1 (o2 ... n))] and stops before that token. *)
Theorem prefix_operators_nest n te l' ops o p fuel st :
  type n = NUMBER ->
  Parser._token st = o ->
  Forall (fun o => Parser.isOperator (type o) = true /\
                   (TokenPrecedence.get (type te) <= TokenPrecedence.get (type o))%Z)
         (o :: ops) ->
  (TokenPrecedence.get (type te) <= p)%Z ->
  ahead st (ops ++ [n; te]) l' ->
  length ops + 3 <= fuel ->
  Parser.parse fuel p st =
  Ok (prefixChain (o :: ops) n,
      {| Parser.lexer := l'; Parser._token := n; Parser._next_token := te |}).
Proof.
  intros Hn Ho F Hte Ha Hf. eapply prefix_chain; eassumption.
Qed.

Lemma prefix_operators_nest_witness :
  let ops := [mkToken MINUS (str "-"); mkToken MODULO (str "%");
              mkToken DIVIDE (str "/")] in
  let n := mkToken NUMBER (str "2") in
  exists st,
    Parser.new (Lexer.new (str "- % / 2")) = Ok st /\
    print (prefixChain ops n) = str "(-(%(/2)))" /\
    exists l',
      Parser.parse 5 0 st =
      Ok (prefixChain ops n,
          {| Parser.lexer := l'; Parser._token := n;
             Parser._next_token := mkToken EOF [] |}).
Proof.
  intros ops n. eexists. split; [vm_compute; reflexivity|].
  match goal with |- _ /\ exists l', Parser.parse _ _ ?s = _ => set (st := s) end.
  split; [reflexivity|].
  assert (A : exists l', ahead st ([mkToken MODULO (str "%"); mkToken DIVIDE (str "/")]
                                    ++ [n; mkToken EOF []]) l').
  { eexists. split; [reflexivity|]. cbn [app].
    repeat (eapply emits_cons; [vm_compute; reflexivity|]). apply emits_nil. }
  destruct A as [l' A]. exists l'.
  apply (prefix_operators_nest n (mkToken EOF []) l'
           [mkToken MODULO (str "%"); mkToken DIVIDE (str "/")]
           (mkToken MINUS (str "-")) 0 5 st).
  - reflexivity.
  - reflexivity.
  - repeat constructor; simpl; lia.
  - simpl. lia.
  - exact A.
  - simpl. lia.
Defined.

(** ** The one-character lexer of recursive_descent.js and the sketch *)

Section OneCharacterLexer.

Import RecursiveDescent.

Lemma read_char_cursor l : Lexer.read_char l = cursor (Lexer.input l) (Lexer.next_pos l).
Proof. reflexivity. Qed.

Lemma eat_whitespace_loop_cursor inp n :
  forall pos fuel,
    length (skipn pos inp) <= n -> n <= fuel ->
    exists pos',
      Lexer.eat_whitespace_loop fuel (cursor inp pos) = cursor inp pos' /\
      pos <= pos' /\
      skipn pos' inp = JSNumber.dropWhile JSNumber.isStrWhiteSpaceChar (skipn pos inp).
Proof.
  induction n as [|n IH]; intros pos fuel Hn Hf.
  - assert (E : skipn pos inp = []) by (apply length_zero_iff_nil; lia).
    assert (N : nth_error inp pos = None).
    { apply nth_error_None. rewrite length_skipn in Hn. lia. }
    exists pos. split; [|split; [lia|rewrite E; reflexivity]].
    destruct fuel as [|fuel]; [reflexivity|].
    cbn [Lexer.eat_whitespace_loop cursor Lexer.ch]. rewrite N. reflexivity.
  - destruct fuel as [|fuel]; [lia|].
    destruct (nth_error inp pos) as [c|] eqn:N.
    + rewrite (skipn_nth_error_Some inp pos c N).
      cbn [Lexer.eat_whitespace_loop cursor Lexer.ch]. rewrite N.
      cbn [Lexer.trims_to_empty JSNumber.dropWhile].
      destruct (JSNumber.isStrWhiteSpaceChar c) eqn:W.
      * destruct (IH (S pos) fuel) as [pos' [E [L S']]].
        { rewrite (skipn_nth_error_Some inp pos c N) in Hn. cbn [length] in Hn. lia. }
        { lia. }
        exists pos'. split; [exact E|]. split; [lia|exact S'].
      * exists pos. split; [reflexivity|]. split; [lia|].
        apply skipn_nth_error_Some. exact N.
    + exists pos. rewrite (skipn_nth_error_None inp pos N).
      split; [|split; [lia|reflexivity]].
      cbn [Lexer.eat_whitespace_loop cursor Lexer.ch]. rewrite N. reflexivity.
Qed.

Lemma eat_whitespace_cursor inp pos :
  exists pos',
    Lexer.eat_whitespace (cursor inp pos) = cursor inp pos' /\
    pos <= pos' /\
    skipn pos' inp = JSNumber.dropWhile JSNumber.isStrWhiteSpaceChar (skipn pos inp).
Proof.
  unfold Lexer.eat_whitespace. cbn [cursor Lexer.input].
  apply (eat_whitespace_loop_cursor inp (length inp)).
  - rewrite length_skipn. lia.
  - lia.
Qed.

Lemma nth_error_skipn_head {A : Type} (l : list A) i :
  nth_error l i = hd_error (skipn i l).
Proof.
  revert i. induction l as [|a l IH]; intros [|i]; try reflexivity.
  simpl. apply IH.
Qed.

(** [next_token()] in terms of the characters from [next_pos] on. *)
Lemma next_token_unread l :
  match skipn (Lexer.next_pos l) (Lexer.input l) with
  | [] => Lexer.next_token l = (None, l)
  | (_ :: _) as w =>
      exists pos',
        Lexer.next_pos l <= pos' /\
        skipn pos' (Lexer.input l) = JSNumber.dropWhile JSNumber.isStrWhiteSpaceChar w /\
        Lexer.next_token l =
        (Some (mkToken (Lexer.type_of (nth_error (Lexer.input l) pos'))
                       (nth_error (Lexer.input l) pos')),
         cursor (Lexer.input l) pos')
  end.
Proof.
  destruct (skipn (Lexer.next_pos l) (Lexer.input l)) as [|c w] eqn:E.
  - unfold Lexer.next_token.
    assert (L : length (Lexer.input l) <= Lexer.next_pos l).
    { pose proof (length_skipn (Lexer.next_pos l) (Lexer.input l)) as K.
      rewrite E in K. simpl in K. lia. }
    apply Nat.leb_le in L. rewrite L. reflexivity.
  - unfold Lexer.next_token.
    assert (L : Lexer.next_pos l < length (Lexer.input l)).
    { pose proof (length_skipn (Lexer.next_pos l) (Lexer.input l)) as K.
      rewrite E in K. simpl in K. lia. }
    replace (length (Lexer.input l) <=? Lexer.next_pos l)%nat with false
      by (symmetry; apply Nat.leb_gt; exact L).
    rewrite read_char_cursor.
    destruct (eat_whitespace_cursor (Lexer.input l) (Lexer.next_pos l)) as [pos' [Q [Le S']]].
    exists pos'. split; [exact Le|]. split; [rewrite S', E; reflexivity|].
    rewrite Q. reflexivity.
Qed.

Lemma lexed_blank w :
  w <> [] -> forallb JSNumber.isStrWhiteSpaceChar w = true -> lexed w = [phantom].
Proof.
  unfold lexed. induction w as [|c w IH]; intros Hne Hw; [contradiction|].
  cbn [forallb] in Hw. apply andb_true_iff in Hw. destruct Hw as [Hc Hw].
  cbn [filter]. rewrite Hc. cbn [negb].
  destruct w as [|d w].
  - cbn [ends_blank filter map app]. rewrite Hc. reflexivity.
  - change (ends_blank (c :: d :: w)) with (ends_blank (d :: w)).
    apply IH; [discriminate|exact Hw].
Qed.

Lemma lexed_token w c w' :
  JSNumber.dropWhile JSNumber.isStrWhiteSpaceChar w = c :: w' ->
  lexed w = token_of c :: lexed w'.
Proof.
  unfold lexed. induction w as [|a w IH]; intros D; [discriminate|].
  cbn [JSNumber.dropWhile] in D.
  destruct (JSNumber.isStrWhiteSpaceChar a) eqn:W.
  - cbn [filter]. rewrite W. cbn [negb].
    destruct w as [|d w]; [discriminate|].
    change (ends_blank (a :: d :: w)) with (ends_blank (d :: w)).
    apply IH. exact D.
  - inversion D; subst. cbn [filter]. rewrite W. cbn [negb map app].
    f_equal. destruct w' as [|d w'].
    + cbn [ends_blank]. rewrite W. reflexivity.
    + reflexivity.
Qed.

Lemma yields_lexed n :
  forall l,
    length (skipn (Lexer.next_pos l) (Lexer.input l)) <= n ->
    yields l (lexed (skipn (Lexer.next_pos l) (Lexer.input l))).
Proof.
  induction n as [|n IH]; intros l Hn.
  - pose proof (next_token_unread l) as N.
    destruct (skipn (Lexer.next_pos l) (Lexer.input l)) as [|c w]; [|simpl in Hn; lia].
    apply yields_null. rewrite N. reflexivity.
  - pose proof (next_token_unread l) as N.
    destruct (skipn (Lexer.next_pos l) (Lexer.input l)) as [|c w] eqn:E.
    + apply yields_null. rewrite N. reflexivity.
    + destruct N as [pos' [Le [S' N]]].
      destruct (JSNumber.dropWhile JSNumber.isStrWhiteSpaceChar (c :: w)) as [|d w'] eqn:D.
      * rewrite lexed_blank; [|discriminate|apply dropWhile_nil; exact D].
        eapply yields_token.
        { rewrite N. rewrite nth_error_skipn_head, S'. reflexivity. }
        apply yields_null.
        unfold Lexer.next_token. cbn [cursor Lexer.input Lexer.next_pos].
        assert (L : length (Lexer.input l) <= pos').
        { pose proof (length_skipn pos' (Lexer.input l)) as K.
          rewrite S' in K. simpl in K. lia. }
        replace (length (Lexer.input l) <=? S pos')%nat with true
          by (symmetry; apply Nat.leb_le; lia).
        reflexivity.
      * rewrite (lexed_token (c :: w) d w' D).
        eapply yields_token.
        { rewrite N. rewrite nth_error_skipn_head, S'. reflexivity. }
        assert (T : skipn (S pos') (Lexer.input l) = w').
        { assert (Nd : nth_error (Lexer.input l) pos' = Some d)
            by (rewrite nth_error_skipn_head, S'; reflexivity).
          pose proof (skipn_nth_error_Some _ _ _ Nd) as K. rewrite S' in K.
          inversion K. reflexivity. }
        pose proof (IH (cursor (Lexer.input l) pos')) as Y.
        cbn [cursor Lexer.input Lexer.next_pos] in Y. rewrite T in Y.
        apply Y.
        assert (Lw : length w' <= length w).
        { pose proof (takeWhile_dropWhile JSNumber.isStrWhiteSpaceChar (c :: w)) as K.
          rewrite D in K. apply (f_equal (@length ascii)) in K.
          rewrite length_app in K. simpl in K. lia. }
        simpl in Hn. lia.
Qed.

Lemma yields_deterministic l ts :
  yields l ts -> forall ts', yields l ts' -> ts = ts'.
Proof.
  intros Y. induction Y as [l N|l t l1 ts N Y IH]; intros ts' Y'.
  - inversion Y' as [|? ? ? ? N' _]; subst; [reflexivity|].
    rewrite N' in N. discriminate.
  - inversion Y' as [? N'|? ? ? ? N' Y'']; subst.
    + rewrite N in N'. discriminate.
    + rewrite N in N'. inversion N'; subst. f_equal. apply IH. exact Y''.
Qed.

(** X14. The one-character lexer, as a function of the input: the tokens
    that [next_token()] returns before it returns [null] are one token for
    each character that is not white space, in order, with that character
    as literal (an operator token for [+ - / % *], a NUMBER token for any
    other character), and, when the input ends in white space, one more
    NUMBER token whose literal is [undefined]; no other sequence of tokens
    is returned. *)
Theorem one_token_for_each_character s :
  yields (Lexer.new s) (lexed s) /\
  forall ts, yields (Lexer.new s) ts -> ts = lexed s.
Proof.
  assert (Y : yields (Lexer.new s) (lexed s)).
  { exact (yields_lexed (length s) (Lexer.new s) (Nat.le_refl _)). }
  split; [exact Y|].
  intros ts Y'. exact (yields_deterministic _ _ Y' _ Y).
Qed.

Lemma one_token_for_each_character_witness :
  lexed (str " 12 *x ") =
    [mkToken NUMBER (Some "1"); mkToken NUMBER (Some "2"); mkToken MULTIPLY (Some "*");
     mkToken NUMBER (Some "x"); mkToken NUMBER None] /\
  yields (Lexer.new (str " 12 *x ")) (lexed (str " 12 *x ")).
Proof.
  split; [reflexivity|].
  exact (proj1 (one_token_for_each_character (str " 12 *x "))).
Defined.

End OneCharacterLexer.

(** ** recursive_descent.js *)

Section RecursiveDescentParser.

Import RecursiveDescent.

Lemma next_token_null l l' : Lexer.next_token l = (None, l') -> l' = l.
Proof.
  unfold Lexer.next_token.
  destruct (length (Lexer.input l) <=? Lexer.next_pos l)%nat; intros H; inversion H.
  reflexivity.
Qed.

Lemma next_token_progress l t l' :
  Lexer.next_token l = (Some t, l') -> unreadChars l' < unreadChars l.
Proof.
  pose proof (next_token_unread l) as N.
  destruct (skipn (Lexer.next_pos l) (Lexer.input l)) as [|c w] eqn:E.
  - rewrite N. discriminate.
  - destruct N as [pos' [Le [_ N]]]. rewrite N. intros H. inversion H; subst.
    pose proof (length_skipn (Lexer.next_pos l) (Lexer.input l)) as K.
    rewrite E in K. cbn [length] in K.
    unfold unreadChars. cbn [cursor Lexer.input Lexer.next_pos]. lia.
Qed.

Lemma yields_start l ts :
  yields l ts ->
  upcoming (fst (Lexer.next_token l)) (snd (Lexer.next_token l)) ts.
Proof.
  intros Y. inversion Y as [? N|? t l1 ts' N Y']; subst.
  - destruct (Lexer.next_token l) as [tok l'] eqn:E. cbn [fst snd] in *. subst tok.
    rewrite (next_token_null l l' E). split; [reflexivity|].
    apply yields_null. rewrite E. reflexivity.
  - rewrite N. cbn [fst snd]. split; [reflexivity|exact Y'].
Qed.

Lemma upcoming_step nt l ts :
  upcoming nt l ts ->
  nt = hd_error ts /\
  upcoming (fst (Lexer.next_token l)) (snd (Lexer.next_token l)) (tl ts).
Proof.
  destruct ts as [|t ts]; intros [E Y]; (split; [exact E|]); cbn [tl].
  - apply yields_start. exact Y.
  - apply yields_start. exact Y.
Qed.

Lemma descent_move p ts :
  upcoming (Parser.next_token p) (Parser.lexer p) ts ->
  Parser.token (Parser.move_pointer p) = hd_error ts /\
  upcoming (Parser.next_token (Parser.move_pointer p))
           (Parser.lexer (Parser.move_pointer p)) (tl ts).
Proof.
  intros U. destruct (upcoming_step _ _ _ U) as [E U'].
  unfold Parser.move_pointer.
  destruct (Lexer.next_token (Parser.lexer p)) as [tok l']. cbn [fst snd] in U'.
  cbn [Parser.token Parser.next_token Parser.lexer]. split; assumption.
Qed.

Lemma descent_move_pending p :
  descentPending (Parser.move_pointer p) <= descentPending p /\
  (Parser.next_token p <> None ->
   descentPending (Parser.move_pointer p) < descentPending p).
Proof.
  unfold descentPending, Parser.move_pointer.
  destruct (Lexer.next_token (Parser.lexer p)) as [[t|] l'] eqn:N;
    cbn [Parser.lexer Parser.next_token held].
  - pose proof (next_token_progress _ _ _ N) as P.
    split; [lia|]. intros H. destruct (Parser.next_token p); [simpl; lia|contradiction].
  - rewrite (next_token_null _ _ N).
    split; [lia|]. intros H. destruct (Parser.next_token p); [simpl; lia|contradiction].
Qed.

Lemma descent_move_token p :
  Parser.token (Parser.move_pointer p) = Parser.next_token p.
Proof.
  unfold Parser.move_pointer. destruct (Lexer.next_token (Parser.lexer p)). reflexivity.
Qed.

Lemma descent_returns fuel :
  forall p,
    descentPending p < fuel ->
    exists e p',
      Parser.parse_expression fuel p = Returns (e, p') /\ descentComplete e = true.
Proof.
  induction fuel as [|fuel IH]; intros p Hf; [lia|].
  cbn [Parser.parse_expression].
  destruct (descent_move_pending p) as [Le Lt].
  pose proof (descent_move_token p) as T.
  destruct (Parser.token (Parser.move_pointer p)) as [tok|] eqn:Etok.
  - assert (L1 : descentPending (Parser.move_pointer p) < descentPending p).
    { apply Lt. rewrite <- T. discriminate. }
    destruct (TokenType_eqb (type tok) NUMBER) eqn:Ty.
    + destruct (Parser.next_token (Parser.move_pointer p)) as [nt|] eqn:Ent.
      * destruct (negb (TokenType_eqb (type nt) NUMBER)).
        -- unfold Parser.InfixExpression_new, Parser.NumberExpression_new.
           destruct (descent_move_pending (Parser.move_pointer p)) as [Le2 _].
           destruct (IH (Parser.move_pointer (Parser.move_pointer p))) as [e [p' [P C]]];
             [lia|].
           rewrite P. cbn [andThen]. eexists. eexists. split; [reflexivity|].
           cbn [descentComplete]. rewrite descent_move_token, Ent, Etok, C. reflexivity.
        -- eexists. eexists. split; [reflexivity|].
           unfold Parser.NumberExpression_new. cbn [descentComplete]. rewrite Etok.
           reflexivity.
      * eexists. eexists. split; [reflexivity|].
        unfold Parser.NumberExpression_new. cbn [descentComplete]. rewrite Etok.
        reflexivity.
    + cbn [negb]. unfold Parser.PrefixExpression_new.
      destruct (IH (Parser.move_pointer p)) as [e [p' [P C]]]; [lia|].
      rewrite P. cbn [andThen]. eexists. eexists. split; [reflexivity|].
      cbn [descentComplete]. rewrite Etok, C. reflexivity.
  - eexists. eexists. split; reflexivity.
Qed.

Lemma descent_one_more_fuel fuel :
  forall p x,
    Parser.parse_expression fuel p = Returns x ->
    Parser.parse_expression (S fuel) p = Returns x.
Proof.
  induction fuel as [|fuel IH]; intros p x H; [discriminate|].
  cbn [Parser.parse_expression] in H.
  change (Parser.parse_expression (S (S fuel)) p) with
    (let parser1 := Parser.move_pointer p in
     match Parser.token parser1 with
     | None => Returns (NullExpression, parser1)
     | Some tok =>
         if TokenType_eqb (type tok) NUMBER then
           let possible_infix :=
             match Parser.next_token parser1 with
             | Some nt => negb (TokenType_eqb (type nt) NUMBER)
             | None => false
             end in
           if possible_infix
           then Parser.InfixExpression_new (Parser.parse_expression (S fuel)) parser1
           else Returns (Parser.NumberExpression_new parser1, parser1)
         else
           let is_operator := negb (TokenType_eqb (type tok) NUMBER) in
           if is_operator
           then Parser.PrefixExpression_new (Parser.parse_expression (S fuel)) parser1
           else Throws (UnableToParse (type tok) (literal tok))
     end).
  cbv zeta in H |- *.
  destruct (Parser.token (Parser.move_pointer p)) as [tok|]; [|exact H].
  destruct (TokenType_eqb (type tok) NUMBER).
  - destruct (match Parser.next_token (Parser.move_pointer p) with
              | Some nt => negb (TokenType_eqb (type nt) NUMBER)
              | None => false
              end); [|exact H].
    unfold Parser.InfixExpression_new in H |- *. cbv zeta in H |- *.
    destruct (Parser.parse_expression fuel (Parser.move_pointer (Parser.move_pointer p)))
      as [[r q]|err|] eqn:P; try discriminate.
    rewrite (IH _ _ P). exact H.
  - cbn [negb] in H |- *. unfold Parser.PrefixExpression_new in H |- *. cbv zeta in H |- *.
    destruct (Parser.parse_expression fuel (Parser.move_pointer p))
      as [[r q]|err|] eqn:P; try discriminate.
    rewrite (IH _ _ P). exact H.
Qed.

Lemma descent_more_fuel fuel fuel' p x :
  Parser.parse_expression fuel p = Returns x -> fuel <= fuel' ->
  Parser.parse_expression fuel' p = Returns x.
Proof.
  intros H L. induction L as [|m L IH]; [exact H|].
  apply descent_one_more_fuel. exact IH.
Qed.

Lemma descent_new_upcoming s :
  upcoming (Parser.next_token (Parser.new (Lexer.new s)))
           (Parser.lexer (Parser.new (Lexer.new s))) (lexed s).
Proof.
  pose proof (yields_start _ _ (yields_lexed (length s) (Lexer.new s) (Nat.le_refl _))) as U.
  unfold Parser.new, Parser.move_pointer. cbn [Parser.lexer].
  destruct (Lexer.next_token (Lexer.new s)) as [tok l']. exact U.
Qed.

Lemma descent_new_pending s : descentPending (Parser.new (Lexer.new s)) <= length s.
Proof.
  unfold descentPending, Parser.new, Parser.move_pointer. cbn [Parser.lexer].
  destruct (Lexer.next_token (Lexer.new s)) as [[t|] l'] eqn:N;
    cbn [Parser.lexer Parser.next_token held].
  - pose proof (next_token_progress _ _ _ N) as P.
    unfold unreadChars in P at 2. simpl in P. lia.
  - rewrite (next_token_null _ _ N). unfold unreadChars. simpl. lia.
Qed.

Lemma descent_print e :
  descentComplete e = true -> exists v, print e = Returns v.
Proof.
  induction e as [tok|tok r IHr|tok l IHl r IHr|]; cbn [descentComplete print]; intros C.
  - destruct tok; [|discriminate]. eexists. reflexivity.
  - apply andb_true_iff in C. destruct C as [Ct Cr].
    destruct tok; [|discriminate]. destruct (IHr Cr) as [v Pv]. rewrite Pv.
    eexists. reflexivity.
  - apply andb_true_iff in C. destruct C as [C Cr].
    apply andb_true_iff in C. destruct C as [Ct Cl].
    destruct tok; [|discriminate].
    destruct (IHl Cl) as [vl Pl]. destruct (IHr Cr) as [vr Pr]. rewrite Pl, Pr.
    eexists. reflexivity.
  - eexists. reflexivity.
Qed.

Lemma descent_S fuel p :
  Parser.parse_expression (S fuel) p =
  match Parser.token (Parser.move_pointer p) with
  | None => Returns (NullExpression, Parser.move_pointer p)
  | Some tok =>
      if TokenType_eqb (type tok) NUMBER then
        if match Parser.next_token (Parser.move_pointer p) with
           | Some nt => negb (TokenType_eqb (type nt) NUMBER)
           | None => false
           end
        then Parser.InfixExpression_new (Parser.parse_expression fuel) (Parser.move_pointer p)
        else Returns (Parser.NumberExpression_new (Parser.move_pointer p),
                      Parser.move_pointer p)
      else
        if negb (TokenType_eqb (type tok) NUMBER)
        then Parser.PrefixExpression_new (Parser.parse_expression fuel) (Parser.move_pointer p)
        else Throws (UnableToParse (type tok) (literal tok))
  end.
Proof. reflexivity. Qed.

Lemma descent_chain ons :
  forall n0 rest p,
    upcoming (Parser.next_token p) (Parser.lexer p) (n0 :: pairTokens ons ++ rest) ->
    type n0 = NUMBER ->
    Forall (fun on => type (fst on) <> NUMBER /\ type (snd on) = NUMBER) ons ->
    numberAhead rest ->
    exists p', Parser.parse_expression (S (length ons)) p = Returns (rightNest n0 ons, p').
Proof.
  induction ons as [|[o n] ons IH]; intros n0 rest p U Hn0 F Hrest.
  - cbn [length]. rewrite descent_S.
    destruct (descent_move p _ U) as [T U1]. cbn [hd_error tl pairTokens flat_map app] in T, U1.
    rewrite T, Hn0. cbn [TokenType_eqb].
    assert (K : match Parser.next_token (Parser.move_pointer p) with
                | Some nt => negb (TokenType_eqb (type nt) NUMBER)
                | None => false
                end = false).
    { destruct rest as [|t rest]; destruct U1 as [E _]; rewrite E; [reflexivity|].
      simpl in Hrest. rewrite Hrest. reflexivity. }
    rewrite K. unfold Parser.NumberExpression_new. rewrite T. eexists. reflexivity.
  - inversion F as [|? ? [Ho Hn] F']; subst. cbn [fst snd] in Ho, Hn.
    cbn [length]. rewrite descent_S.
    destruct (descent_move p _ U) as [T U1].
    change (pairTokens ((o, n) :: ons) ++ rest) with (o :: n :: pairTokens ons ++ rest) in U1.
    cbn [hd_error tl] in T, U1.
    rewrite T, Hn0. cbn [TokenType_eqb].
    destruct U1 as [E1 Y1]. rewrite E1.
    assert (K : negb (TokenType_eqb (type o) NUMBER) = true)
      by (destruct (type o); try reflexivity; contradiction).
    rewrite K.
    unfold Parser.InfixExpression_new, Parser.NumberExpression_new. cbv zeta.
    assert (U1 : upcoming (Parser.next_token (Parser.move_pointer p))
                          (Parser.lexer (Parser.move_pointer p))
                          (o :: n :: pairTokens ons ++ rest))
      by (split; assumption).
    destruct (descent_move _ _ U1) as [T2 U2]. cbn [hd_error tl] in T2, U2.
    destruct (IH n rest _ U2 Hn F' Hrest) as [p' P].
    rewrite P. cbn [andThen]. rewrite T2, T. eexists. reflexivity.
Qed.

(** X15. recursive_descent.js never fails: from any state of its parser,
    [parse_expression()] terminates within one call for each character left
    to read and for the lookahead, and one more; it returns a tree (the
    [throw] in it is never reached), every node of the tree holds a token,
    and more fuel gives the same tree.  So on every input string the
    program returns from [parse_expression()] and from [print()]. *)
Theorem recursive_descent_always_returns :
  (forall fuel p,
      descentPending p < fuel ->
      exists e p',
        RecursiveDescent.Parser.parse_expression fuel p = Returns (e, p') /\
        descentComplete e = true /\
        forall fuel', fuel <= fuel' ->
                      RecursiveDescent.Parser.parse_expression fuel' p = Returns (e, p')) /\
  (forall s, exists e v,
        RecursiveDescent.parseString s = Returns e /\
        RecursiveDescent.run s = Returns v).
Proof.
  split.
  - intros fuel p Hf. destruct (descent_returns fuel p Hf) as [e [p' [P C]]].
    exists e, p'. split; [exact P|]. split; [exact C|].
    intros fuel' L. eapply descent_more_fuel; eassumption.
  - intros s.
    destruct (descent_returns (length s + 2) (Parser.new (Lexer.new s))) as [e [p' [P C]]].
    { pose proof (descent_new_pending s). lia. }
    destruct (descent_print e C) as [v Pv].
    exists e, v. unfold run, parseString. rewrite P. cbn [andThen].
    split; [reflexivity|exact Pv].
Qed.

Lemma recursive_descent_always_returns_witness :
  let p := RecursiveDescent.Parser.new (RecursiveDescent.Lexer.new (str "1 * 2 + 3")) in
  descentPending p < 10 /\
  exists e p',
    RecursiveDescent.Parser.parse_expression 10 p = Returns (e, p') /\
    descentComplete e = true /\
    forall fuel', 10 <= fuel' ->
                  RecursiveDescent.Parser.parse_expression fuel' p = Returns (e, p').
Proof.
  intros p.
  assert (Hf : descentPending p < 10) by (vm_compute; lia).
  split; [exact Hf|].
  exact (proj1 recursive_descent_always_returns 10 p Hf).
Defined.

(** X16. recursive_descent.js has no precedence: when the tokens of the
    input are a number [n0], then pairs of an operator and a number
    [o1 n1 o2 n2 ...], and then nothing or another number, the tree is the
    right-nested [(n0 o1 (n1 o2 (n2 ...)))] whatever the operators are, and
    what follows the last number is not parsed. *)
Theorem recursive_descent_nests_right s n0 ons rest :
  lexed s = n0 :: pairTokens ons ++ rest ->
  RecursiveDescent.type n0 = NUMBER ->
  Forall (fun on => RecursiveDescent.type (fst on) <> NUMBER /\
                    RecursiveDescent.type (snd on) = NUMBER) ons ->
  numberAhead rest ->
  RecursiveDescent.parseString s = Returns (rightNest n0 ons).
Proof.
  intros L Hn0 F Hrest.
  pose proof (descent_new_upcoming s) as U. rewrite L in U.
  destruct (descent_chain ons n0 rest _ U Hn0 F Hrest) as [p' P].
  destruct (descent_returns (length s + 2) (Parser.new (Lexer.new s))) as [e [q [Q _]]].
  { pose proof (descent_new_pending s). lia. }
  pose proof (descent_more_fuel _ (Nat.max (S (length ons)) (length s + 2)) _ _ P
                (Nat.le_max_l _ _)) as P1.
  pose proof (descent_more_fuel _ (Nat.max (S (length ons)) (length s + 2)) _ _ Q
                (Nat.le_max_r _ _)) as Q1.
  rewrite P1 in Q1. inversion Q1; subst.
  unfold parseString. rewrite Q. reflexivity.
Qed.

Lemma recursive_descent_nests_right_witness :
  RecursiveDescent.parseString (str "1 * 2 + 3") =
    Returns (rightNest (mkToken NUMBER (Some "1"))
               [(mkToken MULTIPLY (Some "*"), mkToken NUMBER (Some "2"));
                (mkToken PLUS (Some "+"), mkToken NUMBER (Some "3"))]) /\
  RecursiveDescent.run (str "1 * 2 + 3") = Returns (Some (str "(1 * (2 + 3))")) /\
  RecursiveDescent.parseString (str "12+3") = Returns (rightNest (mkToken NUMBER (Some "1")) []).
Proof.
  split; [|split].
  - apply (recursive_descent_nests_right (str "1 * 2 + 3") _ _ []).
    + reflexivity.
    + reflexivity.
    + repeat constructor; discriminate.
    + exact I.
  - reflexivity.
  - apply (recursive_descent_nests_right (str "12+3") _ []
             [mkToken NUMBER (Some "2"); mkToken PLUS (Some "+"); mkToken NUMBER (Some "3")]).
    + reflexivity.
    + reflexivity.
    + constructor.
    + reflexivity.
Defined.

End RecursiveDescentParser.

(** ** The precedence sketch *)

Section PrecedenceSketchParser.

Import RecursiveDescent PrecedenceSketch.

Lemma sketch_move p ts :
  sketchAhead p ts ->
  Parser.token (Parser.move_pointer p) = hd_error ts /\
  sketchAhead (Parser.move_pointer p) (tl ts).
Proof.
  intros U. destruct (upcoming_step _ _ _ U) as [E U'].
  unfold Parser.move_pointer.
  destruct (Lexer.next_token (Parser.lexer p)) as [tok l']. cbn [fst snd] in U'.
  cbn [Parser.token Parser.next_token Parser.lexer]. split; assumption.
Qed.

Lemma sketch_move_pending p :
  sketchPending (Parser.move_pointer p) <= sketchPending p /\
  (Parser.next_token p <> None ->
   sketchPending (Parser.move_pointer p) < sketchPending p).
Proof.
  unfold sketchPending, Parser.move_pointer.
  destruct (Lexer.next_token (Parser.lexer p)) as [[t|] l'] eqn:N;
    cbn [Parser.lexer Parser.next_token held].
  - pose proof (next_token_progress _ _ _ N) as P.
    split; [lia|]. intros H. destruct (Parser.next_token p); [simpl; lia|contradiction].
  - rewrite (next_token_null _ _ N).
    split; [lia|]. intros H. destruct (Parser.next_token p); [simpl; lia|contradiction].
Qed.

Lemma sketch_move_token p :
  Parser.token (Parser.move_pointer p) = Parser.next_token p.
Proof.
  unfold Parser.move_pointer. destruct (Lexer.next_token (Parser.lexer p)). reflexivity.
Qed.

Lemma climb_S fuel lhs prec p :
  Parser.climb (S fuel) lhs prec p =
  match Parser.next_token p with
  | Some nt =>
      if (prec <=? TokenPrecedence.get nt)%Z then
        andThen
          (Parser.operand fuel
             (Parser.parse_primary (Parser.move_pointer (Parser.move_pointer p)))
             (Parser.token (Parser.move_pointer p))
             (Parser.move_pointer (Parser.move_pointer p)))
          (fun x =>
             Parser.climb fuel
               (InfixExpression (Parser.token (Parser.move_pointer p)) lhs (fst x))
               prec (snd x))
      else Returns (lhs, p)
  | None => Returns (lhs, p)
  end.
Proof.
  cbn [Parser.climb]. destruct (Parser.next_token p); [|reflexivity].
  destruct (prec <=? TokenPrecedence.get t)%Z; [|reflexivity].
  destruct (Parser.operand fuel _ _ _) as [[r q]| |]; reflexivity.
Qed.

Lemma operand_S fuel rhs operator p :
  Parser.operand (S fuel) rhs operator p =
  match Parser.next_token p with
  | Some nt =>
      andThen (deref operator)
        (fun op =>
           if (TokenPrecedence.get op <? TokenPrecedence.get nt)%Z then
             andThen (Parser.climb fuel rhs (TokenPrecedence.get nt) p)
                     (fun x => Parser.operand fuel (fst x) operator (snd x))
           else Returns (rhs, p))
  | None => Returns (rhs, p)
  end.
Proof.
  cbn [Parser.operand]. destruct (Parser.next_token p); [|reflexivity].
  destruct (deref operator) as [op| |]; cbn [andThen]; try reflexivity.
  destruct (TokenPrecedence.get op <? TokenPrecedence.get t)%Z; [|reflexivity].
  destruct (Parser.climb fuel _ _ _) as [[r q]| |]; reflexivity.
Qed.

Lemma get_levels t : (TokenPrecedence.get t = 0 \/ TokenPrecedence.get t = 1)%Z.
Proof. unfold TokenPrecedence.get. destruct (type t); auto. Qed.

Lemma climb_operand_return fuel :
  (forall lhs prec p,
      2 * sketchPending p + 1 <= fuel ->
      exists e p',
        Parser.climb fuel lhs prec p = Returns (e, p') /\
        sketchPending p' <= sketchPending p /\
        (forall nt, Parser.next_token p = Some nt ->
                    (prec <= TokenPrecedence.get nt)%Z ->
                    sketchPending p' < sketchPending p)) /\
  (forall rhs op p,
      2 * sketchPending p + 2 <= fuel ->
      exists e p',
        Parser.operand fuel rhs (Some op) p = Returns (e, p') /\
        sketchPending p' <= sketchPending p).
Proof.
  induction fuel as [|fuel [IHc IHo]].
  - split; intros; lia.
  - split.
    + intros lhs prec p Hf. rewrite climb_S.
      destruct (Parser.next_token p) as [nt|] eqn:Ent.
      * destruct (prec <=? TokenPrecedence.get nt)%Z eqn:Hle.
        -- destruct (sketch_move_pending p) as [_ L1].
           assert (L1' : sketchPending (Parser.move_pointer p) < sketchPending p)
             by (apply L1; rewrite Ent; discriminate).
           destruct (sketch_move_pending (Parser.move_pointer p)) as [L2 _].
           rewrite sketch_move_token, Ent.
           destruct (IHo (Parser.parse_primary (Parser.move_pointer (Parser.move_pointer p)))
                         nt (Parser.move_pointer (Parser.move_pointer p)))
             as [r [p3 [O L3]]]; [lia|].
           rewrite O. cbn [andThen fst snd].
           destruct (IHc (InfixExpression (Some nt) lhs r) prec p3) as [e [p' [C [L4 _]]]];
             [lia|].
           exists e, p'. split; [exact C|]. split; [lia|]. intros; lia.
        -- exists lhs, p. split; [reflexivity|]. split; [lia|].
           intros nt' E Hp. inversion E; subst.
           apply Z.leb_gt in Hle. lia.
      * exists lhs, p. split; [reflexivity|]. split; [lia|]. intros nt E. discriminate.
    + intros rhs op p Hf. rewrite operand_S.
      destruct (Parser.next_token p) as [nt|] eqn:Ent.
      * cbn [deref andThen].
        destruct (TokenPrecedence.get op <? TokenPrecedence.get nt)%Z.
        -- destruct (IHc rhs (TokenPrecedence.get nt) p) as [r [p1 [C [L1 Lt]]]]; [lia|].
           specialize (Lt nt Ent (Z.le_refl _)).
           rewrite C. cbn [andThen fst snd].
           destruct (IHo r op p1) as [e [p' [O L2]]]; [lia|].
           exists e, p'. split; [exact O|lia].
        -- exists rhs, p. split; [reflexivity|lia].
      * exists rhs, p. split; [reflexivity|lia].
Qed.

Lemma climb_operand_one_more_fuel fuel :
  (forall lhs prec p x,
      Parser.climb fuel lhs prec p = Returns x ->
      Parser.climb (S fuel) lhs prec p = Returns x) /\
  (forall rhs operator p x,
      Parser.operand fuel rhs operator p = Returns x ->
      Parser.operand (S fuel) rhs operator p = Returns x).
Proof.
  induction fuel as [|fuel [IHc IHo]].
  - split; intros; discriminate.
  - split.
    + intros lhs prec p x H. rewrite climb_S in H. rewrite climb_S.
      destruct (Parser.next_token p) as [nt|]; [|exact H].
      destruct (prec <=? TokenPrecedence.get nt)%Z; [|exact H].
      destruct (Parser.operand fuel _ _ _) as [[r q]|err|] eqn:O; try discriminate.
      rewrite (IHo _ _ _ _ O). cbn [andThen fst snd] in H |- *.
      apply IHc. exact H.
    + intros rhs operator p x H. rewrite operand_S in H. rewrite operand_S.
      destruct (Parser.next_token p) as [nt|]; [|exact H].
      destruct (deref operator) as [op|err|]; cbn [andThen] in H |- *; try discriminate.
      destruct (TokenPrecedence.get op <? TokenPrecedence.get nt)%Z; [|exact H].
      destruct (Parser.climb fuel _ _ _) as [[r q]|err|] eqn:C; try discriminate.
      rewrite (IHc _ _ _ _ C). cbn [andThen fst snd] in H |- *.
      apply IHo. exact H.
Qed.

Lemma climb_more_fuel fuel fuel' lhs prec p x :
  Parser.climb fuel lhs prec p = Returns x -> fuel <= fuel' ->
  Parser.climb fuel' lhs prec p = Returns x.
Proof.
  intros H L. induction L as [|m L IH]; [exact H|].
  apply (proj1 (climb_operand_one_more_fuel m)). exact IH.
Qed.

Lemma operand_more_fuel fuel fuel' rhs operator p x :
  Parser.operand fuel rhs operator p = Returns x -> fuel <= fuel' ->
  Parser.operand fuel' rhs operator p = Returns x.
Proof.
  intros H L. induction L as [|m L IH]; [exact H|].
  apply (proj2 (climb_operand_one_more_fuel m)). exact IH.
Qed.

Lemma sketch_new_upcoming s : sketchAhead (Parser.new (Lexer.new s)) (lexed s).
Proof.
  pose proof (yields_start _ _ (yields_lexed (length s) (Lexer.new s) (Nat.le_refl _))) as U.
  unfold Parser.new, Parser.move_pointer. cbn [Parser.lexer].
  destruct (Lexer.next_token (Lexer.new s)) as [tok l']. exact U.
Qed.

Lemma sketch_new_pending s : sketchPending (Parser.new (Lexer.new s)) <= length s.
Proof.
  unfold sketchPending, Parser.new, Parser.move_pointer. cbn [Parser.lexer].
  destruct (Lexer.next_token (Lexer.new s)) as [[t|] l'] eqn:N;
    cbn [Parser.lexer Parser.next_token held].
  - pose proof (next_token_progress _ _ _ N) as P.
    unfold unreadChars in P at 2. simpl in P. lia.
  - rewrite (next_token_null _ _ N). unfold unreadChars. simpl. lia.
Qed.

Lemma sketch_parse_returns s :
  exists e p',
    Parser.parse_expression (2 * length s + 2) (Parser.new (Lexer.new s)) = Returns (e, p').
Proof.
  unfold Parser.parse_expression, Parser.parse_expression_w_precedence.
  destruct (proj1 (climb_operand_return (2 * length s + 2))
              (Parser.parse_primary (Parser.move_pointer (Parser.new (Lexer.new s))))
              0%Z (Parser.move_pointer (Parser.new (Lexer.new s)))) as [e [p' [C _]]].
  { pose proof (sketch_new_pending s).
    destruct (sketch_move_pending (Parser.new (Lexer.new s))) as [L _]. lia. }
  exists e, p'. exact C.
Qed.

(** X17. The parser of the sketch never fails: from any state, the loop of
    [parse_expression_w_precedence()] terminates within twice what is left
    to read and one more call or iteration, it returns a tree (no property
    of [null] is read while parsing), it leaves no more to read than it
    found, and more fuel gives the same tree.  So [parse_expression()]
    returns on every input string. *)
Theorem sketch_parse_always_returns :
  (forall fuel lhs prec p,
      2 * sketchPending p + 1 <= fuel ->
      exists e p',
        PrecedenceSketch.Parser.parse_expression_w_precedence fuel lhs prec p =
          Returns (e, p') /\
        sketchPending p' <= sketchPending p /\
        forall fuel', fuel <= fuel' ->
          PrecedenceSketch.Parser.parse_expression_w_precedence fuel' lhs prec p =
            Returns (e, p')) /\
  (forall s, exists e, PrecedenceSketch.parseString s = Returns e).
Proof.
  split.
  - intros fuel lhs prec p Hf.
    destruct (proj1 (climb_operand_return fuel) lhs prec p Hf) as [e [p' [C [L _]]]].
    exists e, p'. split; [exact C|]. split; [exact L|].
    intros fuel' Hle. eapply climb_more_fuel; eassumption.
  - intros s. destruct (sketch_parse_returns s) as [e [p' P]].
    exists e. unfold parseString. rewrite P. reflexivity.
Qed.

Lemma sketch_parse_always_returns_witness :
  let p := PrecedenceSketch.Parser.move_pointer
             (PrecedenceSketch.Parser.new (RecursiveDescent.Lexer.new (str "1 * 2 + 3"))) in
  2 * sketchPending p + 1 <= 20 /\
  exists e p',
    PrecedenceSketch.Parser.parse_expression_w_precedence 20
      (PrecedenceSketch.Parser.parse_primary p) 0 p = Returns (e, p') /\
    sketchPending p' <= sketchPending p /\
    forall fuel', 20 <= fuel' ->
      PrecedenceSketch.Parser.parse_expression_w_precedence fuel'
        (PrecedenceSketch.Parser.parse_primary p) 0 p = Returns (e, p').
Proof.
  intros p.
  assert (Hf : 2 * sketchPending p + 1 <= 20) by (vm_compute; lia).
  split; [exact Hf|].
  exact (proj1 sketch_parse_always_returns 20 (PrecedenceSketch.Parser.parse_primary p)
           0%Z p Hf).
Defined.

Lemma sketchAhead_none p ts :
  sketchAhead p ts -> Parser.next_token p = None -> ts = [].
Proof.
  intros U N. destruct ts as [|t ts]; [reflexivity|].
  destruct U as [E _]. rewrite E in N. discriminate.
Qed.

Lemma sketchAhead_some p ts nt :
  sketchAhead p ts -> Parser.next_token p = Some nt -> exists r, ts = nt :: r.
Proof.
  intros U N. destruct ts as [|t ts]; destruct U as [E _]; rewrite E in N.
  - discriminate.
  - inversion N; subst. eexists. reflexivity.
Qed.

Lemma sketchAhead_nil p : sketchAhead p [] -> Parser.next_token p = None.
Proof. intros [E _]. exact E. Qed.

Lemma climb_at_end fuel lhs prec p x :
  Parser.next_token p = None ->
  Parser.climb fuel lhs prec p = Returns x -> x = (lhs, p).
Proof.
  intros N H. destruct fuel as [|fuel]; [discriminate|].
  rewrite climb_S, N in H. inversion H. reflexivity.
Qed.

Lemma operand_at_end fuel rhs operator p x :
  Parser.next_token p = None ->
  Parser.operand fuel rhs operator p = Returns x -> x = (rhs, p).
Proof.
  intros N H. destruct fuel as [|fuel]; [discriminate|].
  rewrite operand_S, N in H. inversion H. reflexivity.
Qed.

Lemma even_double n : Nat.even (n + n) = true.
Proof. rewrite Nat.even_add. destruct (Nat.even n); reflexivity. Qed.

Lemma even_chain a b c :
  Nat.even (a + b) = true -> Nat.even (a + c) = Nat.even (b + c).
Proof.
  rewrite !Nat.even_add.
  destruct (Nat.even a), (Nat.even b), (Nat.even c); simpl; intros H;
    try reflexivity; discriminate.
Qed.

(** The trees that the two loops return are short of a token exactly when
    they have taken an odd number of tokens, and then nothing is left. *)
Lemma climb_operand_parity fuel :
  (forall lhs prec p ts e p',
      sketchAhead p ts -> sketchComplete lhs = true ->
      Parser.climb fuel lhs prec p = Returns (e, p') ->
      exists ts',
        sketchAhead p' ts' /\
        sketchComplete e = Nat.even (length ts + length ts') /\
        (sketchComplete e = false -> ts' = [])) /\
  (forall rhs op p ts e p',
      sketchAhead p ts -> sketchComplete rhs = true ->
      Parser.operand fuel rhs (Some op) p = Returns (e, p') ->
      exists ts',
        sketchAhead p' ts' /\
        sketchComplete e = Nat.even (length ts + length ts') /\
        (sketchComplete e = false -> ts' = [])).
Proof.
  induction fuel as [|fuel [IHc IHo]].
  - split; intros; discriminate.
  - assert (Stay : forall (x : Expression) p ts,
               sketchAhead p ts -> sketchComplete x = true ->
               exists ts',
                 sketchAhead p ts' /\
                 sketchComplete x = Nat.even (length ts + length ts') /\
                 (sketchComplete x = false -> ts' = [])).
    { intros x p ts U C. exists ts. split; [exact U|].
      rewrite C, even_double. split; [reflexivity|discriminate]. }
    split.
    + intros lhs prec p ts e p' U Cl H. rewrite climb_S in H.
      destruct (Parser.next_token p) as [nt|] eqn:Ent.
      * destruct (prec <=? TokenPrecedence.get nt)%Z.
        -- destruct (sketchAhead_some _ _ _ U Ent) as [r Ets]. subst ts.
           destruct (sketch_move _ _ U) as [T1 U1]. cbn [hd_error tl] in T1, U1.
           destruct (sketch_move _ _ U1) as [T2 U2].
           rewrite T1 in H. unfold Parser.parse_primary in H. rewrite T2 in H.
           destruct (Parser.operand fuel _ _ _) as [[rx p3]|err|] eqn:O; try discriminate.
           cbn [andThen fst snd] in H.
           destruct r as [|t r]; cbn [hd_error tl] in O, U2.
           ++ pose proof (operand_at_end _ _ _ _ _ (sketchAhead_nil _ U2) O) as Ex.
              inversion Ex; subst rx p3.
              pose proof (climb_at_end _ _ _ _ _ (sketchAhead_nil _ U2) H) as Ee.
              inversion Ee; subst e p'.
              exists []. split; [exact U2|].
              cbn [sketchComplete present length]. rewrite Cl. simpl.
              split; [reflexivity|reflexivity].
           ++ destruct (IHo (NumberExpression (Some t)) nt _ r rx p3 U2 eq_refl O)
                as [ts3 [U3 [P3 E3]]].
              destruct (sketchComplete rx) eqn:Cx.
              ** destruct (IHc (InfixExpression (Some nt) lhs rx) prec p3 ts3 e p' U3)
                   as [ts' [U' [P' E']]].
                 { cbn [sketchComplete present]. rewrite Cl, Cx. reflexivity. }
                 { exact H. }
                 exists ts'. split; [exact U'|]. split; [|exact E'].
                 rewrite P'. cbn [length]. cbn [Nat.add Nat.even].
                 symmetry. apply even_chain. symmetry. exact P3.
              ** specialize (E3 eq_refl). subst ts3.
                 pose proof (climb_at_end _ _ _ _ _ (sketchAhead_nil _ U3) H) as Ee.
                 inversion Ee; subst e p'.
                 exists []. split; [exact U3|].
                 cbn [sketchComplete present]. rewrite Cl, Cx.
                 cbn [length Nat.add Nat.even]. cbn [length] in P3.
                 split; [|reflexivity]. rewrite <- P3. reflexivity.
        -- inversion H; subst. apply Stay; assumption.
      * inversion H; subst. apply Stay; assumption.
    + intros rhs op p ts e p' U Cr H. rewrite operand_S in H.
      destruct (Parser.next_token p) as [nt|] eqn:Ent.
      * cbn [deref andThen] in H.
        destruct (TokenPrecedence.get op <? TokenPrecedence.get nt)%Z.
        -- destruct (Parser.climb fuel _ _ _) as [[rx p1]|err|] eqn:C; try discriminate.
           cbn [andThen fst snd] in H.
           destruct (IHc _ _ _ _ _ _ U Cr C) as [ts1 [U1 [P1 E1]]].
           destruct (sketchComplete rx) eqn:Cx.
           ** destruct (IHo _ _ _ _ _ _ U1 Cx H) as [ts' [U' [P' E']]].
              exists ts'. split; [exact U'|]. split; [|exact E'].
              rewrite P'. symmetry. apply even_chain.
              rewrite Nat.add_comm. symmetry. rewrite P1.
              rewrite Nat.add_comm. reflexivity.
           ** specialize (E1 eq_refl). subst ts1.
              pose proof (operand_at_end _ _ _ _ _ (sketchAhead_nil _ U1) H) as Ee.
              inversion Ee; subst e p'.
              exists []. split; [exact U1|]. rewrite Cx.
              split; [exact P1|reflexivity].
        -- inversion H; subst. apply Stay; assumption.
      * inversion H; subst. apply Stay; assumption.
Qed.

Lemma climb_zero_to_end fuel :
  forall lhs p e p',
    Parser.climb fuel lhs 0 p = Returns (e, p') -> Parser.next_token p' = None.
Proof.
  induction fuel as [|fuel IH]; intros lhs p e p' H; [discriminate|].
  rewrite climb_S in H.
  destruct (Parser.next_token p) as [nt|] eqn:Ent.
  - replace (0 <=? TokenPrecedence.get nt)%Z with true in H
      by (symmetry; apply Z.leb_le; destruct (get_levels nt); lia).
    destruct (Parser.operand fuel _ _ _) as [[rx p3]|err|]; try discriminate.
    cbn [andThen fst snd] in H. eapply IH. exact H.
  - inversion H; subst. exact Ent.
Qed.

Lemma sketch_print e :
  if sketchComplete e then exists v, print e = Returns v
  else print e = Throws TypeError.
Proof.
  induction e as [tok|tok l IHl r IHr|]; cbn [sketchComplete print].
  - destruct tok; cbn [present deref andThen]; [eexists|]; reflexivity.
  - destruct tok as [t|]; cbn [present deref andThen andb].
    + destruct (sketchComplete l); cbn [andb].
      * destruct IHl as [vl Pl]. rewrite Pl. cbn [andThen].
        destruct (sketchComplete r).
        -- destruct IHr as [vr Pr]. rewrite Pr. eexists. reflexivity.
        -- rewrite IHr. reflexivity.
      * rewrite IHl. reflexivity.
    + destruct (sketchComplete l).
      * destruct IHl as [vl Pl]. rewrite Pl. reflexivity.
      * rewrite IHl. reflexivity.
  - eexists. reflexivity.
Qed.

Lemma sketch_parse_parity s e :
  parseString s = Returns e ->
  sketchComplete e = Nat.odd (length (lexed s)).
Proof.
  unfold parseString, Parser.parse_expression, Parser.parse_expression_w_precedence.
  intros H.
  destruct (Parser.climb _ _ _ _) as [[e0 p']|err|] eqn:C; try discriminate.
  cbn [andThen] in H. inversion H; subst e0. clear H.
  pose proof (sketch_new_upcoming s) as U.
  destruct (sketch_move _ _ U) as [T U1].
  unfold Parser.parse_primary in C. rewrite T in C.
  pose proof (climb_zero_to_end _ _ _ _ _ C) as End.
  destruct (lexed s) as [|t r]; cbn [hd_error tl] in C, U1.
  - pose proof (climb_at_end _ _ _ _ _ (sketchAhead_nil _ U1) C) as Ee.
    inversion Ee; subst. reflexivity.
  - destruct (proj1 (climb_operand_parity _) (NumberExpression (Some t)) 0%Z _ r e p'
                    U1 eq_refl C)
      as [ts' [U' [P' _]]].
    rewrite (sketchAhead_none _ _ U' End) in P'. cbn [length] in P' |- *.
    rewrite Nat.add_0_r in P'. rewrite P'.
    rewrite Nat.odd_succ. reflexivity.
Qed.

(** X18. [print()] of the sketch fails on every other input: the tree that
    [parse_expression()] returns lacks a token exactly when the number of
    tokens of the input is even (an empty input, digits side by side, an
    operator at the end), and then [print()] throws a TypeError on reading
    [literal] of [null]; when the number of tokens is odd, [print()]
    returns. *)
Theorem sketch_print_fails_on_even_token_count s :
  (Nat.even (length (lexed s)) = true ->
   PrecedenceSketch.run s = Throws TypeError) /\
  (Nat.odd (length (lexed s)) = true ->
   exists v, PrecedenceSketch.run s = Returns v).
Proof.
  destruct (sketch_parse_returns s) as [e [p' P]].
  assert (Ps : parseString s = Returns e) by (unfold parseString; rewrite P; reflexivity).
  pose proof (sketch_parse_parity s e Ps) as C.
  pose proof (sketch_print e) as Pr.
  unfold run. rewrite Ps. cbn [andThen].
  split; intros H.
  - unfold Nat.odd in C. rewrite H in C. cbn [negb] in C. rewrite C in Pr. exact Pr.
  - rewrite H in C. rewrite C in Pr. exact Pr.
Qed.

Lemma sketch_print_fails_on_even_token_count_witness :
  PrecedenceSketch.run (str "1 +") = Throws TypeError /\
  PrecedenceSketch.run [] = Throws TypeError /\
  PrecedenceSketch.run (str "12") = Throws TypeError /\
  exists v, PrecedenceSketch.run (str "1 + 2") = Returns v.
Proof.
  split; [|split; [|split]].
  - apply (proj1 (sketch_print_fails_on_even_token_count (str "1 +"))). reflexivity.
  - apply (proj1 (sketch_print_fails_on_even_token_count [])). reflexivity.
  - apply (proj1 (sketch_print_fails_on_even_token_count (str "12"))). reflexivity.
  - apply (proj2 (sketch_print_fails_on_even_token_count (str "1 + 2"))). reflexivity.
Defined.

Lemma operand_top fuel rhs op p :
  TokenPrecedence.get op = 1%Z ->
  Parser.operand (S fuel) rhs (Some op) p = Returns (rhs, p).
Proof.
  intros H. rewrite operand_S. destruct (Parser.next_token p) as [nt|]; [|reflexivity].
  cbn [deref andThen]. rewrite H.
  replace (1 <? TokenPrecedence.get nt)%Z with false
    by (symmetry; apply Z.ltb_ge; destruct (get_levels nt); lia).
  reflexivity.
Qed.

Lemma operand_low fuel rhs op p rest :
  TokenPrecedence.get op = 0%Z ->
  sketchAhead p rest -> lowAhead rest ->
  Parser.operand (S fuel) rhs (Some op) p = Returns (rhs, p).
Proof.
  intros H U Lo. rewrite operand_S. destruct rest as [|t rest]; destruct U as [E _]; rewrite E.
  - reflexivity.
  - cbn [deref andThen]. simpl in Lo. rewrite H, Lo. reflexivity.
Qed.

Lemma climb_low_stops fuel lhs p rest :
  sketchAhead p rest -> lowAhead rest ->
  Parser.climb (S fuel) lhs 1 p = Returns (lhs, p).
Proof.
  intros U Lo. rewrite climb_S. destruct rest as [|t rest]; destruct U as [E _]; rewrite E.
  - reflexivity.
  - simpl in Lo. rewrite Lo. reflexivity.
Qed.

Lemma climb_products prods :
  forall lhs prec p rest,
    (prec <= 1)%Z ->
    isProduct prods ->
    sketchAhead p (pairTokens prods ++ rest) ->
    exists p',
      sketchAhead p' rest /\
      forall x, settles (fun f => Parser.climb f (leftNest lhs prods) prec p') x ->
                settles (fun f => Parser.climb f lhs prec p) x.
Proof.
  induction prods as [|[h t] prods IH]; intros lhs prec p rest Hp Pr U.
  - exists p. split; [exact U|]. intros x St. exact St.
  - inversion Pr as [|? ? Hh Pr']; subst. cbn [fst] in Hh.
    change (pairTokens ((h, t) :: prods) ++ rest)
      with (h :: t :: pairTokens prods ++ rest) in U.
    destruct (sketch_move _ _ U) as [T1 U1]. cbn [hd_error tl] in T1, U1.
    destruct (sketch_move _ _ U1) as [T2 U2]. cbn [hd_error tl] in T2, U2.
    destruct (IH (InfixExpression (Some h) lhs (NumberExpression (Some t))) prec _ rest
                 Hp Pr' U2) as [p' [U' K]].
    exists p'. split; [exact U'|]. intros x St.
    destruct (K x St) as [n Hn].
    exists (S (S n)). intros fuel L.
    destruct fuel as [|[|fuel]]; try lia.
    rewrite climb_S. destruct U as [E _]. rewrite E.
    replace (prec <=? TokenPrecedence.get h)%Z with true
      by (symmetry; apply Z.leb_le; lia).
    rewrite T1. unfold Parser.parse_primary. rewrite T2.
    rewrite operand_top by exact Hh. cbn [andThen fst snd].
    apply Hn. lia.
Qed.

Lemma operand_product prods rhs o p rest :
  TokenPrecedence.get o = 0%Z ->
  isProduct prods ->
  sketchAhead p (pairTokens prods ++ rest) ->
  lowAhead rest ->
  exists p',
    sketchAhead p' rest /\
    settles (fun f => Parser.operand f rhs (Some o) p) (leftNest rhs prods, p').
Proof.
  intros Ho Pr U Lo. destruct prods as [|[h t] prods].
  - exists p. split; [exact U|]. exists 1. intros fuel L.
    destruct fuel as [|fuel]; [lia|]. eapply operand_low; eassumption.
  - destruct (climb_products ((h, t) :: prods) rhs 1 p rest (Z.le_refl _) Pr U)
      as [p' [U' K]].
    exists p'. split; [exact U'|].
    destruct (K (leftNest rhs ((h, t) :: prods), p')) as [n Hn].
    { exists 1. intros fuel L. destruct fuel as [|fuel]; [lia|].
      eapply climb_low_stops; eassumption. }
    exists (S (S n)). intros fuel L. destruct fuel as [|[|fuel]]; try lia.
    rewrite operand_S. destruct U as [E _]. cbn [pairTokens flat_map app fst] in E.
    rewrite E. cbn [deref andThen].
    inversion Pr as [|? ? Hh _]; subst. cbn [fst] in Hh. rewrite Ho, Hh.
    cbn [Z.ltb Z.compare].
    rewrite Hn by lia. cbn [andThen fst snd].
    eapply operand_low; eassumption.
Qed.

Lemma groups_lowAhead groups : Forall isGroup groups -> lowAhead (flat_map groupTokens groups).
Proof.
  intros F. destruct groups as [|[[o t] prods] gs]; [exact I|].
  inversion F as [|? ? [Ho _] _]; subst. exact Ho.
Qed.

Lemma climb_groups groups :
  forall lhs p,
    Forall isGroup groups ->
    sketchAhead p (flat_map groupTokens groups) ->
    exists p',
      settles (fun f => Parser.climb f lhs 0 p)
              (fold_left (fun acc g => InfixExpression (Some (fst (fst g))) acc
                                         (product (snd (fst g)) (snd g)))
                         groups lhs, p').
Proof.
  induction groups as [|[[o t] prods] gs IH]; intros lhs p F U.
  - exists p. exists 1. intros fuel L. destruct fuel as [|fuel]; [lia|].
    rewrite climb_S. destruct U as [E _]. rewrite E. reflexivity.
  - inversion F as [|? ? [Ho Pr] F']; subst. cbn [fst snd] in Ho, Pr.
    change (flat_map groupTokens ((o, t, prods) :: gs))
      with (o :: t :: pairTokens prods ++ flat_map groupTokens gs) in U.
    destruct (sketch_move _ _ U) as [T1 U1]. cbn [hd_error tl] in T1, U1.
    destruct (sketch_move _ _ U1) as [T2 U2]. cbn [hd_error tl] in T2, U2.
    destruct (operand_product prods (NumberExpression (Some t)) o _ _ Ho Pr U2
                (groups_lowAhead gs F')) as [p3 [U3 [n1 H1]]].
    destruct (IH (InfixExpression (Some o) lhs (product t prods)) p3 F' U3)
      as [p' [n2 H2]].
    exists p'. exists (S (Nat.max n1 n2)). intros fuel L.
    destruct fuel as [|fuel]; [lia|].
    rewrite climb_S. destruct U as [E _]. rewrite E, Ho. cbn [Z.leb Z.compare].
    rewrite T1. unfold Parser.parse_primary. rewrite T2.
    rewrite H1 by lia. cbn [andThen fst snd fold_left].
    apply H2. lia.
Qed.

(** X19. The sketch gives [* / %] precedence over [+ -], and groups both to
    the left: when the tokens of the input are a product (an operand, then
    pairs of one of [* / %] and an operand) followed by pairs of one of
    [+ -], or a character that is no operator, and a product, the tree is
    the left-nested sum of the left-nested products.  Operands are taken
    as they come, whatever their type. *)
Theorem sketch_sum_of_products s t0 prods0 groups :
  lexed s = t0 :: pairTokens prods0 ++ flat_map groupTokens groups ->
  isProduct prods0 ->
  Forall isGroup groups ->
  PrecedenceSketch.parseString s = Returns (sumOfProducts t0 prods0 groups).
Proof.
  intros L P0 G.
  pose proof (sketch_new_upcoming s) as U. rewrite L in U.
  destruct (sketch_move _ _ U) as [T U1]. cbn [hd_error tl] in T, U1.
  destruct (climb_products prods0 (NumberExpression (Some t0)) 0 _ _ ltac:(lia) P0 U1)
    as [p1 [U2 K]].
  destruct (climb_groups groups (leftNest (NumberExpression (Some t0)) prods0) p1 G U2)
    as [p2 St].
  destruct (K _ St) as [n Hn].
  destruct (sketch_parse_returns s) as [e [q Q]].
  unfold parseString. rewrite Q. cbn [andThen].
  unfold Parser.parse_expression, Parser.parse_expression_w_precedence in Q.
  unfold Parser.parse_primary in Q. rewrite T in Q.
  pose proof (climb_more_fuel _ (Nat.max n (2 * length s + 2)) _ _ _ _ Q
                (Nat.le_max_r _ _)) as Q1.
  rewrite (Hn _ (Nat.le_max_l _ _)) in Q1. inversion Q1. reflexivity.
Qed.

Lemma sketch_sum_of_products_witness :
  let one := mkToken NUMBER (Some "1") in
  let two := mkToken NUMBER (Some "2") in
  let three := mkToken NUMBER (Some "3") in
  let four := mkToken NUMBER (Some "4") in
  let five := mkToken NUMBER (Some "5") in
  let plus := mkToken PLUS (Some "+") in
  let minus := mkToken MINUS (Some "-") in
  let times := mkToken MULTIPLY (Some "*") in
  let over := mkToken DIVIDE (Some "/") in
  PrecedenceSketch.parseString (str "1 * 2 + 3") =
    Returns (sumOfProducts one [(times, two)] [(plus, three, [])]) /\
  PrecedenceSketch.run (str "1 * 2 + 3") = Returns (Some (str "((1 * 2) + 3)")) /\
  PrecedenceSketch.parseString (str "1 - 2 * 3 / 4 + 5") =
    Returns (sumOfProducts one [] [(minus, two, [(times, three); (over, four)]);
                                   (plus, five, [])]) /\
  PrecedenceSketch.run (str "1 - 2 * 3 / 4 + 5") =
    Returns (Some (str "((1 - ((2 * 3) / 4)) + 5)")).
Proof.
  intros one two three four five plus minus times over.
  split; [|split; [|split]].
  - apply (sketch_sum_of_products (str "1 * 2 + 3")).
    + reflexivity.
    + repeat constructor.
    + repeat constructor.
  - reflexivity.
  - apply (sketch_sum_of_products (str "1 - 2 * 3 / 4 + 5")).
    + reflexivity.
    + constructor.
    + repeat constructor.
  - reflexivity.
Defined.

End PrecedenceSketchParser.
